(** * Manipulator robot console: motor control and command protocol

    A shallow embedding of [main.py]: the six-joint target/current state,
    the smoothing pass, the serial command frame and the key-repeat loop,
    with Python's number semantics (exact ints, binary64 floats) underneath. *)

From stdpp Require Import base list gmap strings pretty.
From Stdlib Require Import ZArith Lia Ascii.
From Stdlib Require SpecFloat.
Local Open Scope Z_scope.

(** ** Binary64 arithmetic

    Every finite binary64 number is an integer multiple of [2^-1074] (the
    smallest subnormal) with at most 53 significant bits.  A finite float is
    stored as that integer: [k] stands for [k * 2^-1074].  Rounding is to
    nearest, ties to even, as IEEE 754 and CPython do. *)
Module Binary64.

(** [n / 2^s] rounded to the nearest integer, ties to the even one: the
    quotient is [n] shifted right by [s] bits, the remainder its low [s]
    bits. *)
Definition rne (n s : Z) : Z :=
  let q := Z.shiftr n s in
  match 2 * Z.land n (Z.ones s) ?= Z.shiftl 1 s with
  | Lt => q
  | Gt => q + 1
  | Eq => if Z.even q then q else q + 1
  end.

(** Exponent of the spacing of the doubles around [n * 2^-j] units: 53
    significant bits, and never finer than one unit. *)
Definition grid (j n : Z) : Z := Z.max j (Z.log2 (Z.abs n) - 52).

(** The double (in units) nearest to the exact value [n * 2^-j] units,
    with the exponent unbounded above. *)
Definition round_at (j n : Z) : Z :=
  Z.shiftl (rne n (grid j n)) (grid j n - j).

Definition one : Z := 2 ^ 1074.
Definition half : Z := 2 ^ 1073.
(** The literal [0.1], i.e. the double [0x3FB999999999999A]. *)
Definition tenth : Z := 3602879701896397 * 2 ^ 1019.
(** [2^1024]: the first magnitude that is no longer finite. *)
Definition huge : Z := 2 ^ 2098.

Inductive float : Type :=
| Fin (k : Z)
| Inf (negative : bool)
| NaN.

(** Rounding of an exact result, overflowing to an infinity. *)
Definition fl (j n : Z) : float :=
  let r := round_at j n in
  if huge <=? r then Inf false
  else if r <=? - huge then Inf true
  else Fin r.

Definition is_double (k : Z) : bool :=
  (round_at 0 k =? k) && (Z.abs k <? huge).

Definition fopp (x : float) : float :=
  match x with
  | Fin a => Fin (- a)
  | Inf s => Inf (negb s)
  | NaN => NaN
  end.

Definition fabs (x : float) : float :=
  match x with
  | Fin a => Fin (Z.abs a)
  | Inf _ => Inf false
  | NaN => NaN
  end.

Definition fadd (x y : float) : float :=
  match x, y with
  | NaN, _ | _, NaN => NaN
  | Fin a, Fin b => fl 0 (a + b)
  | Inf s, Fin _ | Fin _, Inf s => Inf s
  | Inf s, Inf s' => if Bool.eqb s s' then Inf s else NaN
  end.

Definition fsub (x y : float) : float := fadd x (fopp y).

Definition fmul (x y : float) : float :=
  match x, y with
  | NaN, _ | _, NaN => NaN
  | Fin a, Fin b => fl 1074 (a * b)
  | Inf s, Fin a | Fin a, Inf s =>
      if a =? 0 then NaN else Inf (xorb s (a <? 0))
  | Inf s, Inf s' => Inf (xorb s s')
  end.

(** [x < y]; every comparison with a NaN is false. *)
Definition flt (x y : float) : bool :=
  match x, y with
  | NaN, _ | _, NaN => false
  | Fin a, Fin b => a <? b
  | Inf s, Fin _ => s
  | Fin _, Inf s => negb s
  | Inf s, Inf s' => s && negb s'
  end.

End Binary64.
Import Binary64.

(** ** Python values and the exceptions the program can meet *)

Inductive exn : Type :=
| IndexError
| OverflowError
| ValueError
| TransportError.

Inductive result (A : Type) : Type :=
| Ret (a : A)
| Raise (e : exn).
Arguments Ret {A} a.
Arguments Raise {A} e.

#[global] Instance result_ret : MRet result := λ A a, Ret a.
#[global] Instance result_bind : MBind result := λ A B f m,
  match m with
  | Ret a => f a
  | Raise e => Raise e
  end.

(** A Python number: an [int] of any size or a [float]. *)
Inductive pynum : Type :=
| PyInt (z : Z)
| PyFloat (f : float).

(** [float(x)]: an int is rounded to the nearest double and refused when
    that would be infinite. *)
Definition to_float (x : pynum) : result float :=
  match x with
  | PyInt z =>
      match fl 0 (z * one) with
      | Fin k => Ret (Fin k)
      | _ => Raise OverflowError
      end
  | PyFloat f => Ret f
  end.

(** The exact value of a number, used by comparisons: Python compares an
    int with a float without converting the int. *)
Definition exact (x : pynum) : float :=
  match x with
  | PyInt z => Fin (z * one)
  | PyFloat f => f
  end.

Definition py_add (x y : pynum) : result pynum :=
  match x, y with
  | PyInt a, PyInt b => Ret (PyInt (a + b))
  | _, _ => a ← to_float x; b ← to_float y; Ret (PyFloat (fadd a b))
  end.

Definition py_sub (x y : pynum) : result pynum :=
  match x, y with
  | PyInt a, PyInt b => Ret (PyInt (a - b))
  | _, _ => a ← to_float x; b ← to_float y; Ret (PyFloat (fsub a b))
  end.

Definition py_mul (x y : pynum) : result pynum :=
  match x, y with
  | PyInt a, PyInt b => Ret (PyInt (a * b))
  | _, _ => a ← to_float x; b ← to_float y; Ret (PyFloat (fmul a b))
  end.

Definition py_abs (x : pynum) : pynum :=
  match x with
  | PyInt a => PyInt (Z.abs a)
  | PyFloat f => PyFloat (fabs f)
  end.

Definition py_lt (x y : pynum) : bool := flt (exact x) (exact y).
Definition py_gt (x y : pynum) : bool := py_lt y x.
Definition py_le (x y : pynum) : bool :=
  match exact x, exact y with
  | NaN, _ | _, NaN => false
  | _, _ => negb (py_lt y x)
  end.

(** The builtins [min(a, b)] and [max(a, b)]: the first argument stays
    unless the second one is strictly better. *)
Definition py_min (a b : pynum) : pynum := if py_lt b a then b else a.
Definition py_max (a b : pynum) : pynum := if py_gt b a then b else a.

(** [int(x)]: truncation towards zero. *)
Definition py_int (x : pynum) : result Z :=
  match x with
  | PyInt z => Ret z
  | PyFloat (Fin k) => Ret (Z.quot k one)
  | PyFloat (Inf _) => Raise OverflowError
  | PyFloat NaN => Raise ValueError
  end.

(** Subscripts: a negative index counts from the end of the list. *)
Definition py_index {A} (l : list A) (i : Z) : option nat :=
  let n := Z.of_nat (length l) in
  if bool_decide (0 <= i < n) then Some (Z.to_nat i)
  else if bool_decide (- n <= i < 0) then Some (Z.to_nat (i + n))
  else None.

Definition getitem {A} (l : list A) (i : Z) : result A :=
  match py_index l i with
  | Some k => match l !! k with Some x => Ret x | None => Raise IndexError end
  | None => Raise IndexError
  end.

Definition setitem {A} (l : list A) (i : Z) (x : A) : result (list A) :=
  match py_index l i with
  | Some k => Ret (<[k:=x]> l)
  | None => Raise IndexError
  end.

(** ** Module-level state *)

Definition motor_ranges : list (Z * Z) :=
  [(0, 1023); (512, 634); (104, 924); (512, 956); (0, 1023); (430, 890)].

Definition motor_names : list string :=
  ["Base"; "Shoulder"; "Apear_Arm"; "Elbow"; "Wrist"; "Hand"].

Definition KEY_REPEAT_DELAY : Z := 50.
Definition KEY_REPEAT_INTERVAL : Z := 50.
Definition FAST_STEP_SIZE : pynum := PyInt 3.

(** The status line.  The adjustment message is kept as the fields its
    f-string is built from: motor number, name, sign, step and the shown
    target. *)
Inductive text : Type :=
| Literal (s : string)
| Adjusted (motor : Z) (name : string) (plus : bool) (step : pynum) (shown : Z).

(** What the serial link does on one [arduino.write]: the call raises (port
    absent or broken), or the bytes are taken and then nothing waits, a
    reply line is read, or reading it raises. *)
Inductive reply : Type :=
| NothingWaiting
| Line (response : string)
| ReadRaises.

Inductive io_outcome : Type :=
| WriteRaises
| Written (r : reply).

(** Lines printed on standard output. *)
Inductive line : Type :=
| DataSent (command : string)
| ArduinoResponse (response : string)
| CommunicationError (e : exn)
| Command (t : text).

Record world : Type := World {
  motor_angles : list pynum;
  motor_targets : list pynum;
  action_text : text;
  keys_pressed : list Z;
  last_command_time : gmap Z Z;
  running : bool;
  serial_io : list (string * io_outcome);
  stdout : list line
}.

Definition initial_world : world :=
  {| motor_angles := PyInt <$> [512; 512; 512; 956; 800; 430];
     motor_targets := PyInt <$> [512; 512; 512; 956; 800; 430];
     action_text := Literal "System Ready";
     keys_pressed := [];
     last_command_time := ∅;
     running := true;
     serial_io := [];
     stdout := [] |}.

Definition set_motor_angles (v : list pynum) (w : world) : world :=
  World v (motor_targets w) (action_text w) (keys_pressed w)
        (last_command_time w) (running w) (serial_io w) (stdout w).
Definition set_motor_targets (v : list pynum) (w : world) : world :=
  World (motor_angles w) v (action_text w) (keys_pressed w)
        (last_command_time w) (running w) (serial_io w) (stdout w).
Definition set_action_text (v : text) (w : world) : world :=
  World (motor_angles w) (motor_targets w) v (keys_pressed w)
        (last_command_time w) (running w) (serial_io w) (stdout w).
Definition set_keys_pressed (v : list Z) (w : world) : world :=
  World (motor_angles w) (motor_targets w) (action_text w) v
        (last_command_time w) (running w) (serial_io w) (stdout w).
Definition set_last_command_time (v : gmap Z Z) (w : world) : world :=
  World (motor_angles w) (motor_targets w) (action_text w) (keys_pressed w)
        v (running w) (serial_io w) (stdout w).
Definition set_running (v : bool) (w : world) : world :=
  World (motor_angles w) (motor_targets w) (action_text w) (keys_pressed w)
        (last_command_time w) v (serial_io w) (stdout w).
Definition set_serial_io (v : list (string * io_outcome)) (w : world) : world :=
  World (motor_angles w) (motor_targets w) (action_text w) (keys_pressed w)
        (last_command_time w) (running w) v (stdout w).
Definition set_stdout (v : list line) (w : world) : world :=
  World (motor_angles w) (motor_targets w) (action_text w) (keys_pressed w)
        (last_command_time w) (running w) (serial_io w) v.

(** ** Keys and events *)

(** pygame's key codes: the ASCII codes of the letters, 27 for Escape. *)
Definition K_ESCAPE : Z := 27.
Definition K_q : Z := 113.
Definition K_a : Z := 97.
Definition K_w : Z := 119.
Definition K_s : Z := 115.
Definition K_e : Z := 101.
Definition K_d : Z := 100.
Definition K_r : Z := 114.
Definition K_f : Z := 102.
Definition K_t : Z := 116.
Definition K_g : Z := 103.
Definition K_y : Z := 121.
Definition K_h : Z := 104.

Definition key_mapping : gmap Z (Z * string) :=
  list_to_map
    [(K_q, (0, "increase")); (K_a, (0, "decrease"));
     (K_w, (1, "increase")); (K_s, (1, "decrease"));
     (K_e, (2, "increase")); (K_d, (2, "decrease"));
     (K_r, (3, "increase")); (K_f, (3, "decrease"));
     (K_t, (4, "increase")); (K_g, (4, "decrease"));
     (K_y, (5, "increase")); (K_h, (5, "decrease"))].

Inductive event : Type :=
| QUIT
| KEYDOWN (key : Z)
| KEYUP (key : Z)
| OTHER.

(** [keys_pressed] is a dict whose values are all [True]: it is kept as
    the list of its keys, in insertion order. *)
Definition press (key : Z) (w : world) : world :=
  if bool_decide (key ∈ keys_pressed w) then w
  else set_keys_pressed (keys_pressed w ++ [key]) w.

Definition release (key : Z) (w : world) : world :=
  set_last_command_time (delete key (last_command_time w))
    (set_keys_pressed (filter (λ k, k ≠ key) (keys_pressed w)) w).

Definition schedule (key : Z) (time : Z) (w : world) : world :=
  set_last_command_time (<[key:=time]> (last_command_time w)) w.

(** ** The monad of the program: global state and exceptions.
    A raised exception keeps the state reached so far. *)

Definition M (A : Type) : Type := world → result A * world.

#[global] Instance M_ret : MRet M := λ A a w, (Ret a, w).
#[global] Instance M_bind : MBind M := λ A B f m w,
  match m w with
  | (Ret a, w') => f a w'
  | (Raise e, w') => (Raise e, w')
  end.

Definition gets {A} (f : world → A) : M A := λ w, (Ret (f w), w).
Definition modify (f : world → world) : M unit := λ w, (Ret tt, f w).
Definition lift {A} (r : result A) : M A := λ w, (r, w).
Definition try_except {A} (body : M A) (handler : exn → M A) : M A := λ w,
  match body w with
  | (Ret a, w') => (Ret a, w')
  | (Raise e, w') => handler e w'
  end.
Definition print (l : line) : M unit :=
  modify (λ w, set_stdout (stdout w ++ [l]) w).

Fixpoint for_each {A} (l : list A) (body : A → M unit) : M unit :=
  match l with
  | [] => mret tt
  | x :: l' => body x;; for_each l' body
  end.

Definition target_at (i : Z) : M pynum :=
  ts ← gets motor_targets; lift (getitem ts i).
Definition angle_at (i : Z) : M pynum :=
  angles ← gets motor_angles; lift (getitem angles i).
Definition store_target (i : Z) (v : pynum) : M unit :=
  ts ← gets motor_targets; ts' ← lift (setitem ts i v);
  modify (set_motor_targets ts').
Definition store_angle (i : Z) (v : pynum) : M unit :=
  angles ← gets motor_angles; angles' ← lift (setitem angles i v);
  modify (set_motor_angles angles').

(** ** [update_motor_angles] *)

Definition smooth_joint (i : Z) : M unit :=
  t ← target_at i;
  a ← angle_at i;
  diff ← lift (py_sub t a);
  if py_gt (py_abs diff) (PyFloat (Fin half)) then
    a ← angle_at i;
    d ← lift (py_mul diff (PyFloat (Fin tenth)));
    v ← lift (py_add a d);
    store_angle i v
  else
    t ← target_at i;
    store_angle i t.

Definition update_motor_angles : M unit :=
  ts ← gets motor_targets;
  for_each (seqZ 0 (Z.of_nat (length ts))) smooth_joint.

(** ** [send_command] and [update_robot_action] *)

Section Link.
(** The behaviour of the serial side: what the [n]-th [arduino.write] of
    the run meets. *)
Variable link : nat → io_outcome.

Definition int_target (i : Z) : M string :=
  t ← target_at i; z ← lift (py_int t); mret (pretty z).

Definition format_command : M string :=
  s0 ← int_target 0; s1 ← int_target 1; s2 ← int_target 2;
  s3 ← int_target 3; s4 ← int_target 4; s5 ← int_target 5;
  mret (s0 +:+ "," +:+ s1 +:+ "," +:+ s2 +:+ "," +:+ s3 +:+ ","
           +:+ s4 +:+ "," +:+ s5 +:+ "*").

Definition arduino_write (command : string) : M reply := λ w,
  let o := link (length (serial_io w)) in
  let w' := set_serial_io (serial_io w ++ [(command, o)]) w in
  match o with
  | WriteRaises => (Raise TransportError, w')
  | Written r => (Ret r, w')
  end.

Definition send_command : M unit :=
  try_except
    (command ← format_command;
     r ← arduino_write command;
     print (DataSent command);;
     match r with
     | NothingWaiting => mret tt
     | Line response => print (ArduinoResponse response)
     | ReadRaises => lift (Raise TransportError)
     end)
    (λ e, print (CommunicationError e)).

Definition adjustment_text (idx : Z) (plus : bool) (step_size : pynum) : M unit :=
  name ← lift (getitem motor_names idx);
  t ← target_at idx;
  shown ← lift (py_int t);
  modify (set_action_text (Adjusted (idx + 1) name plus step_size shown)).

Definition update_robot_action (action : string) (motor_index : option Z)
    (direction : option string) (step_size : pynum) : M unit :=
  match motor_index with
  | Some idx =>
      '(min_val, max_val) ← lift (getitem motor_ranges idx);
      (if bool_decide (direction = Some "increase") then
         t ← target_at idx;
         s ← lift (py_add t step_size);
         store_target idx (py_min (PyInt max_val) s);;
         adjustment_text idx true step_size
       else if bool_decide (direction = Some "decrease") then
         t ← target_at idx;
         s ← lift (py_sub t step_size);
         store_target idx (py_max (PyInt min_val) s);;
         adjustment_text idx false step_size
       else mret tt);;
      send_command
  | None => modify (set_action_text (Literal action))
  end;;
  t ← gets action_text;
  print (Command t).

(** ** The main loop *)

Definition motor_label (motor_index : Z) : string :=
  "Motor " +:+ pretty (motor_index + 1).

Definition handle_event (current_time : Z) (ev : event) : M unit :=
  match ev with
  | QUIT => modify (set_running false)
  | KEYDOWN key =>
      if bool_decide (key = K_ESCAPE) then modify (set_running false)
      else
        held ← gets keys_pressed;
        match key_mapping !! key with
        | Some (motor_index, direction) =>
            if bool_decide (key ∈ held) then mret tt
            else
              modify (press key);;
              update_robot_action (motor_label motor_index)
                (Some motor_index) (Some direction) FAST_STEP_SIZE;;
              modify (schedule key (current_time + KEY_REPEAT_DELAY))
        | None => mret tt
        end
  | KEYUP key => modify (release key)
  | OTHER => mret tt
  end.

Definition repeat_key (current_time : Z) (key : Z) : M unit :=
  match key_mapping !! key with
  | Some (motor_index, direction) =>
      times ← gets last_command_time;
      if bool_decide (default 0 (times !! key) <= current_time) then
        update_robot_action (motor_label motor_index)
          (Some motor_index) (Some direction) FAST_STEP_SIZE;;
        modify (schedule key (current_time + KEY_REPEAT_INTERVAL))
      else mret tt
  | None => mret tt
  end.

(** One iteration of [while running]: the drawing calls only read the
    state and are left out. *)
Definition loop_body (current_time : Z) (events : list event) : M unit :=
  for_each events (handle_event current_time);;
  held ← gets keys_pressed;
  for_each held (repeat_key current_time);;
  update_motor_angles.

(** The loop over the frames the window system delivers, each with its
    clock reading and its events. *)
Fixpoint main_loop (frames : list (Z * list event)) : M unit :=
  match frames with
  | [] => mret tt
  | (current_time, events) :: rest =>
      gets running ≫= λ go : bool,
        if go then loop_body current_time events;; main_loop rest
        else mret tt
  end.

End Link.

(** ** Notions used to state the properties *)

(** The exact value of a finite number, in units of [2^-1074]. *)
Definition value (x : pynum) : Z :=
  match exact x with
  | Fin v => v
  | _ => 0
  end.

(** A number the interpreter can hold: a float is one of the doubles. *)
Definition well_formed (x : pynum) : bool :=
  match x with
  | PyFloat (Fin k) => is_double k
  | _ => true
  end.

(** [lo <= x <= hi], as Python evaluates it. *)
Definition in_range (lo hi : Z) (x : pynum) : bool :=
  py_le (PyInt lo) x && py_le x (PyInt hi).

Definition joint_ok (r : Z * Z) (x : pynum) : Prop :=
  well_formed x = true ∧ in_range r.1 r.2 x = true.

(** Six joints, each target and each current position inside its range. *)
Definition joints_ok (w : world) : Prop :=
  Forall2 joint_ok motor_ranges (motor_targets w) ∧
  Forall2 joint_ok motor_ranges (motor_angles w).

(** The smoothing rule for one joint, as the specification words it:
    [diff = target - current]; when [|diff| > 0.5] the new current is
    [current + diff * 0.1], otherwise it is the target. *)
Definition tick_smoothing_rule (target current : pynum) : result pynum :=
  diff ← py_sub target current;
  if py_gt (py_abs diff) (PyFloat (Fin half)) then
    d ← py_mul diff (PyFloat (Fin tenth));
    py_add current d
  else Ret target.

(** [n] iterations of the loop with no key touched: only the smoothing
    pass runs. *)
Definition smoothing_ticks (n : nat) (w : world) : world :=
  Nat.iter n (λ w, (update_motor_angles w).2) w.

(** The frame the protocol asks for: the integers in decimal, in order,
    separated by single commas and closed by the terminator. *)
Fixpoint join_commas (fields : list string) (terminator : string) : string :=
  match fields with
  | [] => terminator
  | [s] => s +:+ terminator
  | s :: rest => s +:+ "," +:+ join_commas rest terminator
  end.

Definition wire_frame (values : list Z) : string :=
  join_commas (pretty <$> values) "*".

(** What one [send_command] adds to the serial traffic and to the output,
    read off the link and the frame it was given. *)
Definition traffic (link : nat → io_outcome) (w : world)
    (frame : result string) : list (string * io_outcome) :=
  match frame with
  | Ret command => [(command, link (length (serial_io w)))]
  | Raise _ => []
  end.

Definition report (link : nat → io_outcome) (w : world)
    (frame : result string) : list line :=
  match frame with
  | Ret command =>
      match link (length (serial_io w)) with
      | WriteRaises => [CommunicationError TransportError]
      | Written NothingWaiting => [DataSent command]
      | Written (Line response) => [DataSent command; ArduinoResponse response]
      | Written ReadRaises => [DataSent command; CommunicationError TransportError]
      end
  | Raise e => [CommunicationError e]
  end.

(** The clamped target an adjustment computes. *)
Definition adjusted_target (r : Z * Z) (t : pynum) (plus : bool)
    (step_size : pynum) : result pynum :=
  if plus then s ← py_add t step_size; Ret (py_min (PyInt r.2) s)
  else s ← py_sub t step_size; Ret (py_max (PyInt r.1) s).

Definition direction_name (plus : bool) : string :=
  if plus then "increase" else "decrease".

(** The adjustments announced on the output: joint index and sign of every
    [COMMAND] line that reports one. *)
Definition intents (out : list line) : list (Z * bool) :=
  omap (λ l, match l with
             | Command (Adjusted motor _ plus _ _) => Some (motor - 1, plus)
             | _ => None
             end) out.

(** The command string as a function of the targets alone. *)
Definition field_of (ts : list pynum) (i : Z) : result string :=
  t ← getitem ts i; z ← py_int t; Ret (pretty z).

Definition command_of (ts : list pynum) : result string :=
  s0 ← field_of ts 0; s1 ← field_of ts 1; s2 ← field_of ts 2;
  s3 ← field_of ts 3; s4 ← field_of ts 4; s5 ← field_of ts 5;
  Ret (s0 +:+ "," +:+ s1 +:+ "," +:+ s2 +:+ "," +:+ s3 +:+ ","
          +:+ s4 +:+ "," +:+ s5 +:+ "*").

(** Calls on the joint model: an adjustment of one joint, or a smoothing
    pass. *)
Inductive call : Type :=
| Adjust (joint : nat) (plus : bool) (step_size : pynum)
| Smooth.

Definition do_call (link : nat → io_outcome) (c : call) : M unit :=
  match c with
  | Adjust joint plus step_size =>
      update_robot_action link (motor_label (Z.of_nat joint))
        (Some (Z.of_nat joint)) (Some (direction_name plus)) step_size
  | Smooth => update_motor_angles
  end.

(** The state after a sequence of calls, whatever each call returned. *)
Definition do_calls (link : nat → io_outcome) (cs : list call) (w : world) : world :=
  foldl (λ w c, (do_call link c w).2) w cs.

(** A call the claim speaks of: one of the six joints, a step that Python
    finds non-negative. *)
Definition admissible (c : call) : Prop :=
  match c with
  | Adjust joint _ step_size =>
      (joint < 6)%nat ∧ py_le (PyInt 0) step_size = true
  | Smooth => True
  end.

(** Occurrences of a character in a string. *)
Fixpoint count_char (c : Ascii.ascii) (s : string) : nat :=
  match s with
  | EmptyString => 0
  | String c' s' => (if Ascii.eqb c c' then 1 else 0) + count_char c s'
  end.

Definition newline : Ascii.ascii := Ascii.ascii_of_nat 10.

(** The characters of the framing: they never occur inside a field. *)
Definition framing (c : Ascii.ascii) : Prop :=
  c = ","%char ∨ c = "*"%char ∨ c = newline.

(** ** Notions used in the proofs *)

(** What being inside a range of moderate size gives. *)
Record viewed (lo hi : Z) (x : pynum) (v : Z) : Prop := Viewed {
  viewed_exact : exact x = Fin v;
  viewed_float : to_float x = Ret (Fin v);
  viewed_range : lo * one <= v <= hi * one;
  viewed_double : round_at 0 v = v
}.

(** Ranges far below the precision of a double. *)
Definition moderate (r : Z * Z) : Prop := - 2 ^ 40 <= r.1 ∧ r.2 <= 2 ^ 40.

(** A step that Python finds non-negative is a non-negative int, a
    non-negative double or the positive infinity. *)
Definition nonneg_float (f : float) : Prop :=
  f = Inf false ∨ ∃ k, f = Fin k ∧ 0 <= k.

(** The state [send_command] leaves behind. *)
Definition sent (link : nat → io_outcome) (w : world) : world :=
  World (motor_angles w) (motor_targets w) (action_text w) (keys_pressed w)
        (last_command_time w) (running w)
        (serial_io w ++ traffic link w (command_of (motor_targets w)))
        (stdout w ++ report link w (command_of (motor_targets w))).

(** The state after [update_robot_action] printed its [COMMAND] line. *)
Definition announced (w : world) : world :=
  set_stdout (stdout w ++ [Command (action_text w)]) w.

(** The state after an adjustment that stored [v] at position [j]. *)
Definition adjusted (link : nat → io_outcome) (w : world) (idx : Z) (j : nat)
    (name : string) (plus : bool) (step : pynum) (v : pynum) (z : Z) : world :=
  announced (sent link
    (set_action_text (Adjusted (idx + 1) name plus step z)
       (set_motor_targets (<[j:=v]> (motor_targets w)) w))).

(** The state reached from [w] adds [frames] to the serial traffic and
    [out] to the output, and touches the listed fields only. *)
Record grows (w w' : world) (frames : list (string * io_outcome))
    (out : list line) : Prop := Grows {
  grows_serial : serial_io w' = serial_io w ++ frames;
  grows_stdout : stdout w' = stdout w ++ out;
  grows_angles : motor_angles w' = motor_angles w;
  grows_keys : keys_pressed w' = keys_pressed w;
  grows_times : last_command_time w' = last_command_time w;
  grows_running : running w' = running w
}.

(** One intent applied with the fixed step to joint [j]. *)
Record applied (link : nat → io_outcome) (j : nat) (plus : bool)
    (w w' : world) : Prop := Applied {
  applied_ok : joints_ok w';
  applied_grows : ∃ frame out,
      grows w w' [(frame, link (length (serial_io w)))] out ∧
      intents out = [(Z.of_nat j, plus)] ∧
      command_of (motor_targets w') = Ret frame;
  applied_target : ∃ r t v,
      motor_ranges !! j = Some r ∧ motor_targets w !! j = Some t ∧
      adjusted_target r t plus FAST_STEP_SIZE = Ret v ∧
      motor_targets w' = <[j:=v]> (motor_targets w)
}.

(** The intent a held key fires at time [now], if it is due. *)
Definition fires (now : Z) (w : world) (k : Z) : option (Z * bool) :=
  match key_mapping !! k with
  | Some (i, d) =>
      if bool_decide (default 0 (last_command_time w !! k) <= now)
      then Some (i, bool_decide (d = "increase"))
      else None
  | None => None
  end.

(** Traffic and output only grow, by one frame per intent. *)
Definition extends (w w' : world) : Prop :=
  ∃ frames out, serial_io w' = serial_io w ++ frames ∧
                stdout w' = stdout w ++ out ∧
                length frames = length (intents out).

(** Everything but the serial traffic and the printed output. *)
Definition same_control (w1 w2 : world) : Prop :=
  motor_angles w1 = motor_angles w2 ∧ motor_targets w1 = motor_targets w2 ∧
  action_text w1 = action_text w2 ∧ keys_pressed w1 = keys_pressed w2 ∧
  last_command_time w1 = last_command_time w2 ∧ running w1 = running w2.

(** Two computations that, from states with the same control part, end
    the same way in states with the same control part. *)
Definition agree {A} (m1 m2 : M A) : Prop :=
  ∀ w1 w2, same_control w1 w2 ->
    (m1 w1).1 = (m2 w2).1 ∧ same_control (m1 w1).2 (m2 w2).2.

(** ** Sample inputs *)

(** A link that takes every frame and never answers, and one that is
    down. *)
Definition quiet : nat → io_outcome := λ _, Written NothingWaiting.
Definition broken : nat → io_outcome := λ _, WriteRaises.

Definition sample_calls : list call :=
  [Adjust 1 true (PyInt 3); Smooth; Adjust 0 false (PyFloat (Fin half));
   Smooth; Adjust 5 false (PyInt 7)].

(** The state with the targets [1 .. 6]. *)
Definition counting_world : world :=
  set_motor_targets (PyInt <$> [1; 2; 3; 4; 5; 6]) initial_world.

(** ** Two claims of the specification, as it words them *)

(** "In every tick in which at least one intent is applied, exactly one
    command frame is transmitted." *)
Definition one_frame_per_tick : Prop :=
  ∀ link now events w, joints_ok w ->
    let w' := (loop_body link now events w).2 in
    (length (intents (stdout w)) < length (intents (stdout w')))%nat ->
    length (serial_io w') = S (length (serial_io w)).

(** "An adjustment with a joint index outside 0..5 is a no-op: targets and
    currents are unchanged and the loop is not terminated." *)
Definition invalid_index_is_noop : Prop :=
  ∀ link action idx direction step_size w, joints_ok w ->
    ¬ (0 <= idx <= 5) ->
    let res := update_robot_action link action (Some idx) direction step_size w in
    res.1 = Ret tt ∧ motor_targets res.2 = motor_targets w ∧
    motor_angles res.2 = motor_angles w.

(** The currents of [counting_world] after one smoothing pass. *)
Definition counting_smoothed : list pynum :=
  Eval vm_compute in motor_angles (update_motor_angles counting_world).2.

(** A state whose targets are away from the currents, inside the ranges. *)
Definition far_world : world :=
  set_motor_targets (PyInt <$> [1000; 600; 200; 600; 100; 880]) initial_world.

(** The state after [Q] was pressed at time 0 and one frame went by. *)
Definition holding_q : world := (loop_body quiet 0 [KEYDOWN K_q] initial_world).2.

(** ** The arithmetic against the Standard Library's IEEE 754 model *)

(** The double nearest to [k] units, as [SpecFloat] builds it, and back. *)
Definition to_spec (k : Z) : SpecFloat.spec_float :=
  SpecFloat.binary_normalize 53 1024 k (- 1074) false.

Definition of_spec (x : SpecFloat.spec_float) : float :=
  match x with
  | SpecFloat.S754_zero _ => Fin 0
  | SpecFloat.S754_infinity s => Inf s
  | SpecFloat.S754_nan => NaN
  | SpecFloat.S754_finite s m e =>
      Fin ((if s then - 1 else 1) * Z.pos m * 2 ^ (e + 1074))
  end.

Definition same_float (x y : float) : bool :=
  match x, y with
  | Fin a, Fin b => a =? b
  | Inf s, Inf s' => Bool.eqb s s'
  | NaN, NaN => true
  | _, _ => false
  end.

Definition spec_samples : list Z :=
  [0; 1; - 7; 2 ^ 53 + 2; half; tenth; - 3 * tenth; 515 * one;
   4506238455277158 * 2 ^ 1031; (2 ^ 53 - 1) * 2 ^ 2045].

Definition agrees_with_spec : bool :=
  forallb (λ a, same_float (of_spec (to_spec a)) (fl 0 a)) spec_samples &&
  forallb (λ '(a, b),
     same_float (of_spec (SpecFloat.SFadd 53 1024 (to_spec a) (to_spec b)))
                (fadd (fl 0 a) (fl 0 b)) &&
     same_float (of_spec (SpecFloat.SFsub 53 1024 (to_spec a) (to_spec b)))
                (fsub (fl 0 a) (fl 0 b)) &&
     same_float (of_spec (SpecFloat.SFmul 53 1024 (to_spec a) (to_spec b)))
                (fmul (fl 0 a) (fl 0 b)) &&
     same_float (of_spec (to_spec (a + 3 * b))) (fl 0 (a + 3 * b)))
    (list_prod spec_samples spec_samples).

(** The frames of the timing example: [Q] goes down at time 0, the loop is
    sampled every 16 ms. *)
Definition sampled (events : list event) (times : list Z) : list (Z * list event) :=
  (0, events) :: ((λ t, (t, [])) <$> times).

Definition intents_after (link : nat → io_outcome)
    (frames : list (Z * list event)) : list (Z * bool) :=
  intents (stdout (main_loop link frames initial_world).2).

(** ** The run as a whole *)

(** The events that end the run: closing the window, or Escape going
    down. *)
Definition is_exit (ev : event) : bool :=
  match ev with
  | QUIT => true
  | KEYDOWN key => bool_decide (key = K_ESCAPE)
  | _ => false
  end.

(** The key state the loop keeps: the held keys are distinct and mapped,
    and the keys with a scheduled time are exactly the held ones. *)
Record keys_consistent (w : world) : Prop := KeysConsistent {
  held_distinct : NoDup (keys_pressed w);
  held_mapped : ∀ k, k ∈ keys_pressed w -> is_Some (key_mapping !! k);
  held_scheduled : ∀ k, is_Some (last_command_time w !! k) ↔ k ∈ keys_pressed w
}.

Definition is_int (x : pynum) : bool :=
  match x with
  | PyInt _ => true
  | PyFloat _ => false
  end.

(** Every target is a Python [int]. *)
Definition int_targets (w : world) : Prop :=
  Forall (λ t, is_int t = true) (motor_targets w).

(** The loop and the statement that follows it,
    [update_robot_action("System Shutdown", None, None)], whose step is the
    default [1]. *)
Definition program (link : nat → io_outcome) (frames : list (Z * list event)) : M unit :=
  main_loop link frames;;
  update_robot_action link "System Shutdown" None None (PyInt 1).

(** A frame whose six fields lie inside the ranges of their joints. *)
Definition in_limits (frame : string) : Prop :=
  ∃ zs, frame = wire_frame zs ∧
        Forall2 (λ (r : Z * Z) z, r.1 <= z <= r.2) motor_ranges zs.

(** Between [w] and [w'] the serial traffic only grew, by frames inside
    the limits. *)
Definition sends_within_limits (w w' : world) : Prop :=
  ∃ frames, serial_io w' = serial_io w ++ frames ∧
            Forall (λ f : string * io_outcome, in_limits f.1) frames.

(** ** True division *)

(** The quotient [n / b] of an integer by a positive integer with two more
    binary places: the first one is the next bit of the quotient, the last
    one records whether anything is left over. *)
Definition sticky_quotient (n b : Z) : Z :=
  2 * ((2 * n) / b) + (if (2 * n) mod b =? 0 then 0 else 1).

(** [x / y] for a finite positive [y] (in units): the double nearest to
    the exact quotient, or an infinity. *)
Definition fdiv_pos (x : float) (b : Z) : float :=
  match x with
  | Fin a => fl 2 (sticky_quotient (a * one) b)
  | Inf s => Inf s
  | NaN => NaN
  end.

(** [x / d] for a positive int [d]: an int is divided exactly and the
    quotient rounded once (refused when it is too large for a float); a
    float is divided by [float(d)]. *)
Definition py_div_pos (x : pynum) (d : positive) : result pynum :=
  match x with
  | PyInt a =>
      match fl 2 (sticky_quotient (a * one) (Z.pos d)) with
      | Fin k => Ret (PyFloat (Fin k))
      | _ => Raise OverflowError
      end
  | PyFloat f =>
      match fl 0 (Z.pos d * one) with
      | Fin b => Ret (PyFloat (fdiv_pos f b))
      | _ => Raise OverflowError
      end
  end.

(** ** The dashboard *)

Definition SCREEN_WIDTH : Z := 900.
Definition SCREEN_HEIGHT : Z := 650.

Definition colour : Type := Z * Z * Z.
Definition LIGHT_GRAY : colour := (248, 249, 250).
Definition PANEL_BG : colour := (255, 255, 255).
Definition CARD_SHADOW : colour := (230, 232, 236).
Definition ACCENT_BLUE : colour := (59, 130, 246).
Definition TEXT_DARK : colour := (31, 41, 55).
Definition TEXT_GRAY : colour := (107, 114, 128).
Definition TEXT_LIGHT : colour := (156, 163, 175).
Definition SUCCESS_GREEN : colour := (34, 197, 94).
Definition WARNING_ORANGE : colour := (251, 146, 60).
Definition PROGRESS_BG : colour := (241, 245, 249).
Definition BORDER_COLOR : colour := (229, 231, 235).

Inductive font : Type :=
| font_title
| font_medium
| font_small
| font_tiny
| font_large_num.

(** [pygame.Rect(x, y, width, height)]. *)
Record rect : Type := Rect {
  rect_x : Z;
  rect_y : Z;
  rect_w : Z;
  rect_h : Z
}.

(** A text to render: a string, or the status line. *)
Inductive label : Type :=
| Str (s : string)
| Status (t : text).

(** The calls that change the screen, with the arguments they are given:
    [screen.fill], [pygame.draw.rect] (line width 0 fills the
    rectangle), [pygame.draw.circle], [font.render] followed by
    [screen.blit], and [pygame.display.flip]. *)
Inductive draw : Type :=
| Fill (c : colour)
| DrawRect (c : colour) (r : rect) (line_width : Z) (border_radius : Z)
| DrawCircle (c : colour) (center : Z * Z) (radius : Z)
| Blit (f : font) (l : label) (c : colour) (pos : Z * Z)
| Flip.

(** The literals [0.33] and [0.66]. *)
Definition progress_low : Z := 5944751508129055 * 2 ^ 1020.
Definition progress_mid : Z := 5944751508129055 * 2 ^ 1021.

Definition draw_gradient_background : list draw := [Fill LIGHT_GRAY].

Definition draw_rounded_rect (c : colour) (r : rect) (radius : Z) : list draw :=
  [DrawRect c r 0 radius].

Definition draw_shadow (r : rect) (offset : Z) : list draw :=
  let shadow_rect :=
    Rect (rect_x r + offset) (rect_y r + offset) (rect_w r) (rect_h r) in
  draw_rounded_rect CARD_SHADOW shadow_rect 12.

Fixpoint collect {A B} (l : list A) (body : A → M (list B)) : M (list B) :=
  match l with
  | [] => mret []
  | x :: l' => out ← body x; rest ← collect l' body; mret (out ++ rest)
  end.

Section Dashboard.
(** The width in pixels of a rendered text, [Surface.get_width()]. *)
Variable text_width : font → label → Z.

Definition draw_motor_gauge (x y width height motor_index : Z) : M (list draw) :=
  angle ← angle_at motor_index;
  target ← target_at motor_index;
  name ← lift (getitem motor_names motor_index);
  '(min_val, max_val) ← lift (getitem motor_ranges motor_index);
  let panel_rect := Rect x y width height in
  let motor_num := Str ("M" +:+ pretty (motor_index + 1)) in
  shown ← lift (py_int angle);
  let angle_text := Str (pretty shown) in
  let angle_width := text_width font_large_num angle_text in
  let bar_x := x + 15 in
  let bar_y := y + 55 in
  let bar_width := width - 30 in
  let bar_height := 12 in
  let bar_bg_rect := Rect bar_x bar_y bar_width bar_height in
  let range_span := max_val - min_val in
  progress ← match range_span with
             | Z.pos d =>
                 above ← lift (py_sub angle (PyInt min_val));
                 lift (py_div_pos above d)
             | _ => mret (PyInt 0)
             end;
  filled ← lift (py_mul (PyInt bar_width) progress);
  filled_width ← lift (py_int filled);
  let bar :=
    if 4 <? filled_width then
      let filled_rect := Rect bar_x bar_y filled_width bar_height in
      let color :=
        if py_lt progress (PyFloat (Fin progress_low)) then ACCENT_BLUE
        else if py_lt progress (PyFloat (Fin progress_mid)) then SUCCESS_GREEN
        else WARNING_ORANGE in
      draw_rounded_rect color filled_rect 6
    else [] in
  let range_text := Str (pretty min_val) in
  let range_text_end := Str (pretty max_val) in
  let range_end_width := text_width font_tiny range_text_end in
  shown_target ← lift (py_int target);
  let target_text := Str ("Target: " +:+ pretty shown_target) in
  mret (draw_shadow panel_rect 2 ++
        draw_rounded_rect PANEL_BG panel_rect 12 ++
        [DrawRect BORDER_COLOR panel_rect 1 12;
         Blit font_small motor_num TEXT_LIGHT (x + 15, y + 12);
         Blit font_medium (Str name) TEXT_DARK (x + 45, y + 10);
         Blit font_large_num angle_text ACCENT_BLUE
           (x + width - angle_width - 15, y + 8)] ++
        draw_rounded_rect PROGRESS_BG bar_bg_rect 6 ++
        bar ++
        [Blit font_tiny range_text TEXT_LIGHT (bar_x, bar_y + 18);
         Blit font_tiny range_text_end TEXT_LIGHT
           (bar_x + bar_width - range_end_width, bar_y + 18);
         Blit font_tiny target_text TEXT_GRAY
           (bar_x + bar_width / 2 - 30, bar_y + 18)]).

Definition draw_control_panel : M (list draw) :=
  let panel_x := 30 in
  let panel_y := SCREEN_HEIGHT - 120 in
  let panel_width := SCREEN_WIDTH - 60 in
  let panel_height := 90 in
  let panel_rect := Rect panel_x panel_y panel_width panel_height in
  status ← gets action_text;
  let hint_text_main := Str "Q/A: M1 | W/S: M2 | E/D: M3 | R/F: M4" in
  let hint_text_aux := Str "T/G: M5 | Y/H: M6 | ESC: Exit" in
  mret (draw_shadow panel_rect 2 ++
        draw_rounded_rect PANEL_BG panel_rect 12 ++
        [DrawRect BORDER_COLOR panel_rect 1 12;
         DrawCircle SUCCESS_GREEN (panel_x + 20, panel_y + 25) 5;
         Blit font_small (Str "Status") TEXT_GRAY (panel_x + 35, panel_y + 18);
         Blit font_medium (Status status) TEXT_DARK (panel_x + 20, panel_y + 40);
         Blit font_tiny hint_text_main TEXT_LIGHT (panel_x + 20, panel_y + 68);
         Blit font_tiny hint_text_aux TEXT_LIGHT
           (panel_x + panel_width - text_width font_tiny hint_text_aux - 20,
            panel_y + 68)]).

(** The card of gauge [i]: two columns, filled row by row. *)
Definition gauge_card (i : Z) : rect :=
  let gauge_width := 410 in
  let gauge_height := 110 in
  let spacing := 25 in
  let start_x := 30 in
  let start_y := 85 in
  let row := i / 2 in
  let col := i mod 2 in
  Rect (start_x + col * (gauge_width + spacing))
       (start_y + row * (gauge_height + spacing)) gauge_width gauge_height.

(** The drawing part of one iteration of the loop. *)
Definition draw_frame : M (list draw) :=
  ts ← gets motor_targets;
  gauges ← collect (seqZ 0 (Z.of_nat (length ts)))
              (λ i, let card := gauge_card i in
                    draw_motor_gauge (rect_x card) (rect_y card)
                      (rect_w card) (rect_h card) i);
  panel ← draw_control_panel;
  mret (draw_gradient_background ++
        [Blit font_title (Str "Manipulator Robot") TEXT_DARK (30, 25);
         Blit font_tiny (Str "Real-time Motor Dashboard (6-DOF)") TEXT_GRAY
           (30, 50)] ++
        gauges ++ panel ++ [Flip]).
End Dashboard.

(** The rectangle [inner] lies inside [outer]. *)
Definition within (outer inner : rect) : Prop :=
  rect_x outer <= rect_x inner ∧
  rect_x inner + rect_w inner <= rect_x outer + rect_w outer ∧
  rect_y outer <= rect_y inner ∧
  rect_y inner + rect_h inner <= rect_y outer + rect_h outer.


(** The rectangles a list of calls draws. *)
Definition rects (shapes : list draw) : list rect :=
  omap (λ s, match s with DrawRect _ r _ _ => Some r | _ => None end) shapes.


Definition screen_rect : rect := Rect 0 0 SCREEN_WIDTH SCREEN_HEIGHT.

(** Division against the Standard Library's IEEE 754 model. *)
Definition division_agrees_with_spec : bool :=
  forallb (λ '(a, b),
     match fl 0 b with
     | Fin b' =>
         same_float (of_spec (SpecFloat.SFdiv 53 1024 (to_spec a) (to_spec b)))
                    (fdiv_pos (fl 0 a) b')
     | _ => false
     end)
    (list_prod [0; 1; - 7; half; - 3 * tenth; 515 * one;
                4506238455277158 * 2 ^ 1031; (2 ^ 53 - 1) * 2 ^ 2045]
               [1; 7; tenth; one; 820 * one; 2 ^ 53 + 2;
                (2 ^ 53 - 1) * 2 ^ 2045]).

(** The progress of a gauge and the width of its bar, as
    [draw_motor_gauge] computes them. *)
Definition progress_of (min_val max_val : Z) (angle : pynum) : result pynum :=
  match max_val - min_val with
  | Z.pos d => above ← py_sub angle (PyInt min_val); py_div_pos above d
  | _ => Ret (PyInt 0)
  end.

Definition filled_width_of (bar_width : Z) (progress : pynum) : result Z :=
  filled ← py_mul (PyInt bar_width) progress; py_int filled.

(** A progress between 0 and 1: the int [0], or a double in that
    interval. *)
Definition unit_progress (p : pynum) : Prop :=
  p = PyInt 0 ∨ ∃ pr, p = PyFloat (Fin pr) ∧ 0 <= pr <= one.

(** * Rounding to nearest *)

Lemma rne_div n s :
  0 <= s ->
  rne n s = match 2 * (n mod 2 ^ s) ?= 2 ^ s with
            | Lt => n / 2 ^ s
            | Gt => n / 2 ^ s + 1
            | Eq => if Z.even (n / 2 ^ s) then n / 2 ^ s else n / 2 ^ s + 1
            end.
Proof.
  intros Hs. unfold rne.
  by rewrite Z.shiftr_div_pow2, Z.land_ones, Z.shiftl_mul_pow2, Z.mul_1_l by lia.
Qed.

Lemma rne_cases n s :
  0 <= s -> (rne n s = n / 2 ^ s \/ rne n s = n / 2 ^ s + 1) /\
            (n mod 2 ^ s = 0 -> rne n s = n / 2 ^ s).
Proof.
  intros Hs. rewrite rne_div by done.
  assert (0 < 2 ^ s) by (apply Z.pow_pos_nonneg; lia).
  destruct (Z.compare_spec (2 * (n mod 2 ^ s)) (2 ^ s)) as [E|E|E];
    try destruct (Z.even _); split; auto; intros; lia.
Qed.

Lemma rne_le_grid n s m : 0 <= s -> n <= m * 2 ^ s -> rne n s <= m.
Proof.
  intros Hs Hn.
  assert (HP : 0 < 2 ^ s) by (apply Z.pow_pos_nonneg; lia).
  destruct (rne_cases n s Hs) as [Hc Hz].
  pose proof (Z.div_mod n (2 ^ s) ltac:(lia)) as Hdm.
  pose proof (Z.mod_pos_bound n (2 ^ s) HP) as Hb.
  destruct (Z.eq_dec (n mod 2 ^ s) 0) as [E|E].
  - rewrite (Hz E). nia.
  - assert (n / 2 ^ s < m) by nia. lia.
Qed.

Lemma rne_ge_grid n s m : 0 <= s -> m * 2 ^ s <= n -> m <= rne n s.
Proof.
  intros Hs Hn.
  assert (HP : 0 < 2 ^ s) by (apply Z.pow_pos_nonneg; lia).
  destruct (rne_cases n s Hs) as [Hc _].
  pose proof (Z.div_mod n (2 ^ s) ltac:(lia)) as Hdm.
  pose proof (Z.mod_pos_bound n (2 ^ s) HP) as Hb.
  assert (m <= n / 2 ^ s) by nia. lia.
Qed.

Lemma rne_exact m s : 0 <= s -> rne (m * 2 ^ s) s = m.
Proof.
  intros Hs. apply Z.le_antisymm.
  - apply rne_le_grid; lia.
  - apply rne_ge_grid; lia.
Qed.

Lemma rne_mono n1 n2 s : 0 <= s -> n1 <= n2 -> rne n1 s <= rne n2 s.
Proof.
  intros Hs Hn.
  assert (HP : 0 < 2 ^ s) by (apply Z.pow_pos_nonneg; lia).
  pose proof (Z.div_le_mono n1 n2 (2 ^ s) HP Hn) as Hq.
  destruct (Z.eq_dec (n1 / 2 ^ s) (n2 / 2 ^ s)) as [E|E].
  - pose proof (Z.div_mod n1 (2 ^ s) ltac:(lia)) as H1.
    pose proof (Z.div_mod n2 (2 ^ s) ltac:(lia)) as H2.
    assert (n1 mod 2 ^ s <= n2 mod 2 ^ s) by nia.
    rewrite !rne_div by done. rewrite E.
    destruct (Z.compare_spec (2 * (n1 mod 2 ^ s)) (2 ^ s));
      destruct (Z.compare_spec (2 * (n2 mod 2 ^ s)) (2 ^ s));
      destruct (Z.even (n2 / 2 ^ s)); lia.
  - destruct (rne_cases n1 s Hs) as [Hc1 _].
    destruct (rne_cases n2 s Hs) as [Hc2 _]. lia.
Qed.

Lemma pow2_pos a : 0 <= a -> 0 < 2 ^ a.
Proof. intros. apply Z.pow_pos_nonneg; lia. Qed.

Lemma pow2_split a b : 0 <= b <= a -> 2 ^ a = 2 ^ (a - b) * 2 ^ b.
Proof. intros. rewrite <- Z.pow_add_r by lia. f_equal. lia. Qed.

Lemma grid_ge j n : j <= grid j n.
Proof. unfold grid. lia. Qed.

Lemma grid_mono j n1 n2 : Z.abs n1 <= Z.abs n2 -> grid j n1 <= grid j n2.
Proof.
  intros H. unfold grid. pose proof (Z.log2_le_mono _ _ H). lia.
Qed.

(** A value whose grid is coarser than that of another one lies beyond a
    power of two that separates them. *)
Lemma grid_lt_sep j n1 n2 :
  0 <= j -> grid j n1 < grid j n2 ->
  let L := Z.log2 (Z.abs n2) in
  grid j n2 = L - 52 /\ grid j n1 <= L - 52 /\ Z.abs n1 < 2 ^ L <= Z.abs n2.
Proof.
  intros Hj Hg L. unfold grid in *. fold L in Hg |- *.
  assert (HL : 52 < L) by lia.
  assert (Hn2 : 0 < Z.abs n2).
  { destruct (Z.eq_dec (Z.abs n2) 0) as [E|E]; [|lia].
    subst L. rewrite E in HL. simpl in HL. lia. }
  pose proof (Z.log2_spec _ Hn2) as [Hlo _]. fold L in Hlo.
  repeat split; try lia.
  destruct (Z.eq_dec (Z.abs n1) 0) as [E|E].
  - rewrite E. apply pow2_pos. lia.
  - pose proof (Z.log2_spec (Z.abs n1) ltac:(lia)) as [_ Hhi].
    assert (Z.log2 (Z.abs n1) + 1 <= L) by lia.
    pose proof (Z.pow_le_mono_r 2 _ _ ltac:(lia) H). lia.
Qed.

Lemma round_at_mul j n :
  round_at j n = rne n (grid j n) * 2 ^ (grid j n - j).
Proof.
  unfold round_at. pose proof (grid_ge j n). by rewrite Z.shiftl_mul_pow2 by lia.
Qed.

Lemma round_at_scaled j n :
  0 <= j -> round_at j n * 2 ^ j = rne n (grid j n) * 2 ^ grid j n.
Proof.
  intros Hj. rewrite round_at_mul. pose proof (grid_ge j n).
  rewrite (pow2_split (grid j n) j) by lia. ring.
Qed.

Lemma round_at_mono j n1 n2 :
  0 <= j -> n1 <= n2 -> round_at j n1 <= round_at j n2.
Proof.
  intros Hj Hn.
  apply (Z.mul_le_mono_pos_r _ _ (2 ^ j) (pow2_pos j Hj)).
  rewrite !round_at_scaled by done.
  pose proof (grid_ge j n1) as G1. pose proof (grid_ge j n2) as G2.
  destruct (Z.lt_trichotomy (grid j n1) (grid j n2)) as [Hg|[Hg|Hg]].
  - (* n2 lies in a higher binade: it is positive *)
    destruct (grid_lt_sep j n1 n2 Hj Hg) as (E2 & E1 & Hsep).
    set (L := Z.log2 (Z.abs n2)) in *.
    assert (Hpos : 0 <= n2) by lia.
    assert (H1 : rne n1 (grid j n1) <= 2 ^ (L - grid j n1)).
    { apply rne_le_grid; [lia|]. rewrite <- pow2_split by lia. lia. }
    assert (H2 : 2 ^ 52 <= rne n2 (grid j n2)).
    { apply rne_ge_grid; [lia|]. rewrite E2, <- Z.pow_add_r by lia.
      replace (52 + (L - 52)) with L by lia. lia. }
    pose proof (pow2_pos (grid j n1) ltac:(lia)).
    pose proof (pow2_pos (grid j n2) ltac:(lia)).
    transitivity (2 ^ L).
    + rewrite (pow2_split L (grid j n1)) by lia. nia.
    + rewrite (pow2_split L (grid j n2)) by lia.
      replace (L - grid j n2) with 52 by lia. nia.
  - rewrite Hg. apply Z.mul_le_mono_nonneg_r; [pose proof (pow2_pos (grid j n2)); lia|].
    apply rne_mono; lia.
  - (* n1 lies in a higher binade: it is negative *)
    destruct (grid_lt_sep j n2 n1 Hj Hg) as (E1 & E2 & Hsep).
    set (L := Z.log2 (Z.abs n1)) in *.
    assert (Hneg : n1 <= 0) by lia.
    assert (H1 : rne n1 (grid j n1) <= - 2 ^ 52).
    { apply rne_le_grid; [lia|]. rewrite E1.
      replace (- 2 ^ 52 * 2 ^ (L - 52)) with (- (2 ^ 52 * 2 ^ (L - 52))) by ring.
      rewrite <- Z.pow_add_r by lia.
      replace (52 + (L - 52)) with L by lia. lia. }
    assert (H2 : - 2 ^ (L - grid j n2) <= rne n2 (grid j n2)).
    { apply rne_ge_grid; [lia|].
      replace (- 2 ^ (L - grid j n2) * 2 ^ grid j n2)
        with (- (2 ^ (L - grid j n2) * 2 ^ grid j n2)) by ring.
      rewrite <- pow2_split by lia. lia. }
    pose proof (pow2_pos (grid j n1) ltac:(lia)).
    pose proof (pow2_pos (grid j n2) ltac:(lia)).
    transitivity (- 2 ^ L).
    + rewrite (pow2_split L (grid j n1)) by lia.
      replace (L - grid j n1) with 52 by lia. nia.
    + rewrite (pow2_split L (grid j n2)) by lia. nia.
Qed.

(** A number with at most 53 significant bits on a grid of the format is
    left as it is. *)
Lemma round_at_form j q e :
  0 <= j -> 0 <= e -> Z.abs q < 2 ^ 53 ->
  round_at j (q * 2 ^ e * 2 ^ j) = q * 2 ^ e.
Proof.
  intros Hj He Hq.
  destruct (Z.eq_dec q 0) as [->|Hq0].
  { replace (0 * 2 ^ e * 2 ^ j) with 0 by ring.
    pose proof (pow2_pos j Hj).
    rewrite round_at_mul. unfold grid. change (Z.log2 (Z.abs 0)) with 0.
    rewrite Z.max_l by lia. rewrite rne_div by lia.
    rewrite Z.div_0_l, Z.mod_0_l by lia.
    destruct (Z.compare_spec (2 * 0) (2 ^ j)); simpl; lia. }
  set (n := q * 2 ^ e * 2 ^ j).
  assert (Hn : n = q * 2 ^ (e + j)).
  { unfold n. rewrite Z.pow_add_r by lia. ring. }
  assert (Hg : j <= grid j n <= e + j).
  { split; [apply grid_ge|]. unfold grid.
    assert (Z.log2 (Z.abs n) = e + j + Z.log2 (Z.abs q)) as ->.
    { rewrite Hn, Z.abs_mul, (Z.abs_eq (2 ^ _))
        by (pose proof (pow2_pos (e + j)); lia).
      apply Z.log2_mul_pow2; lia. }
    assert (Z.log2 (Z.abs q) < 53) by (apply Z.log2_lt_pow2; lia).
    lia. }
  rewrite round_at_mul.
  replace n with (q * 2 ^ (e + j - grid j n) * 2 ^ grid j n) at 1.
  - rewrite rne_exact by lia. rewrite <- Z.mul_assoc, <- Z.pow_add_r by lia.
    do 2 f_equal. lia.
  - rewrite Hn at 3. rewrite <- Z.mul_assoc, <- Z.pow_add_r by lia.
    do 2 f_equal. lia.
Qed.

Lemma round_at_pow2 j a : 0 <= j -> 0 <= a -> round_at j (2 ^ (a + j)) = 2 ^ a.
Proof.
  intros Hj Ha. rewrite Z.pow_add_r by lia.
  replace (2 ^ a * 2 ^ j) with (1 * 2 ^ a * 2 ^ j) by ring.
  rewrite round_at_form; [ring|lia|lia|]. change (Z.abs 1) with 1.
  pose proof (pow2_pos 53). lia.
Qed.

Lemma round_at_neg_pow2 j a :
  0 <= j -> 0 <= a -> round_at j (- 2 ^ (a + j)) = - 2 ^ a.
Proof.
  intros Hj Ha. rewrite Z.pow_add_r by lia.
  replace (- (2 ^ a * 2 ^ j)) with (-1 * 2 ^ a * 2 ^ j) by ring.
  rewrite round_at_form; [ring|lia|lia|]. change (Z.abs (-1)) with 1.
  pose proof (pow2_pos 53). lia.
Qed.

Lemma round_at_0 j : 0 <= j -> round_at j 0 = 0.
Proof.
  intros Hj. pose proof (round_at_form j 0 0 Hj ltac:(lia)) as H.
  simpl in H. apply H. pose proof (pow2_pos 53). lia.
Qed.

(** The quotient kept by the rounding has at most 53 bits, or is [2^53]. *)
Lemma rne_grid_bound j n : 0 <= j -> Z.abs (rne n (grid j n)) <= 2 ^ 53.
Proof.
  intros Hj. pose proof (grid_ge j n) as Hg.
  assert (Hn : Z.abs n < 2 ^ (grid j n + 53)).
  { destruct (Z.eq_dec (Z.abs n) 0) as [E|E].
    - rewrite E. apply pow2_pos. lia.
    - pose proof (Z.log2_spec (Z.abs n) ltac:(lia)) as [_ Hhi].
      eapply Z.lt_le_trans; [exact Hhi|].
      apply Z.pow_le_mono_r; [lia|]. unfold grid. lia. }
  rewrite Z.pow_add_r in Hn by lia.
  apply Z.abs_le. split.
  - apply rne_ge_grid; lia.
  - apply rne_le_grid; lia.
Qed.

(** The result of a rounding is a double: rounding it again changes nothing. *)
Lemma round_at_idem j n : 0 <= j -> round_at 0 (round_at j n) = round_at j n.
Proof.
  intros Hj. pose proof (rne_grid_bound j n Hj) as Hb.
  pose proof (grid_ge j n) as Hg.
  rewrite (round_at_mul j n). set (q := rne n (grid j n)) in *.
  set (e := grid j n - j).
  destruct (Z.eq_dec (Z.abs q) (2 ^ 53)) as [E|E].
  - assert (q = 2 ^ 53 \/ q = - 2 ^ 53) as [-> | ->] by lia.
    + rewrite <- Z.pow_add_r by lia.
      pose proof (round_at_pow2 0 (53 + e) ltac:(lia) ltac:(lia)) as H.
      rewrite Z.add_0_r in H. exact H.
    + replace (- 2 ^ 53 * 2 ^ e) with (- 2 ^ (53 + e))
        by (rewrite Z.pow_add_r by lia; ring).
      pose proof (round_at_neg_pow2 0 (53 + e) ltac:(lia) ltac:(lia)) as H.
      rewrite Z.add_0_r in H. exact H.
  - pose proof (round_at_form 0 q e ltac:(lia) ltac:(lia) ltac:(lia)) as H.
    rewrite Z.mul_1_r in H. exact H.
Qed.

(** Rounding moves a value by less than one step of any grid that is at
    least as coarse as its own. *)
Lemma round_at_gt x c s :
  0 <= s -> Z.abs x < 2 ^ (s + 53) -> c + 2 ^ s <= x -> c < round_at 0 x.
Proof.
  intros Hs Hx Hc.
  assert (Hg : 0 <= grid 0 x <= s).
  { split; [apply grid_ge|]. unfold grid.
    destruct (Z.eq_dec (Z.abs x) 0) as [E|E]; [rewrite E; simpl; lia|].
    assert (Z.log2 (Z.abs x) < s + 53) by (apply Z.log2_lt_pow2; lia). lia. }
  rewrite round_at_mul, Z.sub_0_r.
  set (g := grid 0 x) in *.
  pose proof (pow2_pos g ltac:(lia)) as HP.
  pose proof (Z.pow_le_mono_r 2 g s ltac:(lia) ltac:(lia)) as Hgs.
  destruct (rne_cases x g ltac:(lia)) as [Hc' _].
  pose proof (Z.div_mod x (2 ^ g) ltac:(lia)).
  pose proof (Z.mod_pos_bound x (2 ^ g) HP). nia.
Qed.

Lemma round_at_lt x c s :
  0 <= s -> Z.abs x < 2 ^ (s + 53) -> x <= c - 2 ^ s -> round_at 0 x < c.
Proof.
  intros Hs Hx Hc.
  assert (Hg : 0 <= grid 0 x <= s).
  { split; [apply grid_ge|]. unfold grid.
    destruct (Z.eq_dec (Z.abs x) 0) as [E|E]; [rewrite E; simpl; lia|].
    assert (Z.log2 (Z.abs x) < s + 53) by (apply Z.log2_lt_pow2; lia). lia. }
  rewrite round_at_mul, Z.sub_0_r.
  set (g := grid 0 x) in *.
  pose proof (pow2_pos g ltac:(lia)) as HP.
  pose proof (pow2_pos s ltac:(lia)) as HPs.
  pose proof (Z.pow_le_mono_r 2 g s ltac:(lia) ltac:(lia)) as Hgs.
  destruct (rne_cases x g ltac:(lia)) as [Hc' Hz].
  pose proof (Z.div_mod x (2 ^ g) ltac:(lia)).
  pose proof (Z.mod_pos_bound x (2 ^ g) HP).
  destruct (Z.eq_dec (x mod 2 ^ g) 0) as [E|E].
  - rewrite (Hz E). nia.
  - nia.
Qed.

(** * Python numbers inside a joint range *)

(** The magnitudes that matter, as powers of two. *)
Lemma one_pow : one = 2 ^ 1074.
Proof. reflexivity. Qed.
Lemma half_pow : half = 2 ^ 1073.
Proof. reflexivity. Qed.
Lemma huge_pow : huge = 2 ^ 2098.
Proof. reflexivity. Qed.
Lemma tenth_bounds : 2 ^ 1070 <= tenth <= 2 ^ 1071.
Proof.
  unfold tenth. replace 1070 with (51 + 1019) by lia.
  replace 1071 with (52 + 1019) by lia. rewrite !Z.pow_add_r by lia.
  pose proof (pow2_pos 1019 ltac:(lia)).
  split; apply Z.mul_le_mono_nonneg_r; try lia; vm_compute; discriminate.
Qed.

Global Opaque one half tenth huge.

Lemma pow2_le a b : 0 <= a <= b -> 2 ^ a <= 2 ^ b.
Proof. intros. apply Z.pow_le_mono_r; lia. Qed.
Lemma pow2_lt a b : 0 <= a < b -> 2 ^ a < 2 ^ b.
Proof. intros. apply Z.pow_lt_mono_r; lia. Qed.

(** Bounds on a rounding, from the powers of two around its argument. *)
Lemma round_at_le_pow2 j n a :
  0 <= j -> 0 <= a -> n <= 2 ^ (a + j) -> round_at j n <= 2 ^ a.
Proof.
  intros Hj Ha Hn. rewrite <- (round_at_pow2 j a) by lia.
  by apply round_at_mono.
Qed.
Lemma round_at_ge_pow2 j n a :
  0 <= j -> 0 <= a -> 2 ^ (a + j) <= n -> 2 ^ a <= round_at j n.
Proof.
  intros Hj Ha Hn. rewrite <- (round_at_pow2 j a) by lia.
  by apply round_at_mono.
Qed.
Lemma round_at_ge_neg_pow2 j n a :
  0 <= j -> 0 <= a -> - 2 ^ (a + j) <= n -> - 2 ^ a <= round_at j n.
Proof.
  intros Hj Ha Hn. rewrite <- (round_at_neg_pow2 j a) by lia.
  by apply round_at_mono.
Qed.
Lemma round_at_le_neg_pow2 j n a :
  0 <= j -> 0 <= a -> n <= - 2 ^ (a + j) -> round_at j n <= - 2 ^ a.
Proof.
  intros Hj Ha Hn. rewrite <- (round_at_neg_pow2 j a) by lia.
  by apply round_at_mono.
Qed.

(** Integers of the size of a range are doubles. *)
Lemma round_at_int z : Z.abs z < 2 ^ 53 -> round_at 0 (z * one) = z * one.
Proof.
  intros Hz. rewrite one_pow.
  pose proof (round_at_form 0 z 1074 ltac:(lia) ltac:(lia) Hz) as H.
  rewrite Z.mul_1_r in H. exact H.
Qed.

Lemma fl_fin j n : Z.abs (round_at j n) < huge -> fl j n = Fin (round_at j n).
Proof.
  intros H. unfold fl.
  destruct (Z.leb_spec huge (round_at j n)); [lia|].
  destruct (Z.leb_spec (round_at j n) (- huge)); [lia|]. done.
Qed.

Lemma is_double_round j n :
  0 <= j -> Z.abs (round_at j n) < huge -> is_double (round_at j n) = true.
Proof.
  intros Hj H. unfold is_double. rewrite round_at_idem by done.
  rewrite Z.eqb_refl. simpl. by apply Z.ltb_lt.
Qed.

Lemma one_pos : 0 < one.
Proof. rewrite one_pow. by apply pow2_pos. Qed.

Lemma range_units lo hi v :
  - 2 ^ 40 <= lo -> hi <= 2 ^ 40 -> lo * one <= v <= hi * one ->
  Z.abs v <= 2 ^ 1114.
Proof.
  intros Hlo Hhi Hv. pose proof one_pos.
  replace 1114 with (40 + 1074) by lia. rewrite Z.pow_add_r, <- one_pow by lia.
  nia.
Qed.

Lemma joint_ok_view r x :
  moderate r -> joint_ok r x -> ∃ v, viewed r.1 r.2 x v.
Proof.
  intros [Hlo Hhi] [Hwf Hin]. destruct r as [lo hi]; simpl in *.
  unfold in_range, py_le, py_lt in Hin. pose proof one_pos.
  destruct x as [z|[k|s|]]; simpl in *.
  - apply andb_true_iff in Hin as [H1 H2].
    apply negb_true_iff, Z.ltb_ge in H1. apply negb_true_iff, Z.ltb_ge in H2.
    assert (Z.abs z < 2 ^ 53).
    { pose proof (pow2_lt 40 53 ltac:(lia)). nia. }
    assert (Z.abs (z * one) <= 2 ^ 1114)
      by (apply (range_units lo hi); lia).
    pose proof (pow2_lt 1114 2098 ltac:(lia)). rewrite <- huge_pow in *.
    exists (z * one). constructor; simpl; [done| |lia|by apply round_at_int].
    rewrite fl_fin; rewrite round_at_int by done; [done|lia].
  - apply andb_true_iff in Hin as [H1 H2].
    apply negb_true_iff, Z.ltb_ge in H1. apply negb_true_iff, Z.ltb_ge in H2.
    unfold is_double in Hwf. apply andb_true_iff in Hwf as [Hd _].
    apply Z.eqb_eq in Hd. exists k. by constructor.
  - by destruct s.
  - done.
Qed.

(** * One smoothing step on the doubles *)

Section SmoothingStep.
Variables av tv : Z.
Hypothesis av_double : round_at 0 av = av.
Hypothesis tv_double : round_at 0 tv = tv.
Hypothesis av_size : Z.abs av <= 2 ^ 1114.
Hypothesis tv_size : Z.abs tv <= 2 ^ 1114.

Lemma diff_size : Z.abs (round_at 0 (tv - av)) <= 2 ^ 1115.
Proof.
  pose proof (pow2_split 1115 1114 ltac:(lia)) as E. change (2 ^ (1115 - 1114)) with 2 in E.
  apply Z.abs_le. split.
  - pose proof (round_at_ge_neg_pow2 0 (tv - av) 1115) as H.
    rewrite Z.add_0_r in H. apply H; lia.
  - pose proof (round_at_le_pow2 0 (tv - av) 1115) as H.
    rewrite Z.add_0_r in H. apply H; lia.
Qed.

Lemma diff_small :
  Z.abs (tv - av) <= half -> Z.abs (round_at 0 (tv - av)) <= half.
Proof.
  rewrite half_pow. intros H. apply Z.abs_le. split.
  - pose proof (round_at_ge_neg_pow2 0 (tv - av) 1073) as H'.
    rewrite Z.add_0_r in H'. apply H'; lia.
  - pose proof (round_at_le_pow2 0 (tv - av) 1073) as H'.
    rewrite Z.add_0_r in H'. apply H'; lia.
Qed.

Lemma step_up :
  half < round_at 0 (tv - av) ->
  2 ^ 1069 <= round_at 1074 (round_at 0 (tv - av) * tenth) <= tv - av ∧
  av + 2 ^ 1068
  < round_at 0 (av + round_at 1074 (round_at 0 (tv - av) * tenth)) <= tv.
Proof using av_double tv_double av_size tv_size.
  set (fd := round_at 0 (tv - av)). set (stepv := round_at 1074 (fd * tenth)).
  rewrite half_pow. intros Hfd.
  pose proof tenth_bounds as [Tlo Thi].
  assert (HD : 2 ^ 1073 < tv - av).
  { destruct (Z.le_gt_cases (tv - av) (2 ^ 1073)) as [H|H]; [|done].
    pose proof (round_at_le_pow2 0 (tv - av) 1073) as H'.
    rewrite Z.add_0_r in H'. subst fd. specialize (H' ltac:(lia) ltac:(lia) H). lia. }
  set (L := Z.log2 (tv - av)).
  pose proof (Z.log2_spec (tv - av) ltac:(pose proof (pow2_pos 1073); lia)) as [Llo Lhi].
  fold L in Llo, Lhi.
  assert (HL : 1073 <= L).
  { apply Z.log2_le_pow2; [pose proof (pow2_pos 1073); lia|lia]. }
  assert (Hfd' : fd <= 2 ^ (L + 1)).
  { pose proof (round_at_le_pow2 0 (tv - av) (L + 1)) as H'.
    rewrite Z.add_0_r in H'. apply H'; lia. }
  assert (Hs : 2 ^ 1069 <= stepv <= tv - av).
  { split.
    - apply round_at_ge_pow2; [lia|lia|].
      replace (1069 + 1074) with (1073 + 1070) by lia. rewrite Z.pow_add_r by lia.
      apply Z.mul_le_mono_nonneg;
        [by apply Z.lt_le_incl, pow2_pos|by apply Z.lt_le_incl
        |by apply Z.lt_le_incl, pow2_pos|done].
    - transitivity (2 ^ (L - 2)).
      + apply round_at_le_pow2; [lia|lia|].
        replace (L - 2 + 1074) with (L + 1 + 1071) by lia. rewrite Z.pow_add_r by lia.
        pose proof (pow2_pos 1073 ltac:(lia)) as P73.
        pose proof (pow2_pos 1070 ltac:(lia)) as P70.
        apply Z.mul_le_mono_nonneg; [clear - Hfd P73; lia|done
                                    |clear - Tlo P70; lia|done].
      + rewrite (pow2_split L (L - 2)) in Llo by lia.
        replace (L - (L - 2)) with 2 in Llo by lia.
        pose proof (pow2_pos (L - 2)). lia. }
  split; [done|]. split.
  - pose proof (pow2_split 1069 1068 ltac:(lia)) as E1.
    replace (1069 - 1068) with 1 in E1 by lia.
    pose proof (pow2_lt 1062 1068 ltac:(lia)).
    apply Z.le_lt_trans with (av + 2 ^ 1069 - 2 ^ 1062); [lia|].
    apply (round_at_gt _ _ 1062); [lia| |lia].
    pose proof (pow2_lt 1114 (1062 + 53) ltac:(lia)). lia.
  - transitivity (round_at 0 tv); [apply round_at_mono; lia|].
    rewrite tv_double. lia.
Qed.

Lemma step_down :
  round_at 0 (tv - av) < - half ->
  tv - av <= round_at 1074 (round_at 0 (tv - av) * tenth) <= - 2 ^ 1069 ∧
  tv <= round_at 0 (av + round_at 1074 (round_at 0 (tv - av) * tenth))
     < av - 2 ^ 1068.
Proof using av_double tv_double av_size tv_size.
  set (fd := round_at 0 (tv - av)). set (stepv := round_at 1074 (fd * tenth)).
  rewrite half_pow. intros Hfd.
  pose proof tenth_bounds as [Tlo Thi].
  assert (HD : tv - av < - 2 ^ 1073).
  { destruct (Z.le_gt_cases (- 2 ^ 1073) (tv - av)) as [H|H]; [|lia].
    pose proof (round_at_ge_neg_pow2 0 (tv - av) 1073) as H'.
    rewrite Z.add_0_r in H'. subst fd. specialize (H' ltac:(lia) ltac:(lia) H). lia. }
  set (L := Z.log2 (av - tv)).
  pose proof (Z.log2_spec (av - tv) ltac:(pose proof (pow2_pos 1073); lia)) as [Llo Lhi].
  fold L in Llo, Lhi.
  assert (HL : 1073 <= L).
  { apply Z.log2_le_pow2; [pose proof (pow2_pos 1073); lia|lia]. }
  assert (Hfd' : - 2 ^ (L + 1) <= fd).
  { pose proof (round_at_ge_neg_pow2 0 (tv - av) (L + 1)) as H'.
    rewrite Z.add_0_r in H'. apply H'; lia. }
  assert (Hs : tv - av <= stepv <= - 2 ^ 1069).
  { split.
    - transitivity (- 2 ^ (L - 2)).
      + rewrite (pow2_split L (L - 2)) in Llo by lia.
        replace (L - (L - 2)) with 2 in Llo by lia.
        pose proof (pow2_pos (L - 2)). lia.
      + apply round_at_ge_neg_pow2; [lia|lia|].
        replace (L - 2 + 1074) with (L + 1 + 1071) by lia. rewrite Z.pow_add_r by lia.
        pose proof (pow2_pos 1073 ltac:(lia)) as P73.
        pose proof (pow2_pos 1070 ltac:(lia)) as P70.
        assert (Hm : - fd * tenth <= 2 ^ (L + 1) * 2 ^ 1071).
        { apply Z.mul_le_mono_nonneg; [clear - Hfd P73; lia|clear - Hfd'; lia
                                      |clear - Tlo P70; lia|done]. }
        rewrite Z.mul_opp_l in Hm. clear - Hm. lia.
    - apply round_at_le_neg_pow2; [lia|lia|].
      replace (1069 + 1074) with (1073 + 1070) by lia. rewrite Z.pow_add_r by lia.
      assert (Hm : 2 ^ 1073 * 2 ^ 1070 <= - fd * tenth).
      { apply Z.mul_le_mono_nonneg;
          [by apply Z.lt_le_incl, pow2_pos|clear - Hfd; lia
          |by apply Z.lt_le_incl, pow2_pos|done]. }
      rewrite Z.mul_opp_l in Hm. clear - Hm. lia. }
  split; [done|]. split.
  - transitivity (round_at 0 tv); [rewrite tv_double; lia|].
    apply round_at_mono; lia.
  - pose proof (pow2_split 1069 1068 ltac:(lia)) as E1.
    replace (1069 - 1068) with 1 in E1 by lia.
    pose proof (pow2_lt 1062 1068 ltac:(lia)).
    apply Z.lt_le_trans with (av - 2 ^ 1069 + 2 ^ 1062); [|lia].
    apply (round_at_lt _ _ 1062); [lia| |lia].
    pose proof (pow2_lt 1114 (1062 + 53) ltac:(lia)). lia.
Qed.
End SmoothingStep.

(** * The smoothing rule on Python numbers *)

Lemma py_mul_float x f :
  py_mul x (PyFloat f) = (a ← to_float x; Ret (PyFloat (fmul a f))).
Proof. by destruct x. Qed.

Lemma py_add_float x f :
  py_add x (PyFloat f) = (a ← to_float x; Ret (PyFloat (fadd a f))).
Proof. by destruct x. Qed.

Lemma py_sub_float_r x f :
  py_sub x (PyFloat f) = (a ← to_float x; Ret (PyFloat (fsub a f))).
Proof. by destruct x. Qed.

Lemma py_sub_float_l f y :
  py_sub (PyFloat f) y = (b ← to_float y; Ret (PyFloat (fsub f b))).
Proof. by destruct y. Qed.

Lemma huge_gt a : 0 <= a < 2098 -> 2 ^ a < huge.
Proof. intros. rewrite huge_pow. by apply pow2_lt. Qed.

Lemma joint_ok_float r k :
  round_at 0 k = k -> Z.abs k < huge -> r.1 * one <= k <= r.2 * one ->
  joint_ok r (PyFloat (Fin k)).
Proof.
  intros Hd Hh Hr. split; simpl.
  - unfold is_double. rewrite Hd, Z.eqb_refl. simpl. by apply Z.ltb_lt.
  - unfold in_range, py_le, py_lt. simpl.
    apply andb_true_iff. split; apply negb_true_iff, Z.ltb_ge; lia.
Qed.

Lemma value_viewed lo hi x v : viewed lo hi x v -> value x = v.
Proof. intros [H _ _ _]. unfold value. by rewrite H. Qed.

Lemma py_sub_viewed lo hi t a tv av :
  - 2 ^ 40 <= lo -> hi <= 2 ^ 40 ->
  viewed lo hi t tv -> viewed lo hi a av ->
  ∃ diff, py_sub t a = Ret diff ∧
          to_float diff = Ret (Fin (round_at 0 (tv - av))) ∧
          py_gt (py_abs diff) (PyFloat (Fin half))
            = (half <? Z.abs (round_at 0 (tv - av))).
Proof.
  intros Hlo Hhi [Et Ft Rt Dt] [Ea Fa Ra Da].
  pose proof (range_units lo hi tv Hlo Hhi Rt) as St.
  pose proof (range_units lo hi av Hlo Hhi Ra) as Sa.
  pose proof (diff_size av tv Sa St) as Sd.
  pose proof (huge_gt 1115 ltac:(lia)) as Hh.
  pose proof one_pos as Hone.
  destruct t as [tz|ft], a as [az|fa].
  - simpl in Et, Ea. injection Et as <-. injection Ea as <-.
    exists (PyInt (tz - az)). split; [done|].
    replace (tz * one - az * one) with ((tz - az) * one) in * by ring.
    simpl. rewrite fl_fin by lia. split; [done|].
    unfold py_gt, py_lt. simpl. f_equal.
    rewrite round_at_int.
    + rewrite Z.abs_mul, (Z.abs_eq one); lia.
    + assert (Z.abs ((tz - az) * one) <= 2 ^ 1115).
      { replace ((tz - az) * one) with (tz * one - az * one) by ring.
        pose proof (pow2_split 1115 1114 ltac:(lia)) as E.
        change (2 ^ (1115 - 1114)) with 2 in E. lia. }
      rewrite Z.abs_mul, (Z.abs_eq one), one_pow in H by lia.
      pose proof (pow2_split 1115 1074 ltac:(lia)) as E.
      replace (1115 - 1074) with 41 in E by lia.
      pose proof (pow2_pos 1074 ltac:(lia)).
      pose proof (pow2_lt 41 53 ltac:(lia)). nia.
  - simpl in Ea. subst fa. rewrite py_sub_float_r, Ft. simpl.
    replace (tv + - av) with (tv - av) by ring.
    rewrite fl_fin by lia. eexists; done.
  - simpl in Et. subst ft. rewrite py_sub_float_l, Fa. simpl.
    replace (tv + - av) with (tv - av) by ring.
    rewrite fl_fin by lia. eexists; done.
  - simpl in Et, Ea. subst. rewrite py_sub_float_r. simpl.
    replace (tv + - av) with (tv - av) by ring.
    rewrite fl_fin by lia. eexists; done.
Qed.

Lemma rule_in_range r t a :
  moderate r -> joint_ok r t -> joint_ok r a ->
  ∃ c, tick_smoothing_rule t a = Ret c ∧ joint_ok r c ∧
       Z.min (value a) (value t) <= value c <= Z.max (value a) (value t) ∧
       (value a ≠ value t ->
        Z.abs (value t - value c) < Z.abs (value t - value a)) ∧
       (Z.abs (value t - value a) <= half -> c = t) ∧
       (c = t ∨
        Z.abs (value t - value c) + 2 ^ 1068 <= Z.abs (value t - value a)).
Proof.
  intros Hm Ht Ha.
  destruct (joint_ok_view r t Hm Ht) as [tv Vt].
  destruct (joint_ok_view r a Hm Ha) as [av Va].
  destruct Hm as [Hlo Hhi].
  rewrite (value_viewed _ _ _ _ Vt), (value_viewed _ _ _ _ Va).
  destruct (py_sub_viewed _ _ _ _ _ _ Hlo Hhi Vt Va) as (diff & Es & Ef & Eg).
  pose proof (range_units _ _ tv Hlo Hhi (viewed_range _ _ _ _ Vt)) as St.
  pose proof (range_units _ _ av Hlo Hhi (viewed_range _ _ _ _ Va)) as Sa.
  pose proof (viewed_double _ _ _ _ Vt) as Dt.
  pose proof (viewed_double _ _ _ _ Va) as Da.
  pose proof (viewed_range _ _ _ _ Vt) as Rt.
  pose proof (viewed_range _ _ _ _ Va) as Ra.
  pose proof (diff_size av tv Sa St) as Sd.
  pose proof (huge_gt 1115 ltac:(lia)) as Hh.
  pose proof (pow2_lt 1114 1115 ltac:(lia)) as H45.
  unfold tick_smoothing_rule. rewrite Es. simpl. rewrite Eg.
  destruct (Z.ltb_spec half (Z.abs (round_at 0 (tv - av)))) as [Hbig|Hsmall].
  - rewrite py_mul_float, Ef. simpl.
    assert (Hstep : ∃ cv, Z.abs (round_at 1074 (round_at 0 (tv - av) * tenth)) < huge ∧
              cv = round_at 0 (av + round_at 1074 (round_at 0 (tv - av) * tenth)) ∧
              Z.min av tv <= cv <= Z.max av tv ∧
              Z.abs (tv - cv) + 2 ^ 1068 <= Z.abs (tv - av)).
    { eexists. split; [|split; [reflexivity|]].
      - destruct (Z.abs_spec (round_at 0 (tv - av))) as [[? E]|[? E]]; rewrite E in Hbig.
        + pose proof (step_up av tv Da Dt Sa St Hbig). lia.
        + pose proof (step_down av tv Da Dt Sa St ltac:(lia)). lia.
      - destruct (Z.abs_spec (round_at 0 (tv - av))) as [[? E]|[? E]]; rewrite E in Hbig.
        + pose proof (step_up av tv Da Dt Sa St Hbig). lia.
        + pose proof (step_down av tv Da Dt Sa St ltac:(lia)). lia. }
    destruct Hstep as (cv & Hsv & Ecv & Hcv & Hne).
    pose proof (pow2_pos 1068 ltac:(lia)) as Hpos.
    rewrite fl_fin by done. rewrite py_add_float, (viewed_float _ _ _ _ Va). simpl.
    assert (Hcd : round_at 0 cv = cv) by (rewrite Ecv; by apply round_at_idem).
    assert (Z.abs cv < huge) by lia.
    rewrite fl_fin by (rewrite <- Ecv; done). rewrite <- Ecv.
    exists (PyFloat (Fin cv)). split; [done|]. split; [|split; [|split; [|split]]].
    + apply joint_ok_float; [done|done|lia].
    + done.
    + unfold value; simpl. lia.
    + intros Hle. apply (diff_small av tv) in Hle. lia.
    + right. unfold value; simpl. lia.
  - exists t. rewrite (value_viewed _ _ _ _ Vt).
    split; [done|]. split; [done|]. split; [lia|]. split; [lia|].
    split; [done|by left].
Qed.

(** * Running the program: subscripts and the monad *)

Lemma py_index_nat {A} (l : list A) (k : nat) :
  (k < length l)%nat -> py_index l (Z.of_nat k) = Some k.
Proof.
  intros H. unfold py_index. rewrite bool_decide_eq_true_2 by lia.
  by rewrite Nat2Z.id.
Qed.

Lemma py_index_length {A B} (l : list A) (l' : list B) i :
  length l = length l' -> py_index l i = py_index l' i.
Proof. intros H. unfold py_index. by rewrite H. Qed.

Lemma py_index_lt {A} (l : list A) i k :
  py_index l i = Some k -> (k < length l)%nat.
Proof.
  unfold py_index. repeat case_bool_decide; intros [= <-]; lia.
Qed.

Lemma getitem_index {A} (l : list A) i k x :
  py_index l i = Some k -> l !! k = Some x -> getitem l i = Ret x.
Proof. intros Hi Hk. unfold getitem. by rewrite Hi, Hk. Qed.

Lemma getitem_nat {A} (l : list A) (k : nat) x :
  l !! k = Some x -> getitem l (Z.of_nat k) = Ret x.
Proof.
  intros H. unfold getitem.
  rewrite py_index_nat by (by eapply lookup_lt_Some). by rewrite H.
Qed.

Lemma setitem_nat {A} (l : list A) (k : nat) x :
  (k < length l)%nat -> setitem l (Z.of_nat k) x = Ret (<[k:=x]> l).
Proof. intros H. unfold setitem. by rewrite py_index_nat. Qed.

Lemma bind_eval {A B} (m : M A) (f : A → M B) w a w' :
  m w = (Ret a, w') -> (m ≫= f) w = f a w'.
Proof. intros H. unfold mbind, M_bind. by rewrite H. Qed.

Lemma bind_raise {A B} (m : M A) (f : A → M B) w e w' :
  m w = (Raise e, w') -> (m ≫= f) w = (Raise e, w').
Proof. intros H. unfold mbind, M_bind. by rewrite H. Qed.

Lemma lift_ret {A} (r : result A) a w : r = Ret a -> lift r w = (Ret a, w).
Proof. by intros ->. Qed.

Lemma lift_raise {A} (r : result A) e w :
  r = Raise e -> lift r w = (Raise e, w).
Proof. by intros ->. Qed.

Lemma bind_lift_ret {A B} (a : A) (f : A → M B) w :
  (lift (Ret a) ≫= f) w = f a w.
Proof. done. Qed.

Lemma bind_lift_raise {A B} e (f : A → M B) w :
  (lift (Raise e) ≫= f) w = (Raise e, w).
Proof. done. Qed.

Lemma target_at_nat w k t :
  motor_targets w !! k = Some t -> target_at (Z.of_nat k) w = (Ret t, w).
Proof.
  intros H. unfold target_at, mbind, M_bind, gets, lift. simpl.
  by rewrite (getitem_nat _ _ _ H).
Qed.

Lemma target_at_index w i k t :
  py_index (motor_targets w) i = Some k -> motor_targets w !! k = Some t ->
  target_at i w = (Ret t, w).
Proof.
  intros Hi H. unfold target_at, mbind, M_bind, gets, lift. simpl.
  by rewrite (getitem_index _ _ _ _ Hi H).
Qed.

Lemma store_target_index w i k v :
  py_index (motor_targets w) i = Some k ->
  store_target i v w
  = (Ret tt, set_motor_targets (<[k:=v]> (motor_targets w)) w).
Proof.
  intros H. unfold store_target, mbind, M_bind, gets, lift, modify, setitem.
  simpl. by rewrite H.
Qed.

Lemma angle_at_nat w k a :
  motor_angles w !! k = Some a -> angle_at (Z.of_nat k) w = (Ret a, w).
Proof.
  intros H. unfold angle_at, mbind, M_bind, gets, lift. simpl.
  by rewrite (getitem_nat _ _ _ H).
Qed.

Lemma store_angle_nat w k v :
  (k < length (motor_angles w))%nat ->
  store_angle (Z.of_nat k) v w
  = (Ret tt, set_motor_angles (<[k:=v]> (motor_angles w)) w).
Proof.
  intros H. unfold store_angle, mbind, M_bind, gets, lift, modify. simpl.
  by rewrite setitem_nat.
Qed.

Lemma store_target_nat w k v :
  (k < length (motor_targets w))%nat ->
  store_target (Z.of_nat k) v w
  = (Ret tt, set_motor_targets (<[k:=v]> (motor_targets w)) w).
Proof.
  intros H. unfold store_target, mbind, M_bind, gets, lift, modify. simpl.
  by rewrite setitem_nat.
Qed.

(** * [update_motor_angles] against the smoothing rule *)

(** One pass of the loop body is the rule applied to the joint's own pair. *)
Lemma smooth_joint_rule w k t a c :
  motor_targets w !! k = Some t -> motor_angles w !! k = Some a ->
  tick_smoothing_rule t a = Ret c ->
  smooth_joint (Z.of_nat k) w
  = (Ret tt, set_motor_angles (<[k:=c]> (motor_angles w)) w).
Proof.
  intros Ht Ha Hr. unfold smooth_joint.
  rewrite (bind_eval _ _ _ _ _ (target_at_nat _ _ _ Ht)).
  rewrite (bind_eval _ _ _ _ _ (angle_at_nat _ _ _ Ha)).
  unfold tick_smoothing_rule in Hr.
  destruct (py_sub t a) as [diff|e] eqn:Ed; [|done]. simpl in Hr.
  rewrite bind_lift_ret.
  destruct (py_gt (py_abs diff) (PyFloat (Fin half))).
  - rewrite (bind_eval _ _ _ _ _ (angle_at_nat _ _ _ Ha)).
    destruct (py_mul diff (PyFloat (Fin tenth))) as [d|e] eqn:Em; [|done].
    simpl in Hr. rewrite bind_lift_ret, Hr, bind_lift_ret.
    apply store_angle_nat. by eapply lookup_lt_Some.
  - injection Hr as <-.
    rewrite (bind_eval _ _ _ _ _ (target_at_nat _ _ _ Ht)).
    apply store_angle_nat. by eapply lookup_lt_Some.
Qed.

Lemma seqZ_cons' m n : 0 <= n -> seqZ m (n + 1) = m :: seqZ (m + 1) n.
Proof.
  intros. rewrite seqZ_cons by lia. do 2 f_equal; lia.
Qed.

Lemma smoothing_loop ts2 : ∀ ts1 as1 as2 cs w,
  motor_targets w = ts1 ++ ts2 -> motor_angles w = as1 ++ as2 ->
  length ts1 = length as1 ->
  Forall3 (λ t a c, tick_smoothing_rule t a = Ret c) ts2 as2 cs ->
  for_each (seqZ (Z.of_nat (length ts1)) (Z.of_nat (length ts2))) smooth_joint w
  = (Ret tt, set_motor_angles (as1 ++ cs) w).
Proof.
  induction ts2 as [|t ts2 IH]; intros ts1 as1 as2 cs w Ht Ha Hl HF.
  - inversion HF; subst. simpl. unfold mret, M_ret. f_equal.
    destruct w; simpl in *. by subst.
  - apply Forall3_cons_inv_l in HF as (a & as2' & c & cs' & -> & -> & Hr & HF').
    rewrite length_cons, Nat2Z.inj_succ, <- Z.add_1_r, seqZ_cons' by lia.
    simpl.
    assert (Hk1 : motor_targets w !! length ts1 = Some t)
      by (rewrite Ht; apply list_lookup_middle; done).
    assert (Hk2 : motor_angles w !! length ts1 = Some a)
      by (rewrite Ha; apply list_lookup_middle; done).
    rewrite (bind_eval _ _ _ _ _ (smooth_joint_rule _ _ _ _ _ Hk1 Hk2 Hr)).
    replace (Z.of_nat (length ts1) + 1) with (Z.of_nat (length (ts1 ++ [t])))
      by (rewrite length_app; simpl; lia).
    rewrite (IH (ts1 ++ [t]) (as1 ++ [c]) as2' cs').
    + f_equal. destruct w; simpl in *. unfold set_motor_angles; simpl.
      by rewrite <- app_assoc.
    + simpl. rewrite Ht. by rewrite <- app_assoc.
    + simpl. rewrite Ha, Hl, <- app_assoc. simpl.
      rewrite insert_app_r_alt by lia. by rewrite Nat.sub_diag.
    + rewrite !length_app. simpl. lia.
    + done.
Qed.

(** * [send_command] *)

Lemma int_target_eq i w : int_target i w = (field_of (motor_targets w) i, w).
Proof.
  unfold int_target, field_of, target_at, mbind, M_bind, gets, lift. simpl.
  destruct (getitem (motor_targets w) i) as [t|e]; [|done]. simpl.
  by destruct (py_int t).
Qed.

Lemma format_command_eq w :
  format_command w = (command_of (motor_targets w), w).
Proof.
  unfold format_command, command_of, mbind at 1 2 3 4 5 6, M_bind.
  repeat (rewrite int_target_eq;
          destruct (field_of (motor_targets w) _); [|done]; simpl).
  done.
Qed.

Lemma send_command_eq link w : send_command link w = (Ret tt, sent link w).
Proof.
  unfold send_command, try_except, sent, mbind, M_bind.
  rewrite format_command_eq.
  destruct (command_of (motor_targets w)) as [command|e]; simpl.
  - unfold arduino_write.
    destruct (link (length (serial_io w))) as [|[|response|]]; simpl;
      unfold print, modify, set_stdout, set_serial_io; simpl;
      rewrite <- ?app_assoc; done.
  - unfold print, modify, set_stdout. simpl. by rewrite app_nil_r.
Qed.

(** * [update_robot_action] *)

(** An adjustment through the subscript [idx], which Python resolves to
    position [j], that computes the clamped target [v]. *)
Section Adjust.
Variable link : nat → io_outcome.
Variables (w : world) (action : string) (idx : Z) (j : nat).
Hypothesis six : length (motor_targets w) = length motor_ranges.
Hypothesis resolved : py_index motor_ranges idx = Some j.

Lemma resolved_targets : py_index (motor_targets w) idx = Some j.
Proof. by rewrite (py_index_length _ motor_ranges). Qed.

Lemma update_robot_action_adjust r t name plus step v z :
  motor_ranges !! j = Some r -> motor_names !! j = Some name ->
  motor_targets w !! j = Some t ->
  adjusted_target r t plus step = Ret v -> py_int v = Ret z ->
  update_robot_action link action (Some idx)
    (Some (direction_name plus)) step w
  = (Ret tt,
     announced (sent link
       (set_action_text (Adjusted (idx + 1) name plus step z)
          (set_motor_targets (<[j:=v]> (motor_targets w)) w)))).
Proof.
  intros Hr Hn Ht Hv Hz. unfold update_robot_action.
  pose proof resolved_targets as Hidx.
  rewrite (bind_eval _ _ w tt
    (sent link
       (set_action_text (Adjusted (idx + 1) name plus step z)
          (set_motor_targets (<[j:=v]> (motor_targets w)) w)))); [done|].
  rewrite (bind_eval _ _ _ _ _
             (lift_ret _ _ w (getitem_index _ _ _ _ resolved Hr))).
  destruct r as [min_val max_val].
  assert (Hlen : (j < length (motor_targets w))%nat)
    by (by eapply lookup_lt_Some).
  set (w1 := set_motor_targets (<[j:=v]> (motor_targets w)) w).
  assert (Hv1 : motor_targets w1 !! j = Some v)
    by (simpl; by apply list_lookup_insert_eq).
  assert (Hidx1 : py_index (motor_targets w1) idx = Some j).
  { simpl. rewrite (py_index_length _ (motor_targets w)); [done|].
    apply length_insert. }
  assert (Htext : adjustment_text idx plus step w1
                  = (Ret tt, set_action_text
                       (Adjusted (idx + 1) name plus step z) w1)).
  { unfold adjustment_text.
    rewrite (bind_eval _ _ _ _ _ (lift_ret _ _ w1
               (getitem_index motor_names idx j name
                  ltac:(by rewrite (py_index_length _ motor_ranges)) Hn))).
    rewrite (bind_eval _ _ _ _ _ (target_at_index _ _ _ _ Hidx1 Hv1)).
    by rewrite Hz, bind_lift_ret. }
  unfold adjusted_target in Hv. destruct plus; simpl in Hv |- *.
  - destruct (py_add t step) as [s|e] eqn:Es; [|done]. injection Hv as <-.
    erewrite bind_eval; [apply send_command_eq|].
    rewrite (bind_eval _ _ _ _ _ (target_at_index _ _ _ _ Hidx Ht)).
    rewrite Es, bind_lift_ret.
    rewrite (bind_eval _ _ _ _ _ (store_target_index _ _ _ _ Hidx)).
    exact Htext.
  - destruct (py_sub t step) as [s|e] eqn:Es; [|done]. injection Hv as <-.
    erewrite bind_eval; [apply send_command_eq|].
    rewrite (bind_eval _ _ _ _ _ (target_at_index _ _ _ _ Hidx Ht)).
    rewrite Es, bind_lift_ret.
    rewrite (bind_eval _ _ _ _ _ (store_target_index _ _ _ _ Hidx)).
    exact Htext.
Qed.

(** An adjustment whose arithmetic fails leaves everything as it was. *)
Lemma update_robot_action_fails r t plus step e :
  motor_ranges !! j = Some r -> motor_targets w !! j = Some t ->
  adjusted_target r t plus step = Raise e ->
  update_robot_action link action (Some idx)
    (Some (direction_name plus)) step w
  = (Raise e, w).
Proof.
  intros Hr Ht Hv. unfold update_robot_action.
  pose proof resolved_targets as Hidx.
  apply bind_raise.
  rewrite (bind_eval _ _ _ _ _
             (lift_ret _ _ w (getitem_index _ _ _ _ resolved Hr))).
  destruct r as [min_val max_val]. apply bind_raise.
  unfold adjusted_target in Hv. destruct plus; simpl in Hv |- *.
  - rewrite (bind_eval _ _ _ _ _ (target_at_index _ _ _ _ Hidx Ht)).
    destruct (py_add t step) as [s|e'] eqn:Es; [done|]. by injection Hv as ->.
  - rewrite (bind_eval _ _ _ _ _ (target_at_index _ _ _ _ Hidx Ht)).
    destruct (py_sub t step) as [s|e'] eqn:Es; [done|]. by injection Hv as ->.
Qed.

(** Any other direction: nothing is adjusted, the command is still sent. *)
Lemma update_robot_action_other r direction step :
  motor_ranges !! j = Some r ->
  direction ≠ Some "increase" -> direction ≠ Some "decrease" ->
  update_robot_action link action (Some idx) direction step w
  = (Ret tt, announced (sent link w)).
Proof.
  intros Hr H1 H2. unfold update_robot_action.
  rewrite (bind_eval _ _ w tt (sent link w)); [done|].
  rewrite (bind_eval _ _ _ _ _
             (lift_ret _ _ w (getitem_index _ _ _ _ resolved Hr))).
  destruct r as [min_val max_val].
  rewrite !bool_decide_eq_false_2 by done.
  erewrite bind_eval; [apply send_command_eq|]. done.
Qed.
End Adjust.

(** A subscript outside [-6 .. 5] is refused before anything is touched. *)
Lemma update_robot_action_index_error link w action idx direction step :
  py_index motor_ranges idx = None ->
  update_robot_action link action (Some idx) direction step w
  = (Raise IndexError, w).
Proof.
  intros H. unfold update_robot_action. apply bind_raise. apply bind_raise.
  unfold lift, getitem. by rewrite H.
Qed.

(** * Clamped adjustments stay inside the range *)

Lemma fl_cases j n :
  (fl j n = Fin (round_at j n) ∧ Z.abs (round_at j n) < huge) ∨
  (fl j n = Inf false ∧ huge <= round_at j n) ∨
  (fl j n = Inf true ∧ round_at j n <= - huge).
Proof.
  unfold fl. destruct (Z.leb_spec huge (round_at j n)); [by right; left|].
  destruct (Z.leb_spec (round_at j n) (- huge)); [by right; right|].
  left. split; [done|lia].
Qed.

Lemma py_add_float_l f y :
  py_add (PyFloat f) y = (b ← to_float y; Ret (PyFloat (fadd f b))).
Proof. by destruct y. Qed.

Lemma joint_ok_int r z : r.1 <= z <= r.2 -> joint_ok r (PyInt z).
Proof.
  intros H. split; [done|]. unfold in_range, py_le, py_lt. simpl.
  pose proof one_pos.
  apply andb_true_iff. split; apply negb_true_iff, Z.ltb_ge; nia.
Qed.

Lemma to_float_nonneg step :
  py_le (PyInt 0) step = true ->
  to_float step = Raise OverflowError ∨
  ∃ f, to_float step = Ret f ∧ nonneg_float f.
Proof.
  intros H. unfold py_le, py_lt in H. pose proof one_pos.
  destruct step as [sz|[k|s|]]; simpl in *.
  - apply negb_true_iff, Z.ltb_ge in H.
    destruct (fl_cases 0 (sz * one)) as [[-> _]|[[-> _]|[-> _]]]; auto.
    right. eexists. split; [done|]. right. eexists. split; [done|].
    transitivity (round_at 0 0); [rewrite round_at_0; lia|].
    apply round_at_mono; lia.
  - apply negb_true_iff, Z.ltb_ge in H. right. eexists. split; [done|].
    right. exists k. split; [done|lia].
  - apply negb_true_iff in H. subst. right. eexists. split; [done|]. by left.
  - done.
Qed.

Section Clamping.
Variables lo hi tv : Z.
Hypothesis lo_size : - 2 ^ 40 <= lo.
Hypothesis hi_size : hi <= 2 ^ 40.
Hypothesis tv_range : lo * one <= tv <= hi * one.

Lemma bounds_doubles :
  round_at 0 (lo * one) = lo * one ∧ round_at 0 (hi * one) = hi * one ∧
  - huge < lo * one ∧ hi * one < huge.
Proof.
  pose proof one_pos. pose proof (pow2_lt 40 53 ltac:(lia)).
  assert (lo <= hi) by nia.
  pose proof (range_units lo hi (lo * one) lo_size hi_size ltac:(nia)).
  pose proof (range_units lo hi (hi * one) lo_size hi_size ltac:(nia)).
  pose proof (huge_gt 1114 ltac:(lia)).
  repeat split; try lia; apply round_at_int; lia.
Qed.

Lemma add_clamped b :
  nonneg_float b ->
  joint_ok (lo, hi) (py_min (PyInt hi) (PyFloat (fadd (Fin tv) b))).
Proof.
  destruct bounds_doubles as (Dlo & Dhi & Hlo & Hhi). pose proof one_pos.
  assert (lo <= hi) by nia.
  intros [->|(k & -> & Hk)]; simpl.
  { apply joint_ok_int; simpl; lia. }
  unfold py_min, py_lt. simpl.
  destruct (fl_cases 0 (tv + k)) as [[-> Hr]|[[-> _]|[-> Hr]]]; simpl.
  - assert (lo * one <= round_at 0 (tv + k)).
    { rewrite <- Dlo. apply round_at_mono; lia. }
    destruct (Z.ltb_spec (round_at 0 (tv + k)) (hi * one)).
    + apply joint_ok_float; simpl; [by apply round_at_idem|done|lia].
    + apply joint_ok_int; simpl; lia.
  - apply joint_ok_int; simpl; lia.
  - assert (lo * one <= round_at 0 (tv + k)).
    { rewrite <- Dlo. apply round_at_mono; lia. }
    lia.
Qed.

Lemma sub_clamped b :
  nonneg_float b ->
  joint_ok (lo, hi) (py_max (PyInt lo) (PyFloat (fsub (Fin tv) b))).
Proof.
  destruct bounds_doubles as (Dlo & Dhi & Hlo & Hhi). pose proof one_pos.
  assert (lo <= hi) by nia.
  intros [->|(k & -> & Hk)]; simpl.
  { apply joint_ok_int; simpl; lia. }
  unfold py_max, py_gt, py_lt. simpl.
  destruct (fl_cases 0 (tv + - k)) as [[-> Hr]|[[-> Hr]|[-> _]]]; simpl.
  - assert (round_at 0 (tv + - k) <= hi * one).
    { rewrite <- Dhi. apply round_at_mono; lia. }
    destruct (Z.ltb_spec (lo * one) (round_at 0 (tv + - k))).
    + apply joint_ok_float; simpl; [by apply round_at_idem|done|lia].
    + apply joint_ok_int; simpl; lia.
  - assert (round_at 0 (tv + - k) <= hi * one).
    { rewrite <- Dhi. apply round_at_mono; lia. }
    lia.
  - apply joint_ok_int; simpl; lia.
Qed.
End Clamping.

Lemma adjusted_target_ok r t plus step :
  moderate r -> joint_ok r t -> py_le (PyInt 0) step = true ->
  adjusted_target r t plus step = Raise OverflowError ∨
  ∃ v, adjusted_target r t plus step = Ret v ∧ joint_ok r v.
Proof.
  intros Hm Ht Hs. destruct (joint_ok_view r t Hm Ht) as [tv [Et Ft Rt Dt]].
  destruct Hm as [Hlo Hhi]. destruct r as [lo hi]; simpl in *.
  pose proof one_pos.
  assert (lo <= hi) by nia.
  unfold adjusted_target.
  destruct t as [tz|ft], step as [sz|fs].
  - (* both ints: exact arithmetic *)
    right. simpl in Et. injection Et as <-.
    assert (0 <= sz).
    { unfold py_le, py_lt in Hs. simpl in Hs.
      apply negb_true_iff, Z.ltb_ge in Hs. nia. }
    assert (lo <= tz <= hi) by nia.
    destruct plus; simpl; unfold py_min, py_max, py_gt, py_lt; simpl.
    + destruct (Z.ltb_spec ((tz + sz) * one) (hi * one));
        eexists; (split; [done|]); apply joint_ok_int; simpl; nia.
    + destruct (Z.ltb_spec (lo * one) ((tz - sz) * one));
        eexists; (split; [done|]); apply joint_ok_int; simpl; nia.
  - destruct (to_float_nonneg _ Hs) as [E|(b & E & Hb)]; [done|].
    simpl in E. injection E as ->. right.
    destruct plus.
    + rewrite py_add_float, Ft. simpl. eexists. split; [done|].
      by apply add_clamped.
    + rewrite py_sub_float_r, Ft. simpl. eexists. split; [done|].
      by apply sub_clamped.
  - simpl in Et. subst ft.
    destruct (to_float_nonneg _ Hs) as [E|(b & E & Hb)].
    + left. destruct plus.
      * by rewrite py_add_float_l, E.
      * by rewrite py_sub_float_l, E.
    + right. destruct plus.
      * rewrite py_add_float_l, E. simpl. eexists. split; [done|].
        by apply add_clamped.
      * rewrite py_sub_float_l, E. simpl. eexists. split; [done|].
        by apply sub_clamped.
  - simpl in Et. subst ft.
    destruct (to_float_nonneg _ Hs) as [E|(b & E & Hb)]; [done|].
    simpl in E. injection E as ->. right.
    destruct plus.
    + rewrite py_add_float. simpl. eexists. split; [done|].
      by apply add_clamped.
    + rewrite py_sub_float_r. simpl. eexists. split; [done|].
      by apply sub_clamped.
Qed.

Lemma fast_step_nonneg : py_le (PyInt 0) FAST_STEP_SIZE = true.
Proof.
  unfold py_le, py_lt, FAST_STEP_SIZE, exact, flt.
  apply negb_true_iff, Z.ltb_ge. pose proof one_pos. lia.
Qed.

(** The step of the key handlers is the int 3: the arithmetic cannot fail. *)
Lemma adjusted_target_fast r t plus :
  moderate r -> joint_ok r t ->
  ∃ v, adjusted_target r t plus FAST_STEP_SIZE = Ret v ∧ joint_ok r v.
Proof.
  intros Hm Ht.
  destruct (adjusted_target_ok r t plus FAST_STEP_SIZE Hm Ht
              fast_step_nonneg) as [E|H]; [|done].
  exfalso. unfold adjusted_target, FAST_STEP_SIZE in E.
  destruct t as [tz|ft]; [destruct plus; simpl in E; discriminate E|].
  assert (to_float (PyInt 3) = Ret (Fin (3 * one))) as F.
  { assert (H3 : Z.abs 3 < 2 ^ 53).
    { change (Z.abs 3) with 3. pose proof (pow2_lt 2 53 ltac:(lia)) as H4.
      change (2 ^ 2) with 4 in H4. lia. }
    simpl. rewrite fl_fin; rewrite (round_at_int 3 H3); [done|].
    pose proof one_pos as Hone.
    pose proof (pow2_split 1076 1074 ltac:(lia)) as E'.
    replace (1076 - 1074) with 2 in E' by lia. rewrite <- one_pow in E'.
    pose proof (huge_gt 1076 ltac:(lia)).
    rewrite Z.abs_eq; lia. }
  destruct plus.
  - rewrite py_add_float_l, F in E. simpl in E. discriminate E.
  - rewrite py_sub_float_l, F in E. simpl in E. discriminate E.
Qed.

Lemma joint_ok_py_int r v : joint_ok r v -> ∃ z, py_int v = Ret z.
Proof.
  intros [_ H]. unfold in_range, py_le, py_lt in H.
  destruct v as [z|[k|s|]]; simpl in *; eauto.
  - by destruct s.
  - done.
Qed.

(** * The six joints *)

Lemma motor_ranges_moderate : Forall moderate motor_ranges.
Proof.
  assert (0 < 2 ^ 40) by (by apply pow2_pos).
  assert (1023 <= 2 ^ 40).
  { pose proof (pow2_le 10 40 ltac:(lia)) as H'. change (2 ^ 10) with 1024 in H'. lia. }
  unfold motor_ranges. repeat constructor; simpl; lia.
Qed.

Lemma moderate_lookup (j : nat) r : motor_ranges !! j = Some r -> moderate r.
Proof.
  intros H. eapply Forall_lookup_1; [apply motor_ranges_moderate|exact H].
Qed.

Lemma motor_names_lookup (j : nat) r :
  motor_ranges !! j = Some r -> ∃ name, motor_names !! j = Some name.
Proof.
  intros H. apply lookup_lt_Some in H.
  apply lookup_lt_is_Some_2. exact H.
Qed.

Lemma joints_ok_lookup w (j : nat) :
  joints_ok w -> (j < 6)%nat ->
  ∃ r t a, motor_ranges !! j = Some r ∧ motor_targets w !! j = Some t ∧
           motor_angles w !! j = Some a ∧ joint_ok r t ∧ joint_ok r a.
Proof.
  intros [Ht Ha] Hj.
  destruct (lookup_lt_is_Some_2 motor_ranges j) as [r Hr]; [exact Hj|].
  destruct (Forall2_lookup_l _ _ _ _ _ Ht Hr) as (t & Et & Ot).
  destruct (Forall2_lookup_l _ _ _ _ _ Ha Hr) as (a & Ea & Oa).
  by exists r, t, a.
Qed.

Lemma joints_ok_lengths w :
  joints_ok w -> length (motor_targets w) = 6%nat ∧ length (motor_angles w) = 6%nat.
Proof.
  intros [Ht Ha]. apply Forall2_length in Ht, Ha. by rewrite <- Ht, <- Ha.
Qed.

(** * One smoothing pass over joints inside their ranges *)

Lemma smoothing_exists rs : ∀ ts cur,
  Forall moderate rs -> Forall2 joint_ok rs ts -> Forall2 joint_ok rs cur ->
  ∃ cs, Forall3 (λ t a c, tick_smoothing_rule t a = Ret c) ts cur cs ∧
        Forall2 joint_ok rs cs.
Proof.
  induction rs as [|r rs IH]; intros ts cur Hm Ht Ha.
  - apply Forall2_nil_inv_l in Ht as ->. apply Forall2_nil_inv_l in Ha as ->.
    exists []. split; constructor.
  - apply Forall2_cons_inv_l in Ht as (t & ts' & Ot & Ht & ->).
    apply Forall2_cons_inv_l in Ha as (a & cur' & Oa & Ha & ->).
    apply Forall_cons in Hm as [Hr Hm].
    destruct (IH ts' cur' Hm Ht Ha) as (cs & H3 & H2).
    destruct (rule_in_range r t a Hr Ot Oa) as (c & Ec & Oc & _).
    exists (c :: cs). split; by constructor.
Qed.

Lemma update_motor_angles_rule w cs :
  Forall3 (λ t a c, tick_smoothing_rule t a = Ret c)
          (motor_targets w) (motor_angles w) cs ->
  update_motor_angles w = (Ret tt, set_motor_angles cs w).
Proof.
  intros HF. unfold update_motor_angles.
  rewrite (bind_eval _ _ w (motor_targets w) w) by done.
  apply (smoothing_loop (motor_targets w) [] [] (motor_angles w) cs w); auto.
Qed.

Lemma update_motor_angles_ok w :
  joints_ok w ->
  ∃ cs, update_motor_angles w = (Ret tt, set_motor_angles cs w) ∧
        Forall3 (λ t a c, tick_smoothing_rule t a = Ret c)
                (motor_targets w) (motor_angles w) cs ∧
        joints_ok (set_motor_angles cs w).
Proof.
  intros [Ht Ha].
  destruct (smoothing_exists _ _ _ motor_ranges_moderate Ht Ha) as (cs & H3 & H2).
  exists cs. split; [by apply update_motor_angles_rule|]. split; [done|].
  by split.
Qed.

Lemma smoothing_ticks_S n w :
  smoothing_ticks (S n) w = (update_motor_angles (smoothing_ticks n w)).2.
Proof. done. Qed.

Lemma smoothing_ticks_ok n w :
  joints_ok w ->
  joints_ok (smoothing_ticks n w) ∧
  motor_targets (smoothing_ticks n w) = motor_targets w.
Proof.
  intros Hw. induction n as [|n [IH1 IH2]]; [done|].
  rewrite smoothing_ticks_S.
  destruct (update_motor_angles_ok _ IH1) as (cs & -> & _ & Hok). simpl.
  split; [done|]. exact IH2.
Qed.

(** What one pass does to joint [j]. *)
Lemma smoothing_joint_step w (j : nat) r t a :
  joints_ok w -> motor_ranges !! j = Some r ->
  motor_targets w !! j = Some t -> motor_angles w !! j = Some a ->
  ∃ c, motor_angles (update_motor_angles w).2 !! j = Some c ∧
       joint_ok r c ∧
       Z.min (value a) (value t) <= value c <= Z.max (value a) (value t) ∧
       (value a ≠ value t ->
        Z.abs (value t - value c) < Z.abs (value t - value a)) ∧
       (Z.abs (value t - value a) <= half -> c = t) ∧
       (c = t ∨
        Z.abs (value t - value c) + 2 ^ 1068 <= Z.abs (value t - value a)).
Proof.
  intros Hw Hr Ht Ha.
  destruct (update_motor_angles_ok _ Hw) as (cs & -> & H3 & _). simpl.
  destruct (Forall3_lookup_l _ _ _ _ _ _ H3 Ht) as (a' & c & Ea & Ec & Hrule).
  rewrite Ha in Ea. injection Ea as <-.
  pose proof Hw as [Hts Has].
  destruct (Forall2_lookup_l _ _ _ _ _ Hts Hr) as (t' & Et & Ot).
  destruct (Forall2_lookup_l _ _ _ _ _ Has Hr) as (a' & Ea & Oa).
  rewrite Ht in Et. injection Et as <-. rewrite Ha in Ea. injection Ea as <-.
  destruct (rule_in_range r t a (moderate_lookup _ _ Hr) Ot Oa)
    as (c' & Ec' & Hfacts).
  rewrite Hrule in Ec'. injection Ec' as <-.
  by exists c.
Qed.

(** * Adjustments of joints inside their ranges *)

Lemma joints_ok_same w w' :
  motor_targets w' = motor_targets w -> motor_angles w' = motor_angles w ->
  joints_ok w -> joints_ok w'.
Proof. intros Et Ea [Ht Ha]. split; by rewrite ?Et, ?Ea. Qed.

Lemma joints_ok_insert w (j : nat) r v :
  joints_ok w -> motor_ranges !! j = Some r -> joint_ok r v ->
  joints_ok (set_motor_targets (<[j:=v]> (motor_targets w)) w).
Proof.
  intros [Ht Ha] Hr Hv. split; [|done]. simpl.
  rewrite <- (list_insert_id motor_ranges j r Hr). by apply Forall2_insert.
Qed.

Lemma py_index_ranges idx (j : nat) :
  py_index motor_ranges idx = Some j -> (j < 6)%nat.
Proof. intros H. by apply py_index_lt in H. Qed.

Lemma py_index_ranges_nat (j : nat) :
  (j < 6)%nat -> py_index motor_ranges (Z.of_nat j) = Some j.
Proof. intros H. by apply py_index_nat. Qed.

Lemma update_robot_action_ok link w action idx (j : nat) r t plus step :
  joints_ok w -> py_index motor_ranges idx = Some j ->
  motor_ranges !! j = Some r -> motor_targets w !! j = Some t ->
  py_le (PyInt 0) step = true ->
  update_robot_action link action (Some idx) (Some (direction_name plus)) step w
  = (Raise OverflowError, w) ∨
  ∃ v name z,
    adjusted_target r t plus step = Ret v ∧ joint_ok r v ∧
    motor_names !! j = Some name ∧ py_int v = Ret z ∧
    update_robot_action link action (Some idx) (Some (direction_name plus)) step w
    = (Ret tt, adjusted link w idx j name plus step v z).
Proof.
  intros Hw Hidx Hr Ht Hs.
  destruct (joints_ok_lengths w Hw) as [L6 _].
  destruct (Forall2_lookup_l _ _ _ _ _ (proj1 Hw) Hr) as (t' & Et & Ot).
  rewrite Ht in Et. injection Et as <-.
  destruct (adjusted_target_ok r t plus step (moderate_lookup _ _ Hr) Ot Hs)
    as [E|(v & E & Ov)].
  - left. by eapply update_robot_action_fails.
  - right. destruct (motor_names_lookup _ _ Hr) as [name Hn].
    destruct (joint_ok_py_int _ _ Ov) as [z Hz].
    exists v, name, z. do 4 (split; [done|]).
    unfold adjusted. by eapply update_robot_action_adjust.
Qed.

Lemma adjusted_joints_ok link w idx (j : nat) name plus step r v z :
  joints_ok w -> motor_ranges !! j = Some r -> joint_ok r v ->
  joints_ok (adjusted link w idx j name plus step v z).
Proof.
  intros Hw Hr Hv.
  apply (joints_ok_same (set_motor_targets (<[j:=v]> (motor_targets w)) w));
    [done|done|]. by eapply joints_ok_insert.
Qed.

Lemma do_call_ok link c w :
  joints_ok w -> admissible c -> joints_ok (do_call link c w).2.
Proof.
  intros Hw Hc. destruct c as [j plus step|]; simpl in *.
  - destruct Hc as [Hj Hs].
    destruct (joints_ok_lookup w j Hw Hj) as (r & t & a & Hr & Ht & _).
    destruct (update_robot_action_ok link w (motor_label (Z.of_nat j))
                (Z.of_nat j) j r t plus step Hw
                (py_index_ranges_nat j Hj) Hr Ht Hs)
      as [->|(v & name & z & _ & Ov & _ & _ & ->)]; simpl; [done|].
    by eapply adjusted_joints_ok.
  - by destruct (update_motor_angles_ok w Hw) as (cs & -> & _ & Hok).
Qed.

Lemma do_calls_ok link cs : ∀ w,
  joints_ok w -> Forall admissible cs -> joints_ok (do_calls link cs w).
Proof.
  induction cs as [|c cs IH]; intros w Hw Hcs; [done|].
  apply Forall_cons in Hcs as [Hc Hcs]. simpl.
  apply IH; [|done]. by apply do_call_ok.
Qed.

(** * The key table *)

Lemma key_mapping_cases k v :
  key_mapping !! k = Some v ->
  (k, v) ∈ [(K_q, (0, "increase")); (K_a, (0, "decrease"));
            (K_w, (1, "increase")); (K_s, (1, "decrease"));
            (K_e, (2, "increase")); (K_d, (2, "decrease"));
            (K_r, (3, "increase")); (K_f, (3, "decrease"));
            (K_t, (4, "increase")); (K_g, (4, "decrease"));
            (K_y, (5, "increase")); (K_h, (5, "decrease"))].
Proof. unfold key_mapping. apply elem_of_list_to_map_2. Qed.

Lemma key_mapping_valid k i d :
  key_mapping !! k = Some (i, d) ->
  ∃ (j : nat) plus, i = Z.of_nat j ∧ (j < 6)%nat ∧ d = direction_name plus
                    ∧ k ≠ K_ESCAPE.
Proof.
  intros H. apply key_mapping_cases in H.
  repeat (apply elem_of_cons in H as [[= -> -> ->]|H]);
    [exists 0%nat, true | exists 0%nat, false
    |exists 1%nat, true | exists 1%nat, false
    |exists 2%nat, true | exists 2%nat, false
    |exists 3%nat, true | exists 3%nat, false
    |exists 4%nat, true | exists 4%nat, false
    |exists 5%nat, true | exists 5%nat, false | by apply elem_of_nil in H];
    repeat split; try done; lia.
Qed.

Lemma key_mapping_inj k k' v :
  key_mapping !! k = Some v -> key_mapping !! k' = Some v -> k = k'.
Proof.
  intros H H'. apply key_mapping_cases in H, H'.
  repeat (apply elem_of_cons in H as [[= -> ->]|H]);
    try (by apply elem_of_nil in H);
    repeat (apply elem_of_cons in H' as [[= ->]|H']);
    try done; by apply elem_of_nil in H'.
Qed.

(** * The frame of a well-formed state *)

Lemma field_of_nat ts (k : nat) t z :
  ts !! k = Some t -> py_int t = Ret z ->
  field_of ts (Z.of_nat k) = Ret (pretty z).
Proof.
  intros Hk Hz. unfold field_of. rewrite (getitem_nat _ _ _ Hk). simpl.
  by rewrite Hz.
Qed.

Lemma command_of_frame ts zs :
  Forall2 (λ t z, py_int t = Ret z) ts zs -> length zs = 6%nat ->
  command_of ts = Ret (wire_frame zs).
Proof.
  intros HF Hlen.
  destruct zs as [|z0 [|z1 [|z2 [|z3 [|z4 [|z5 [|]]]]]]]; try done.
  apply Forall2_cons_inv_r in HF as (t0 & ts0 & H0 & HF & ->).
  apply Forall2_cons_inv_r in HF as (t1 & ts1 & H1 & HF & ->).
  apply Forall2_cons_inv_r in HF as (t2 & ts2 & H2 & HF & ->).
  apply Forall2_cons_inv_r in HF as (t3 & ts3 & H3 & HF & ->).
  apply Forall2_cons_inv_r in HF as (t4 & ts4 & H4 & HF & ->).
  apply Forall2_cons_inv_r in HF as (t5 & ts5 & H5 & HF & ->).
  apply Forall2_nil_inv_r in HF as ->.
  unfold command_of.
  rewrite (field_of_nat _ 0 t0 z0), (field_of_nat _ 1 t1 z1),
    (field_of_nat _ 2 t2 z2), (field_of_nat _ 3 t3 z3),
    (field_of_nat _ 4 t4 z4), (field_of_nat _ 5 t5 z5) by done.
  done.
Qed.

Lemma ranges_ints rs : ∀ ts,
  Forall2 joint_ok rs ts -> ∃ zs, Forall2 (λ t z, py_int t = Ret z) ts zs.
Proof.
  induction rs as [|r rs IH]; intros ts H.
  - apply Forall2_nil_inv_l in H as ->. by exists [].
  - apply Forall2_cons_inv_l in H as (t & ts' & Ot & H & ->).
    destruct (IH _ H) as [zs Hzs]. destruct (joint_ok_py_int _ _ Ot) as [z Hz].
    exists (z :: zs). by constructor.
Qed.

Lemma joints_ok_frame w :
  joints_ok w ->
  ∃ zs, Forall2 (λ t z, py_int t = Ret z) (motor_targets w) zs ∧
        length zs = 6%nat ∧ command_of (motor_targets w) = Ret (wire_frame zs).
Proof.
  intros Hw. destruct (ranges_ints _ _ (proj1 Hw)) as [zs Hzs].
  assert (length zs = 6%nat).
  { rewrite <- (Forall2_length _ _ _ Hzs). by apply joints_ok_lengths. }
  exists zs. split; [done|]. split; [done|]. by apply command_of_frame.
Qed.

(** * What an adjustment leaves on the output and on the line *)

Lemma intents_app a b : intents (a ++ b) = intents a ++ intents b.
Proof. apply omap_app. Qed.

Lemma intents_report link w frame : intents (report link w frame) = [].
Proof.
  unfold report. destruct frame; [|done].
  by destruct (link _) as [|[| |]].
Qed.

Lemma adjusted_grows link w idx (j : nat) name plus step r v z :
  joints_ok w -> motor_ranges !! j = Some r -> joint_ok r v ->
  ∃ frame out,
    grows w (adjusted link w idx j name plus step v z)
          [(frame, link (length (serial_io w)))] out ∧
    command_of (<[j:=v]> (motor_targets w)) = Ret frame ∧
    intents out = [(idx, plus)].
Proof.
  intros Hw Hr Hv.
  pose proof (joints_ok_insert w j r v Hw Hr Hv) as Hw1.
  destruct (joints_ok_frame _ Hw1) as (zs & _ & _ & Hc). simpl in Hc.
  exists (wire_frame zs).
  eexists (report link _ (Ret (wire_frame zs)) ++ [Command _]).
  split; [|split; [done|]].
  - unfold adjusted, announced, sent. constructor; simpl; try done.
    + by rewrite Hc.
    + rewrite Hc. by rewrite <- app_assoc.
  - rewrite intents_app, intents_report. simpl. do 2 f_equal. lia.
Qed.

(** * One intent applied with the fixed step *)

Lemma update_robot_action_fast link w action (j : nat) plus :
  joints_ok w -> (j < 6)%nat ->
  ∃ w', update_robot_action link action (Some (Z.of_nat j))
          (Some (direction_name plus)) FAST_STEP_SIZE w = (Ret tt, w') ∧
        applied link j plus w w'.
Proof.
  intros Hw Hj.
  destruct (joints_ok_lookup w j Hw Hj) as (r & t & a & Hr & Ht & _ & Ot & _).
  destruct (adjusted_target_fast r t plus (moderate_lookup _ _ Hr) Ot)
    as (v & Ev & Ov).
  destruct (motor_names_lookup _ _ Hr) as [name Hn].
  destruct (joint_ok_py_int _ _ Ov) as [z Hz].
  destruct (joints_ok_lengths w Hw) as [L6 _].
  exists (adjusted link w (Z.of_nat j) j name plus FAST_STEP_SIZE v z).
  split.
  - unfold adjusted.
    by apply (update_robot_action_adjust link w action (Z.of_nat j) j L6
                (py_index_ranges_nat j Hj) r t name plus FAST_STEP_SIZE v z).
  - destruct (adjusted_grows link w (Z.of_nat j) j name plus FAST_STEP_SIZE
                r v z Hw Hr Ov) as (frame & out & Hg & Hc & Hi).
    constructor.
    + by eapply adjusted_joints_ok.
    + by exists frame, out.
    + by exists r, t, v.
Qed.

(** * Key events *)

Lemma press_fresh k w :
  k ∉ keys_pressed w -> press k w = set_keys_pressed (keys_pressed w ++ [k]) w.
Proof. intros H. unfold press. by rewrite bool_decide_eq_false_2. Qed.

Lemma keydown_fresh link now k (j : nat) plus w :
  joints_ok w ->
  key_mapping !! k = Some (Z.of_nat j, direction_name plus) ->
  k ∉ keys_pressed w ->
  ∃ w', handle_event link now (KEYDOWN k) w
        = (Ret tt, schedule k (now + KEY_REPEAT_DELAY) w') ∧
        applied link j plus (press k w) w'.
Proof.
  intros Hw Hk Hfresh.
  destruct (key_mapping_valid _ _ _ Hk) as (j' & plus' & Ej & Hj & _ & Hesc).
  apply Nat2Z.inj in Ej as <-.
  assert (Hw1 : joints_ok (press k w)).
  { rewrite press_fresh by done. by apply (joints_ok_same w). }
  destruct (update_robot_action_fast link (press k w)
              (motor_label (Z.of_nat j)) j plus Hw1 Hj) as (w' & Ew' & Ha).
  exists w'. split; [|done].
  unfold handle_event. rewrite bool_decide_eq_false_2 by done.
  rewrite (bind_eval _ _ w (keys_pressed w) w) by done.
  rewrite Hk. rewrite bool_decide_eq_false_2 by done.
  rewrite (bind_eval _ _ w tt (press k w)) by done.
  by rewrite (bind_eval _ _ _ _ _ Ew').
Qed.

Lemma keydown_ignored link now k w :
  key_mapping !! k = None ∨ k ∈ keys_pressed w ->
  handle_event link now (KEYDOWN k) w
  = (Ret tt, if bool_decide (k = K_ESCAPE) then set_running false w else w).
Proof.
  intros H. unfold handle_event. case_bool_decide; [done|].
  rewrite (bind_eval _ _ w (keys_pressed w) w) by done.
  destruct (key_mapping !! k) as [[i d]|] eqn:Ek; [|done].
  destruct H as [H|H]; [done|]. by rewrite bool_decide_eq_true_2.
Qed.

(** * The repeat pass over the held keys *)

Lemma repeat_key_idle link now k w :
  fires now w k = None -> repeat_key link now k w = (Ret tt, w).
Proof.
  unfold fires, repeat_key. destruct (key_mapping !! k) as [[i d]|]; [|done].
  rewrite (bind_eval _ _ w (last_command_time w) w) by done.
  by case_bool_decide.
Qed.

Lemma repeat_key_fires link now k (j : nat) plus w :
  joints_ok w ->
  key_mapping !! k = Some (Z.of_nat j, direction_name plus) ->
  default 0 (last_command_time w !! k) <= now ->
  fires now w k = Some (Z.of_nat j, plus) ∧
  ∃ w', repeat_key link now k w
        = (Ret tt, schedule k (now + KEY_REPEAT_INTERVAL) w') ∧
        applied link j plus w w'.
Proof.
  intros Hw Hk Hdue.
  destruct (key_mapping_valid _ _ _ Hk) as (j' & plus' & Ej & Hj & _ & Hesc).
  apply Nat2Z.inj in Ej as <-.
  split.
  { unfold fires. rewrite Hk, bool_decide_eq_true_2 by done.
    by destruct plus. }
  destruct (update_robot_action_fast link w
              (motor_label (Z.of_nat j)) j plus Hw Hj) as (w' & Ew' & Ha).
  exists w'. split; [|done].
  unfold repeat_key. rewrite Hk.
  rewrite (bind_eval _ _ w (last_command_time w) w) by done.
  rewrite bool_decide_eq_true_2 by done.
  by rewrite (bind_eval _ _ _ _ _ Ew').
Qed.

(** * Ticks: traffic and output only grow, one frame per intent *)

Lemma extends_refl w : extends w w.
Proof. exists [], []. by rewrite !app_nil_r. Qed.

Lemma extends_same w w' :
  serial_io w' = serial_io w -> stdout w' = stdout w -> extends w w'.
Proof. intros H1 H2. exists [], []. by rewrite !app_nil_r. Qed.

Lemma extends_trans w1 w2 w3 : extends w1 w2 -> extends w2 w3 -> extends w1 w3.
Proof.
  intros (f1 & o1 & S1 & O1 & L1) (f2 & o2 & S2 & O2 & L2).
  exists (f1 ++ f2), (o1 ++ o2). rewrite S2, S1, O2, O1, <- !app_assoc.
  split; [done|]. split; [done|].
  rewrite intents_app, !length_app. lia.
Qed.

Lemma applied_extends link j plus w w' : applied link j plus w w' -> extends w w'.
Proof.
  intros [_ (frame & out & Hg & Hi & _) _].
  exists [(frame, link (length (serial_io w)))], out.
  split; [apply Hg|]. split; [apply Hg|]. by rewrite Hi.
Qed.

Lemma handle_event_ok link now ev w :
  joints_ok w ->
  ∃ w', handle_event link now ev w = (Ret tt, w') ∧ joints_ok w' ∧ extends w w'.
Proof.
  intros Hw. destruct ev as [|k|k|].
  - exists (set_running false w). split; [done|]. split; [done|].
    by apply extends_same.
  - destruct (key_mapping !! k) as [[i d]|] eqn:Ek.
    + destruct (decide (k ∈ keys_pressed w)) as [Hin|Hout].
      * rewrite keydown_ignored by auto. eexists. split; [done|].
        case_bool_decide; (split; [done|]); by apply extends_same.
      * destruct (key_mapping_valid _ _ _ Ek) as (j & plus & -> & Hj & -> & _).
        destruct (keydown_fresh link now k j plus w Hw Ek Hout)
          as (w' & -> & Ha).
        eexists. split; [done|]. split.
        -- apply (joints_ok_same w'); [done|done|]. apply Ha.
        -- apply extends_trans with (press k w).
           { rewrite press_fresh by done. by apply extends_same. }
           apply extends_trans with w'; [by eapply applied_extends|].
           by apply extends_same.
    + rewrite keydown_ignored by auto. eexists. split; [done|].
      case_bool_decide; (split; [done|]); by apply extends_same.
  - exists (release k w). split; [done|]. split; [done|]. by apply extends_same.
  - exists w. split; [done|]. split; [done|]. apply extends_refl.
Qed.

Lemma events_ok link now evs : ∀ w,
  joints_ok w ->
  ∃ w', for_each evs (handle_event link now) w = (Ret tt, w') ∧
        joints_ok w' ∧ extends w w'.
Proof.
  induction evs as [|ev evs IH]; intros w Hw.
  - exists w. split; [done|]. split; [done|]. apply extends_refl.
  - destruct (handle_event_ok link now ev w Hw) as (w1 & E1 & Hw1 & X1).
    destruct (IH w1 Hw1) as (w2 & E2 & Hw2 & X2).
    exists w2. split; [|split; [done|by eapply extends_trans]].
    simpl. by rewrite (bind_eval _ _ _ _ _ E1).
Qed.

Lemma fires_times now w w' k :
  last_command_time w' !! k = last_command_time w !! k ->
  fires now w' k = fires now w k.
Proof. intros H. unfold fires. by rewrite H. Qed.

Lemma omap_fires_ext now w w' (keys : list Z) :
  (∀ k, k ∈ keys -> last_command_time w' !! k = last_command_time w !! k) ->
  omap (fires now w') keys = omap (fires now w) keys.
Proof.
  induction keys as [|k keys IH]; intros H; [done|]. csimpl.
  rewrite (fires_times now w w' k) by (apply H; left).
  rewrite IH; [done|]. intros. apply H. by right.
Qed.

(** The pass over the held keys: every due key fires once, in the order
    the keys were pressed, and is rescheduled; the others are left alone. *)
Lemma repeat_pass link now (keys : list Z) : ∀ w,
  joints_ok w -> NoDup keys ->
  ∃ w' out,
    for_each keys (repeat_key link now) w = (Ret tt, w') ∧
    joints_ok w' ∧ extends w w' ∧
    stdout w' = stdout w ++ out ∧
    intents out = omap (fires now w) keys ∧
    keys_pressed w' = keys_pressed w ∧
    motor_angles w' = motor_angles w ∧
    running w' = running w ∧
    ∀ k, last_command_time w' !! k
         = if bool_decide (k ∈ keys ∧ is_Some (fires now w k))
           then Some (now + KEY_REPEAT_INTERVAL)
           else last_command_time w !! k.
Proof.
  induction keys as [|k keys IH]; intros w Hw Hnd.
  { exists w, []. rewrite app_nil_r. do 2 (split; [done|]).
    split; [apply extends_refl|]. do 5 (split; [done|]).
    intros k. rewrite bool_decide_eq_false_2; [done|].
    intros [H _]. by apply elem_of_nil in H. }
  apply NoDup_cons in Hnd as [Hk Hnd].
  destruct (fires now w k) as [[i b]|] eqn:Ef.
  - (* the key is due *)
    assert (∃ (j : nat) plus, key_mapping !! k
                = Some (Z.of_nat j, direction_name plus) ∧
              default 0 (last_command_time w !! k) <= now ∧
              i = Z.of_nat j ∧ b = plus) as (j & plus & Hmap & Hdue & -> & ->).
    { unfold fires in Ef. destruct (key_mapping !! k) as [[i' d]|] eqn:Ek; [|done].
      destruct (key_mapping_valid _ _ _ Ek) as (j & plus & -> & _ & -> & _).
      case_bool_decide; [|done]. injection Ef as <- <-.
      exists j, plus. by destruct plus. }
    destruct (repeat_key_fires link now k j plus w Hw Hmap Hdue)
      as (_ & w1 & E1 & Ha).
    set (w1' := schedule k (now + KEY_REPEAT_INTERVAL) w1) in *.
    assert (Hw1 : joints_ok w1').
    { apply (joints_ok_same w1); [done|done|apply Ha]. }
    destruct (applied_grows _ _ _ _ _ Ha) as (frame & out1 & Hg & Hi & _).
    destruct (IH w1' Hw1 Hnd)
      as (w2 & out2 & E2 & Hw2 & X2 & O2 & I2 & K2 & A2 & R2 & T2).
    assert (Hother : ∀ x, x ≠ k ->
              last_command_time w1' !! x = last_command_time w !! x).
    { intros x Hx. simpl. rewrite lookup_insert_ne by done.
      by rewrite (grows_times _ _ _ _ Hg). }
    exists w2, (out1 ++ out2).
    split; [simpl; by rewrite (bind_eval _ _ _ _ _ E1)|].
    split; [done|]. split.
    { apply extends_trans with w1'; [|done].
      apply extends_trans with w1; [by eapply applied_extends|].
      by apply extends_same. }
    split; [rewrite O2; simpl; by rewrite (grows_stdout _ _ _ _ Hg), app_assoc|].
    split.
    { rewrite intents_app, Hi, I2. csimpl. rewrite Ef. csimpl. f_equal.
      apply omap_fires_ext. intros x Hx. apply Hother. by intros ->. }
    split; [rewrite K2; simpl; apply Hg|].
    split; [rewrite A2; simpl; apply Hg|].
    split; [rewrite R2; simpl; apply Hg|].
    intros x. rewrite T2. destruct (decide (x = k)) as [->|Hx].
    + rewrite (bool_decide_eq_false_2 (k ∈ keys ∧ _)) by (by intros [? _]).
      rewrite bool_decide_eq_true_2; [simpl; by rewrite lookup_insert_eq|].
      split; [left|]. by rewrite Ef.
    + rewrite (fires_times now w w1' x) by (by apply Hother).
      rewrite Hother by done.
      rewrite (bool_decide_ext (x ∈ keys ∧ is_Some (fires now w x))
                 (x ∈ k :: keys ∧ is_Some (fires now w x))); [done|].
      rewrite elem_of_cons. tauto.
  - (* the key is not due *)
    destruct (IH w Hw Hnd)
      as (w2 & out2 & E2 & Hw2 & X2 & O2 & I2 & K2 & A2 & R2 & T2).
    exists w2, out2.
    split; [simpl; by rewrite (bind_eval _ _ _ _ _
                                 (repeat_key_idle link now k w Ef))|].
    do 3 (split; [done|]).
    split; [csimpl; by rewrite Ef|]. do 3 (split; [done|]).
    intros x. rewrite T2.
    rewrite (bool_decide_ext (x ∈ keys ∧ is_Some (fires now w x))
               (x ∈ k :: keys ∧ is_Some (fires now w x))); [done|].
    rewrite elem_of_cons. split; [tauto|].
    intros [[->|H] Hs]; [|done]. rewrite Ef in Hs. by destruct Hs.
Qed.

Lemma repeat_key_ok link now k w :
  joints_ok w ->
  ∃ w', repeat_key link now k w = (Ret tt, w') ∧ joints_ok w' ∧ extends w w'.
Proof.
  intros Hw. destruct (fires now w k) as [[i b]|] eqn:Ef.
  - unfold fires in Ef.
    destruct (key_mapping !! k) as [[i' d]|] eqn:Ek; [|done].
    destruct (key_mapping_valid _ _ _ Ek) as (j & plus & -> & _ & -> & _).
    case_bool_decide as Hdue; [|done].
    destruct (repeat_key_fires link now k j plus w Hw Ek Hdue)
      as (_ & w1 & -> & Ha).
    eexists. split; [done|]. split.
    + apply (joints_ok_same w1); [done|done|apply Ha].
    + apply extends_trans with w1; [by eapply applied_extends|].
      by apply extends_same.
  - rewrite (repeat_key_idle link now k w Ef).
    exists w. split; [done|]. split; [done|]. apply extends_refl.
Qed.

Lemma repeat_keys_ok link now (keys : list Z) : ∀ w,
  joints_ok w ->
  ∃ w', for_each keys (repeat_key link now) w = (Ret tt, w') ∧
        joints_ok w' ∧ extends w w'.
Proof.
  induction keys as [|k keys IH]; intros w Hw.
  - exists w. split; [done|]. split; [done|]. apply extends_refl.
  - destruct (repeat_key_ok link now k w Hw) as (w1 & E1 & Hw1 & X1).
    destruct (IH w1 Hw1) as (w2 & E2 & Hw2 & X2).
    exists w2. split; [|split; [done|by eapply extends_trans]].
    simpl. by rewrite (bind_eval _ _ _ _ _ E1).
Qed.

Lemma loop_body_ok link now evs w :
  joints_ok w ->
  ∃ w', loop_body link now evs w = (Ret tt, w') ∧ joints_ok w' ∧ extends w w'.
Proof.
  intros Hw. unfold loop_body.
  destruct (events_ok link now evs w Hw) as (w1 & E1 & Hw1 & X1).
  destruct (repeat_keys_ok link now (keys_pressed w1) w1 Hw1)
    as (w2 & E2 & Hw2 & X2).
  destruct (update_motor_angles_ok w2 Hw2) as (cs & E3 & _ & Hw3).
  exists (set_motor_angles cs w2).
  split; [|split; [done|]].
  - rewrite (bind_eval _ _ _ _ _ E1).
    rewrite (bind_eval _ _ w1 (keys_pressed w1) w1) by done.
    by rewrite (bind_eval _ _ _ _ _ E2).
  - apply extends_trans with w1; [done|].
    apply extends_trans with w2; [done|]. by apply extends_same.
Qed.

(** * The link cannot influence the control state *)

Lemma same_control_refl w : same_control w w.
Proof. by repeat split. Qed.

Lemma agree_ret {A} (a : A) : agree (mret a) (mret a).
Proof. by intros w1 w2 H. Qed.

Lemma agree_bind {A B} (m1 m2 : M A) (f1 f2 : A → M B) :
  agree m1 m2 -> (∀ a, agree (f1 a) (f2 a)) -> agree (m1 ≫= f1) (m2 ≫= f2).
Proof.
  intros Hm Hf w1 w2 H. destruct (Hm w1 w2 H) as [E S].
  unfold mbind, M_bind.
  destruct (m1 w1) as [[a1|e1] w1'], (m2 w2) as [[a2|e2] w2'];
    simpl in *; try discriminate E.
  - injection E as <-. by apply Hf.
  - injection E as ->. by split.
Qed.

Lemma agree_gets {A} (f : world → A) :
  (∀ w1 w2, same_control w1 w2 -> f w1 = f w2) -> agree (gets f) (gets f).
Proof. intros Hf w1 w2 H. simpl. split; [f_equal; by apply Hf|done]. Qed.

Lemma agree_modify (f1 f2 : world → world) :
  (∀ w1 w2, same_control w1 w2 -> same_control (f1 w1) (f2 w2)) ->
  agree (modify f1) (modify f2).
Proof. intros Hf w1 w2 H. simpl. split; [done|by apply Hf]. Qed.

Lemma agree_lift {A} (r : result A) : agree (lift r) (lift r).
Proof. by intros w1 w2 H. Qed.

Lemma agree_print l1 l2 : agree (print l1) (print l2).
Proof. apply agree_modify. by intros w1 w2 (?&?&?&?&?&?). Qed.

Lemma agree_for_each {A} (l : list A) (f1 f2 : A → M unit) :
  (∀ x, agree (f1 x) (f2 x)) -> agree (for_each l f1) (for_each l f2).
Proof.
  intros Hf. induction l as [|x l IH]; simpl.
  - apply agree_ret.
  - apply agree_bind; [apply Hf|]. by intros _.
Qed.

Lemma agree_target_at i : agree (target_at i) (target_at i).
Proof.
  apply agree_bind.
  - apply agree_gets. by intros w1 w2 (?&?&?).
  - intros ts. apply agree_lift.
Qed.

Lemma agree_angle_at i : agree (angle_at i) (angle_at i).
Proof.
  apply agree_bind.
  - apply agree_gets. by intros w1 w2 (?&?&?).
  - intros ts. apply agree_lift.
Qed.

Lemma agree_store_target i v : agree (store_target i v) (store_target i v).
Proof.
  apply agree_bind; [apply agree_gets; by intros w1 w2 (?&?&?)|].
  intros ts. apply agree_bind; [apply agree_lift|].
  intros ts'. apply agree_modify. by intros w1 w2 (?&?&?&?&?&?).
Qed.

Lemma agree_store_angle i v : agree (store_angle i v) (store_angle i v).
Proof.
  apply agree_bind; [apply agree_gets; by intros w1 w2 (?&?&?)|].
  intros ts. apply agree_bind; [apply agree_lift|].
  intros ts'. apply agree_modify. by intros w1 w2 (?&?&?&?&?&?).
Qed.

Lemma agree_smooth_joint i : agree (smooth_joint i) (smooth_joint i).
Proof.
  unfold smooth_joint.
  apply agree_bind; [apply agree_target_at|]. intros t.
  apply agree_bind; [apply agree_angle_at|]. intros a.
  apply agree_bind; [apply agree_lift|]. intros diff.
  destruct (py_gt _ _).
  - apply agree_bind; [apply agree_angle_at|]. intros a'.
    apply agree_bind; [apply agree_lift|]. intros d.
    apply agree_bind; [apply agree_lift|]. intros v.
    apply agree_store_angle.
  - apply agree_bind; [apply agree_target_at|]. intros t'.
    apply agree_store_angle.
Qed.

Lemma agree_update_motor_angles : agree update_motor_angles update_motor_angles.
Proof.
  apply agree_bind; [apply agree_gets; by intros w1 w2 (?&?&?)|].
  intros ts. apply agree_for_each. apply agree_smooth_joint.
Qed.

(** [send_command] never raises and leaves the control state alone,
    whatever the link does. *)
Lemma send_command_contained link w :
  (send_command link w).1 = Ret tt ∧ same_control (send_command link w).2 w.
Proof. rewrite send_command_eq. split; [done|]. by repeat split. Qed.

Lemma agree_send_command link1 link2 :
  agree (send_command link1) (send_command link2).
Proof.
  intros w1 w2 H. rewrite !send_command_eq. split; [done|].
  destruct H as (?&?&?&?&?&?). by repeat split.
Qed.

Lemma agree_adjustment_text i plus step :
  agree (adjustment_text i plus step) (adjustment_text i plus step).
Proof.
  unfold adjustment_text.
  apply agree_bind; [apply agree_lift|]. intros name.
  apply agree_bind; [apply agree_target_at|]. intros t.
  apply agree_bind; [apply agree_lift|]. intros shown.
  apply agree_modify. by intros w1 w2 (?&?&?&?&?&?).
Qed.

Lemma agree_update_robot_action link1 link2 action idx direction step :
  agree (update_robot_action link1 action idx direction step)
        (update_robot_action link2 action idx direction step).
Proof.
  unfold update_robot_action. apply agree_bind.
  - destruct idx as [i|].
    + apply agree_bind; [apply agree_lift|]. intros [min_val max_val].
      apply agree_bind; [|intros _; apply agree_send_command].
      repeat case_bool_decide.
      * apply agree_bind; [apply agree_target_at|]. intros t.
        apply agree_bind; [apply agree_lift|]. intros s.
        apply agree_bind; [apply agree_store_target|]. intros _.
        apply agree_adjustment_text.
      * apply agree_bind; [apply agree_target_at|]. intros t.
        apply agree_bind; [apply agree_lift|]. intros s.
        apply agree_bind; [apply agree_store_target|]. intros _.
        apply agree_adjustment_text.
      * apply agree_ret.
    + apply agree_modify. by intros w1 w2 (?&?&?&?&?&?).
  - intros _. apply agree_bind.
    + apply agree_gets. by intros w1 w2 (?&?&?&?).
    + intros t. apply agree_print.
Qed.

Lemma agree_handle_event link1 link2 now ev :
  agree (handle_event link1 now ev) (handle_event link2 now ev).
Proof.
  destruct ev as [|k|k|]; simpl.
  - apply agree_modify. by intros w1 w2 (?&?&?&?&?&?).
  - case_bool_decide.
    + apply agree_modify. by intros w1 w2 (?&?&?&?&?&?).
    + apply agree_bind; [apply agree_gets; by intros w1 w2 (?&?&?&?&?)|].
      intros held. destruct (key_mapping !! k) as [[i d]|]; [|apply agree_ret].
      case_bool_decide; [apply agree_ret|].
      apply agree_bind.
      * apply agree_modify. intros w1 w2 (?&?&?&Hk&?&?).
        unfold press. rewrite Hk. case_bool_decide; by repeat split.
      * intros _. apply agree_bind; [apply agree_update_robot_action|].
        intros _. apply agree_modify. intros w1 w2 (?&?&?&?&Ht&?).
        unfold schedule. simpl. rewrite Ht. by repeat split.
  - apply agree_modify. intros w1 w2 (?&?&?&Hk&Ht&?).
    unfold release. simpl. rewrite Hk, Ht. by repeat split.
  - apply agree_ret.
Qed.

Lemma agree_repeat_key link1 link2 now k :
  agree (repeat_key link1 now k) (repeat_key link2 now k).
Proof.
  unfold repeat_key. destruct (key_mapping !! k) as [[i d]|]; [|apply agree_ret].
  apply agree_bind; [apply agree_gets; by intros w1 w2 (?&?&?&?&?&?)|].
  intros times. case_bool_decide; [|apply agree_ret].
  apply agree_bind; [apply agree_update_robot_action|].
  intros _. apply agree_modify. intros w1 w2 (?&?&?&?&Ht&?).
  unfold schedule. simpl. rewrite Ht. by repeat split.
Qed.

Lemma agree_loop_body link1 link2 now evs :
  agree (loop_body link1 now evs) (loop_body link2 now evs).
Proof.
  unfold loop_body.
  apply agree_bind; [apply agree_for_each, agree_handle_event|]. intros _.
  apply agree_bind; [apply agree_gets; by intros w1 w2 (?&?&?&?&?)|].
  intros held.
  apply agree_bind; [apply agree_for_each, agree_repeat_key|]. intros _.
  apply agree_update_motor_angles.
Qed.

Lemma agree_main_loop link1 link2 frames :
  agree (main_loop link1 frames) (main_loop link2 frames).
Proof.
  induction frames as [|[now evs] frames IH]; simpl.
  - apply agree_ret.
  - apply agree_bind; [apply agree_gets; by intros w1 w2 (?&?&?&?&?&?)|].
    intros [|]; [|apply agree_ret].
    apply agree_bind; [apply agree_loop_body|]. by intros _.
Qed.

(** * The shape of the command frame *)

Lemma append_assoc (s1 s2 s3 : string) :
  (s1 +:+ s2) +:+ s3 = s1 +:+ s2 +:+ s3.
Proof.
  induction s1 as [|c s1 IH]; [reflexivity|].
  change (String c ((s1 +:+ s2) +:+ s3) = String c (s1 +:+ s2 +:+ s3)).
  by rewrite IH.
Qed.

Lemma count_char_app c s1 s2 :
  count_char c (s1 +:+ s2) = (count_char c s1 + count_char c s2)%nat.
Proof. induction s1 as [|c' s1 IH]; simpl; [done|]. rewrite IH. lia. Qed.

Lemma digit_not_framing c x : framing c -> Ascii.eqb c (pretty_N_char x) = false.
Proof.
  intros [->|[->| ->]]; unfold pretty_N_char;
    repeat case_match; reflexivity.
Qed.

Lemma count_pretty_N_go c x s :
  framing c -> count_char c (pretty_N_go x s) = count_char c s.
Proof.
  intros Hc. revert s. induction (N.lt_wf_0 x) as [x _ IH]; intros s.
  destruct (decide (x = 0)%N) as [->|Hx]; [done|].
  rewrite pretty_N_go_step by lia. rewrite IH.
  - simpl. by rewrite digit_not_framing.
  - apply N.div_lt; lia.
Qed.

Lemma count_pretty_N c (x : N) : framing c -> count_char c (pretty x) = 0%nat.
Proof.
  intros Hc. unfold pretty, pretty_N. case_decide.
  - by destruct Hc as [->|[->| ->]].
  - by rewrite count_pretty_N_go.
Qed.

Lemma count_pretty_Z c (z : Z) : framing c -> count_char c (pretty z) = 0%nat.
Proof.
  intros Hc. destruct z as [|p|p].
  - by destruct Hc as [->|[->| ->]].
  - by apply (count_pretty_N c (N.pos p)).
  - change (pretty (Z.neg p)) with ("-" +:+ pretty (N.pos p)).
    rewrite count_char_app, (count_pretty_N c (N.pos p)) by done.
    by destruct Hc as [->|[->| ->]].
Qed.

(** Six fields: five commas, one star, which comes last, and no newline. *)
Lemma wire_frame_shape zs :
  length zs = 6%nat ->
  ∃ body, wire_frame zs = body +:+ "*" ∧
          count_char "*" body = 0%nat ∧
          count_char "," body = 5%nat ∧
          count_char newline body = 0%nat.
Proof.
  intros Hlen.
  destruct zs as [|z0 [|z1 [|z2 [|z3 [|z4 [|z5 [|]]]]]]]; try done.
  exists (pretty z0 +:+ "," +:+ pretty z1 +:+ "," +:+ pretty z2 +:+ ","
          +:+ pretty z3 +:+ "," +:+ pretty z4 +:+ "," +:+ pretty z5).
  split.
  - unfold wire_frame. simpl. by rewrite !append_assoc.
  - rewrite !count_char_app.
    rewrite !(count_pretty_Z "*"), !(count_pretty_Z ","),
      !(count_pretty_Z newline) by (unfold framing; auto).
    done.
Qed.

(** [int] on a float drops the fraction: the result is the integer part,
    towards zero. *)
Lemma py_int_truncates k z :
  py_int (PyFloat (Fin k)) = Ret z ->
  Z.abs z * one <= Z.abs k < (Z.abs z + 1) * one ∧ 0 <= z * k.
Proof.
  intros [= <-]. pose proof one_pos as H1.
  pose proof (Z.quot_rem' k one) as Hqr.
  destruct (Z.le_gt_cases 0 k) as [Hk|Hk].
  - pose proof (Z.rem_bound_pos k one Hk H1) as Hr.
    pose proof (Z.quot_pos k one Hk H1) as Hq.
    set (q := k ÷ one) in *. set (r := Z.rem k one) in *.
    rewrite (Z.abs_eq q), (Z.abs_eq k) by lia. nia.
  - pose proof (Z.rem_bound_pos (- k) one ltac:(lia) H1) as Hr.
    pose proof (Z.quot_pos (- k) one ltac:(lia) H1) as Hq.
    rewrite Z.rem_opp_l' in Hr. rewrite Z.quot_opp_l in Hq by lia.
    set (q := k ÷ one) in *. set (r := Z.rem k one) in *.
    rewrite (Z.abs_neq q), (Z.abs_neq k) by lia. nia.
Qed.

(** * Convergence of the smoothing *)

Lemma smoothing_ticks_shift n w :
  smoothing_ticks (S n) w = smoothing_ticks n (update_motor_angles w).2.
Proof. unfold smoothing_ticks. by rewrite Nat.iter_succ_r. Qed.

Lemma update_motor_angles_keeps w :
  joints_ok w ->
  joints_ok (update_motor_angles w).2 ∧
  motor_targets (update_motor_angles w).2 = motor_targets w.
Proof.
  intros Hw. by destruct (update_motor_angles_ok w Hw) as (cs & -> & _ & Hok).
Qed.

(** Once a joint sits on its target it stays there. *)
Lemma smoothing_stable n : ∀ w (j : nat) r t,
  joints_ok w -> motor_ranges !! j = Some r ->
  motor_targets w !! j = Some t -> motor_angles w !! j = Some t ->
  motor_angles (smoothing_ticks n w) !! j = Some t.
Proof.
  induction n as [|n IH]; intros w j r t Hw Hr Ht Ha; [done|].
  rewrite smoothing_ticks_shift.
  destruct (update_motor_angles_keeps w Hw) as [Hw1 Ht1].
  destruct (smoothing_joint_step w j r t t Hw Hr Ht Ha)
    as (c & Ec & _ & _ & _ & Hsnap & _).
  rewrite Hsnap in Ec by (rewrite Z.sub_diag; simpl; pose proof half_pow;
                          pose proof (pow2_pos 1073); lia).
  apply (IH _ j r t); [done|done|by rewrite Ht1|done].
Qed.

(** Every pass that does not reach the target closes in by at least
    [2^1068] units: the target is reached after finitely many passes. *)
Lemma smoothing_reaches m : ∀ w (j : nat) r t a,
  joints_ok w -> motor_ranges !! j = Some r ->
  motor_targets w !! j = Some t -> motor_angles w !! j = Some a ->
  Z.abs (value t - value a) < Z.of_nat m * 2 ^ 1068 ->
  motor_angles (smoothing_ticks m w) !! j = Some t.
Proof.
  pose proof (pow2_pos 1068 ltac:(lia)) as Hp.
  induction m as [|m IH]; intros w j r t a Hw Hr Ht Ha Hgap; [lia|].
  rewrite smoothing_ticks_shift.
  destruct (update_motor_angles_keeps w Hw) as [Hw1 Ht1].
  destruct (smoothing_joint_step w j r t a Hw Hr Ht Ha)
    as (c & Ec & _ & _ & _ & _ & [->|Hstep]).
  - apply (smoothing_stable m _ j r t); [done|done|by rewrite Ht1|done].
  - apply (IH _ j r t c); [done|done|by rewrite Ht1|done|lia].
Qed.

(** * Which key an intent comes from *)

Lemma fires_mapped now w k (j : nat) plus :
  key_mapping !! k = Some (Z.of_nat j, direction_name plus) ->
  fires now w k
  = if bool_decide (default 0 (last_command_time w !! k) <= now)
    then Some (Z.of_nat j, plus) else None.
Proof.
  intros Hk. unfold fires. rewrite Hk. case_bool_decide; [|done].
  by destruct plus.
Qed.

Lemma fires_key now w k k' (j : nat) plus :
  key_mapping !! k = Some (Z.of_nat j, direction_name plus) ->
  fires now w k' = Some (Z.of_nat j, plus) -> k' = k.
Proof.
  intros Hk Hf. unfold fires in Hf.
  destruct (key_mapping !! k') as [[i' d']|] eqn:Ek'; [|done].
  destruct (key_mapping_valid _ _ _ Ek') as (j' & plus' & -> & _ & -> & _).
  case_bool_decide; [|done].
  assert (bool_decide (direction_name plus' = "increase") = plus') as E
    by (by destruct plus').
  rewrite E in Hf. injection Hf as Hj <-. apply Nat2Z.inj in Hj as ->.
  by eapply key_mapping_inj.
Qed.

Lemma count_fires now w (keys : list Z) k (j : nat) plus :
  NoDup keys ->
  key_mapping !! k = Some (Z.of_nat j, direction_name plus) ->
  length (filter (λ x, x = (Z.of_nat j, plus)) (omap (fires now w) keys))
  = if bool_decide (k ∈ keys ∧ default 0 (last_command_time w !! k) <= now)
    then 1%nat else 0%nat.
Proof.
  intros Hnd Hk. induction keys as [|k' keys IH].
  { rewrite bool_decide_eq_false_2; [done|].
    intros [H _]. by apply elem_of_nil in H. }
  apply NoDup_cons in Hnd as [Hk' Hnd]. specialize (IH Hnd). csimpl.
  destruct (decide (k' = k)) as [->|Hne].
  - rewrite (fires_mapped now w k j plus Hk).
    rewrite bool_decide_eq_false_2 in IH by (by intros [? _]).
    case_bool_decide as Hdue.
    + rewrite filter_cons_True by done. simpl. rewrite IH.
      rewrite bool_decide_eq_true_2; [done|]. split; [left|done].
    + rewrite IH. rewrite bool_decide_eq_false_2; [done|]. by intros [_ ?].
  - rewrite (bool_decide_ext (k ∈ k' :: keys ∧ _)
               (k ∈ keys ∧ default 0 (last_command_time w !! k) <= now)).
    2:{ rewrite elem_of_cons. split; [|tauto]. intros [[->|?] ?]; done. }
    destruct (fires now w k') as [v|] eqn:Ef; [|done].
    rewrite filter_cons_False; [done|].
    intros ->. apply Hne. by eapply fires_key.
Qed.

(** * The properties of the specification *)

Lemma initial_world_ok : joints_ok initial_world.
Proof.
  split; repeat constructor; vm_compute; reflexivity.
Qed.

Lemma sample_calls_admissible : Forall admissible sample_calls.
Proof.
  repeat constructor; try (simpl; lia); vm_compute; reflexivity.
Qed.

(** C1. For every joint and every sequence of adjustments (increase or
    decrease, any non-negative step) and smoothing passes that starts with
    targets and currents inside their ranges, every target and every current
    stays inside its joint's range; an adjustment stores the clamped value
    [min(max, target + step)] or [max(min, target - step)], and a smoothing
    pass leaves the current between its old value and the target. *)
Theorem joints_stay_in_range link (cs : list call) (w : world) :
  joints_ok w -> Forall admissible cs ->
  joints_ok (do_calls link cs w) ∧
  (∀ (j : nat) plus step r t v,
     motor_ranges !! j = Some r -> motor_targets w !! j = Some t ->
     py_le (PyInt 0) step = true ->
     adjusted_target r t plus step = Ret v ->
     joint_ok r v ∧
     motor_targets (do_call link (Adjust j plus step) w).2
     = <[j:=v]> (motor_targets w)) ∧
  (∀ (j : nat) r t a,
     motor_ranges !! j = Some r -> motor_targets w !! j = Some t ->
     motor_angles w !! j = Some a ->
     ∃ c, motor_angles (do_call link Smooth w).2 !! j = Some c ∧
          Z.min (value a) (value t) <= value c <= Z.max (value a) (value t)).
Proof.
  intros Hw Hcs. split; [by apply do_calls_ok|]. split.
  - intros j plus step r t v Hr Ht Hs Hv.
    assert (Hj : (j < 6)%nat) by (by apply lookup_lt_Some in Hr).
    destruct (Forall2_lookup_l _ _ _ _ _ (proj1 Hw) Hr) as (t' & Et & Ot).
    rewrite Ht in Et. injection Et as <-.
    assert (Ov : joint_ok r v).
    { destruct (adjusted_target_ok r t plus step (moderate_lookup _ _ Hr) Ot Hs)
        as [E'|(v' & E' & Ov)]; rewrite Hv in E'; [discriminate E'|].
      by injection E' as <-. }
    split; [done|].
    destruct (motor_names_lookup _ _ Hr) as [name Hn].
    destruct (joint_ok_py_int _ _ Ov) as [z Hz].
    destruct (joints_ok_lengths w Hw) as [L6 _].
    simpl.
    by rewrite (update_robot_action_adjust link w _ (Z.of_nat j) j L6
                  (py_index_ranges_nat j Hj) r t name plus step v z).
  - intros j r t a Hr Ht Ha.
    destruct (smoothing_joint_step w j r t a Hw Hr Ht Ha)
      as (c & Ec & _ & Hb & _).
    by exists c.
Qed.

Lemma joints_stay_in_range_witness :
  joints_ok initial_world ∧ Forall admissible sample_calls ∧
  joints_ok (do_calls quiet sample_calls initial_world).
Proof.
  split; [exact initial_world_ok|]. split; [exact sample_calls_admissible|].
  exact (proj1 (joints_stay_in_range quiet sample_calls initial_world
                  initial_world_ok sample_calls_admissible)).
Defined.

(** C2. The command encoder, applied to the six targets, hands to the
    serial port exactly the six values truncated (not rounded) to integers,
    in decimal, in joint order, separated by single commas and closed by one
    star with no newline; the targets [1,2,3,4,5,6] give ["1,2,3,4,5,6*"]. *)
Theorem command_frame_format link (w : world) (zs : list Z) :
  Forall2 (λ t z, py_int t = Ret z) (motor_targets w) zs ->
  length zs = 6%nat ->
  (* the frame written is the join of the six integers *)
  (send_command link w).1 = Ret tt ∧
  serial_io (send_command link w).2
  = serial_io w ++ [(wire_frame zs, link (length (serial_io w)))] ∧
  (* five commas, one star, which is the last character, no newline *)
  (∃ body, wire_frame zs = body +:+ "*" ∧ count_char "*" body = 0%nat ∧
           count_char "," body = 5%nat ∧ count_char newline body = 0%nat) ∧
  (* each integer is the value with its fraction dropped, towards zero *)
  (∀ n, py_int (PyInt n) = Ret n) ∧
  (∀ k z, py_int (PyFloat (Fin k)) = Ret z ->
          Z.abs z * one <= Z.abs k < (Z.abs z + 1) * one ∧ 0 <= z * k) ∧
  py_int (PyFloat (Fin (11 * 2 ^ 1072))) = Ret 2 ∧
  py_int (PyFloat (Fin (- 11 * 2 ^ 1072))) = Ret (- 2) ∧
  command_of (PyInt <$> [1; 2; 3; 4; 5; 6]) = Ret "1,2,3,4,5,6*".
Proof.
  intros Hz Hlen. rewrite send_command_eq. simpl.
  rewrite (command_of_frame _ _ Hz Hlen). simpl.
  split; [done|]. split; [done|]. split; [by apply wire_frame_shape|].
  split; [done|]. split; [apply py_int_truncates|].
  split; [vm_compute; reflexivity|]. split; vm_compute; reflexivity.
Qed.

Lemma command_frame_format_witness :
  serial_io (send_command quiet counting_world).2
  = [("1,2,3,4,5,6*", Written NothingWaiting)].
Proof.
  assert (H : Forall2 (λ t z, py_int t = Ret z)
                (motor_targets counting_world) [1; 2; 3; 4; 5; 6])
    by (repeat constructor).
  destruct (command_frame_format quiet counting_world [1; 2; 3; 4; 5; 6]
              H eq_refl) as (_ & E & _).
  rewrite E. vm_compute. reflexivity.
Defined.

(** C3. One call of the smoothing pass replaces every joint's current
    position by the rule applied to that joint's own target and current:
    with [diff = target - current], [current + diff * 0.1] when
    [|diff| > 0.5] and the target itself otherwise; nothing else of the
    state changes. *)
Theorem tick_smoothing_follows_rule (w : world) (cs : list pynum) :
  Forall3 (λ t a c, tick_smoothing_rule t a = Ret c)
          (motor_targets w) (motor_angles w) cs ->
  update_motor_angles w = (Ret tt, set_motor_angles cs w).
Proof. apply update_motor_angles_rule. Qed.

Lemma tick_smoothing_follows_rule_witness :
  Forall3 (λ t a c, tick_smoothing_rule t a = Ret c)
    (motor_targets counting_world) (motor_angles counting_world)
    counting_smoothed ∧
  update_motor_angles counting_world
  = (Ret tt, set_motor_angles counting_smoothed counting_world).
Proof.
  assert (H : Forall3 (λ t a c, tick_smoothing_rule t a = Ret c)
    (motor_targets counting_world) (motor_angles counting_world)
    counting_smoothed)
    by (repeat constructor; vm_compute; reflexivity).
  split; [exact H|].
  exact (tick_smoothing_follows_rule counting_world _ H).
Defined.

(** C4. With the target held fixed and the current anywhere inside the
    range, every smoothing pass moves the current strictly closer to the
    target as long as it differs from it, never past it; once the gap is at
    most 0.5 the current is the target exactly, it then stays there, and
    this happens after finitely many passes. *)
Theorem smoothing_converges (w : world) (n : nat) (j : nat) r t :
  joints_ok w -> motor_ranges !! j = Some r ->
  motor_targets w !! j = Some t ->
  let before := smoothing_ticks n w in
  let after := smoothing_ticks (S n) w in
  update_motor_angles before = (Ret tt, after) ∧
  motor_targets after = motor_targets w ∧
  (∃ c c', motor_angles before !! j = Some c ∧
           motor_angles after !! j = Some c' ∧
           joint_ok r c' ∧
           (value c ≠ value t ->
            Z.abs (value t - value c') < Z.abs (value t - value c)) ∧
           Z.min (value c) (value t) <= value c' <= Z.max (value c) (value t) ∧
           (Z.abs (value t - value c) <= half -> c' = t) ∧
           (c = t -> c' = t)) ∧
  ∃ N, ∀ m, (N <= m)%nat -> motor_angles (smoothing_ticks m w) !! j = Some t.
Proof.
  intros Hw Hr Ht before after.
  destruct (smoothing_ticks_ok n w Hw) as [Hb Htb]. fold before in Hb, Htb.
  destruct (update_motor_angles_ok before Hb) as (cs & E & _ & Ha).
  assert (Eafter : after = (update_motor_angles before).2) by done.
  split; [rewrite Eafter, E; done|].
  split; [rewrite Eafter, E; simpl; done|].
  split.
  - assert (Hj : (j < 6)%nat) by (by apply lookup_lt_Some in Hr).
    destruct (joints_ok_lookup before j Hb Hj) as (r' & t' & c & Hr' & Ht' & Hc & _).
    rewrite Hr in Hr'. injection Hr' as <-.
    rewrite Htb, Ht in Ht'. injection Ht' as <-.
    destruct (smoothing_joint_step before j r t c Hb Hr
                ltac:(by rewrite Htb) Hc)
      as (c' & Ec' & Oc' & Hbetween & Hcloser & Hsnap & _).
    exists c, c'. rewrite Eafter. do 5 (split; [done|]).
    split; [done|]. intros ->. apply Hsnap.
    rewrite Z.sub_diag. simpl. pose proof half_pow.
    pose proof (pow2_pos 1073). lia.
  - assert (Hj : (j < 6)%nat) by (by apply lookup_lt_Some in Hr).
    destruct (joints_ok_lookup w j Hw Hj) as (r' & t' & a & Hr' & Ht' & Ha' & _).
    rewrite Hr in Hr'. injection Hr' as <-.
    rewrite Ht in Ht'. injection Ht' as <-.
    pose proof (pow2_pos 1068 ltac:(lia)) as Hp.
    set (N := Z.to_nat (Z.abs (value t - value a) / 2 ^ 1068 + 1)).
    assert (HN : Z.abs (value t - value a) < Z.of_nat N * 2 ^ 1068).
    { unfold N. rewrite Z2Nat.id.
      - pose proof (Z.div_mod (Z.abs (value t - value a)) (2 ^ 1068) ltac:(lia)).
        pose proof (Z.mod_pos_bound (Z.abs (value t - value a)) (2 ^ 1068) Hp).
        lia.
      - pose proof (Z.div_pos (Z.abs (value t - value a)) (2 ^ 1068)
                      ltac:(lia) Hp). lia. }
    exists N. intros m Hm.
    replace m with ((m - N) + N)%nat by lia.
    unfold smoothing_ticks. rewrite Nat.iter_add.
    fold (smoothing_ticks N w).
    pose proof (smoothing_reaches N w j r t a Hw Hr Ht Ha' HN) as Hreached.
    destruct (smoothing_ticks_ok N w Hw) as [HwN HtN].
    apply (smoothing_stable (m - N) _ j r t); [done|done| |done].
    by rewrite HtN.
Qed.

Lemma far_world_ok : joints_ok far_world.
Proof. split; repeat constructor; vm_compute; reflexivity. Qed.

Lemma smoothing_converges_witness :
  joints_ok far_world ∧ motor_ranges !! 0%nat = Some (0, 1023) ∧
  motor_targets far_world !! 0%nat = Some (PyInt 1000) ∧
  ∃ N, ∀ m, (N <= m)%nat ->
    motor_angles (smoothing_ticks m far_world) !! 0%nat = Some (PyInt 1000).
Proof.
  split; [exact far_world_ok|]. split; [reflexivity|]. split; [reflexivity|].
  exact (proj2 (proj2 (proj2
    (smoothing_converges far_world 0 0 (0, 1023) (PyInt 1000)
       far_world_ok eq_refl eq_refl)))).
Defined.

(** C5. For every mapped key: a key-down while the key is not held emits
    exactly one intent at once and schedules the next one at
    [now + KEY_REPEAT_DELAY]; on each tick while it is held the key emits an
    intent exactly when the tick time has reached the scheduled time, and is
    then rescheduled at [now + KEY_REPEAT_INTERVAL]; a key-up removes the
    held entry and the scheduled time, and no intent comes from that key
    while it is not held. *)
Theorem key_repeat_schedule link now k (j : nat) plus (w : world) :
  joints_ok w -> NoDup (keys_pressed w) ->
  key_mapping !! k = Some (Z.of_nat j, direction_name plus) ->
  (* key-down while not held *)
  (k ∉ keys_pressed w ->
   let res := handle_event link now (KEYDOWN k) w in
   res.1 = Ret tt ∧ keys_pressed res.2 = keys_pressed w ++ [k] ∧
   last_command_time res.2
   = <[k := now + KEY_REPEAT_DELAY]> (last_command_time w) ∧
   ∃ out, stdout res.2 = stdout w ++ out ∧ intents out = [(Z.of_nat j, plus)]) ∧
  (* the repeat pass of a tick *)
  (let res := for_each (keys_pressed w) (repeat_key link now) w in
   let due := default 0 (last_command_time w !! k) <= now in
   res.1 = Ret tt ∧
   ∃ out, stdout res.2 = stdout w ++ out ∧
     length (filter (λ x, x = (Z.of_nat j, plus)) (intents out))
     = (if bool_decide (k ∈ keys_pressed w ∧ due) then 1%nat else 0%nat) ∧
     last_command_time res.2 !! k
     = (if bool_decide (k ∈ keys_pressed w ∧ due)
        then Some (now + KEY_REPEAT_INTERVAL)
        else last_command_time w !! k) ∧
     keys_pressed res.2 = keys_pressed w) ∧
  (* key-up *)
  (let res := handle_event link now (KEYUP k) w in
   res.1 = Ret tt ∧ (k ∉ keys_pressed res.2) ∧
   last_command_time res.2 !! k = None ∧ stdout res.2 = stdout w).
Proof.
  intros Hw Hnd Hk. split; [|split].
  - intros Hfresh.
    destruct (keydown_fresh link now k j plus w Hw Hk Hfresh) as (w' & E & Ha).
    cbv zeta. rewrite E. unfold schedule. simpl.
    destruct (applied_grows _ _ _ _ _ Ha) as (frame & out & Hg & Hi & _).
    split; [done|]. split.
    { rewrite (grows_keys _ _ _ _ Hg). by rewrite press_fresh. }
    split.
    { rewrite (grows_times _ _ _ _ Hg). by rewrite press_fresh. }
    exists out. split; [|done].
    rewrite (grows_stdout _ _ _ _ Hg). by rewrite press_fresh.
  - destruct (repeat_pass link now (keys_pressed w) w Hw Hnd)
      as (w' & out & E & _ & _ & Hout & Hi & Hkeys & _ & _ & Htimes).
    cbv zeta. rewrite E. simpl. split; [done|].
    exists out. split; [done|]. split.
    { rewrite Hi. by apply count_fires. }
    split; [|done].
    rewrite Htimes, (fires_mapped now w k j plus Hk).
    rewrite (bool_decide_ext _
               (k ∈ keys_pressed w
                ∧ default 0 (last_command_time w !! k) <= now)); [done|].
    split.
    + intros [Hin Hs]. split; [done|]. case_bool_decide; [done|].
      by destruct Hs.
    + intros [Hin Hdue]. split; [done|]. by rewrite bool_decide_eq_true_2.
  - simpl. split; [done|]. split.
    { intros Hin. apply list_elem_of_filter in Hin as [Hne _]. by apply Hne. }
    split; [apply lookup_delete_eq|done].
Qed.

Lemma holding_q_ok : joints_ok holding_q ∧ NoDup (keys_pressed holding_q).
Proof.
  split.
  - unfold holding_q.
    by destruct (loop_body_ok quiet 0 [KEYDOWN K_q] initial_world
                   initial_world_ok) as (w' & -> & Hok & _).
  - assert (keys_pressed holding_q = [K_q]) as -> by (vm_compute; reflexivity).
    apply NoDup_singleton.
Qed.

Lemma key_repeat_schedule_witness :
  joints_ok holding_q ∧ NoDup (keys_pressed holding_q) ∧
  key_mapping !! K_q = Some (Z.of_nat 0, direction_name true) ∧
  (handle_event quiet 64 (KEYUP K_q) holding_q).1 = Ret tt.
Proof.
  split; [exact (proj1 holding_q_ok)|]. split; [exact (proj2 holding_q_ok)|].
  split; [vm_compute; reflexivity|].
  exact (proj1 (proj2 (proj2
    (key_repeat_schedule quiet 64 K_q 0 true holding_q
       (proj1 holding_q_ok) (proj2 holding_q_ok) eq_refl)))).
Defined.

(** C6, as the specification words it, fails: with [Q] and [W] pressed in
    the same frame, two intents are applied and two frames are sent. *)
Lemma two_keys_two_frames : ¬ one_frame_per_tick.
Proof.
  intros H.
  specialize (H quiet 0 [KEYDOWN K_q; KEYDOWN K_w] initial_world
                initial_world_ok).
  assert (E : length (serial_io
                (loop_body quiet 0 [KEYDOWN K_q; KEYDOWN K_w] initial_world).2)
              = 2%nat) by (vm_compute; reflexivity).
  cbv zeta in H. rewrite E in H.
  assert (H' : 2%nat = 1%nat); [|discriminate H'].
  apply H. vm_compute. lia.
Qed.

(** C6, amended. In every tick one command frame is encoded and handed to
    the serial port for each intent applied in that tick: the traffic and
    the output only grow, and the tick adds as many frames as it applies
    intents (none when it applies none). *)
Theorem one_frame_per_intent link now events (w : world) :
  joints_ok w ->
  ∃ w' frames out,
    loop_body link now events w = (Ret tt, w') ∧ joints_ok w' ∧
    serial_io w' = serial_io w ++ frames ∧ stdout w' = stdout w ++ out ∧
    length frames = length (intents out).
Proof.
  intros Hw.
  destruct (loop_body_ok link now events w Hw)
    as (w' & E & Hok & frames & out & Hs & Ho & Hl).
  by exists w', frames, out.
Qed.

Lemma one_frame_per_intent_witness :
  joints_ok initial_world ∧
  ∃ w' frames out,
    loop_body quiet 0 [KEYDOWN K_q; KEYDOWN K_w] initial_world = (Ret tt, w') ∧
    joints_ok w' ∧
    serial_io w' = serial_io initial_world ++ frames ∧
    stdout w' = stdout initial_world ++ out ∧
    length frames = length (intents out).
Proof.
  split; [exact initial_world_ok|].
  exact (one_frame_per_intent quiet 0 [KEYDOWN K_q; KEYDOWN K_w]
           initial_world initial_world_ok).
Defined.

(** C7. A failure of the transport is caught inside [send_command]: the
    call returns normally and changes neither targets nor currents nor key
    state; over any run of the loop, the targets, the currents, the key
    state, the running flag and the way the run ends are the same whatever
    the link does, in particular the same as with a link that never fails. *)
Theorem transport_faults_are_isolated link1 link2 frames (w : world) :
  (∀ w0, (send_command link1 w0).1 = Ret tt ∧
         same_control (send_command link1 w0).2 w0) ∧
  (∀ now events,
     (loop_body link1 now events w).1 = (loop_body link2 now events w).1 ∧
     same_control (loop_body link1 now events w).2
                  (loop_body link2 now events w).2) ∧
  (main_loop link1 frames w).1 = (main_loop link2 frames w).1 ∧
  same_control (main_loop link1 frames w).2 (main_loop link2 frames w).2.
Proof.
  split; [intros w0; apply send_command_contained|]. split.
  - intros now events. apply agree_loop_body, same_control_refl.
  - apply agree_main_loop, same_control_refl.
Qed.

(** C8. A key-down for a key that is unmapped, or for a mapped key that is
    already held, emits no intent, changes no target, leaves the held keys
    and every scheduled time as they are; only the exit key is acted on, by
    clearing the running flag. *)
Theorem ignored_key_down link now k (w : world) :
  key_mapping !! k = None ∨ k ∈ keys_pressed w ->
  let res := handle_event link now (KEYDOWN k) w in
  res = (Ret tt, if bool_decide (k = K_ESCAPE) then set_running false w else w) ∧
  stdout res.2 = stdout w ∧ serial_io res.2 = serial_io w ∧
  motor_targets res.2 = motor_targets w ∧
  motor_angles res.2 = motor_angles w ∧
  keys_pressed res.2 = keys_pressed w ∧
  last_command_time res.2 = last_command_time w.
Proof.
  intros H. cbv zeta. rewrite keydown_ignored by done.
  split; [done|]. by case_bool_decide.
Qed.

Lemma ignored_key_down_witness :
  K_q ∈ keys_pressed holding_q ∧
  handle_event quiet 16 (KEYDOWN K_q) holding_q = (Ret tt, holding_q).
Proof.
  assert (H : K_q ∈ keys_pressed holding_q).
  { assert (keys_pressed holding_q = [K_q]) as -> by (vm_compute; reflexivity).
    apply list_elem_of_singleton. reflexivity. }
  split; [exact H|].
  exact (proj1 (ignored_key_down quiet 16 K_q holding_q (or_intror H))).
Defined.

(** C9, as the specification words it, fails: the index -1 is accepted and
    moves the target of joint 5. *)
Lemma negative_index_adjusts : ¬ invalid_index_is_noop.
Proof.
  intros H.
  destruct (H quiet "" (-1) (Some "increase") (PyInt 3) initial_world
              initial_world_ok ltac:(lia)) as (_ & E & _).
  vm_compute in E. discriminate E.
Qed.

(** C9, amended. An index of 6 or more, or below -6, changes nothing of the
    state but raises [IndexError], which nothing catches; an index from -6
    to -1 is not refused: it adjusts the joint [index + 6]. *)
Theorem invalid_index_behaviour link action idx (w : world) :
  ¬ (0 <= idx <= 5) ->
  (idx < - 6 ∨ 6 <= idx ->
   ∀ direction step,
     update_robot_action link action (Some idx) direction step w
     = (Raise IndexError, w)) ∧
  (- 6 <= idx < 0 -> joints_ok w ->
   ∀ plus step r t v,
     motor_ranges !! Z.to_nat (idx + 6) = Some r ->
     motor_targets w !! Z.to_nat (idx + 6) = Some t ->
     py_le (PyInt 0) step = true ->
     adjusted_target r t plus step = Ret v ->
     let res := update_robot_action link action (Some idx)
                  (Some (direction_name plus)) step w in
     res.1 = Ret tt ∧
     motor_targets res.2 = <[Z.to_nat (idx + 6) := v]> (motor_targets w) ∧
     motor_angles res.2 = motor_angles w).
Proof.
  intros Hout. split.
  - intros Hfar direction step. apply update_robot_action_index_error.
    unfold py_index. simpl.
    rewrite (bool_decide_eq_false_2 (0 <= idx < Z.of_nat 6)) by lia.
    by rewrite (bool_decide_eq_false_2 (- Z.of_nat 6 <= idx < 0)) by lia.
  - intros Hneg Hw plus step r t v Hr Ht Hs Hv.
    assert (Hidx : py_index motor_ranges idx = Some (Z.to_nat (idx + 6))).
    { unfold py_index. simpl.
      rewrite (bool_decide_eq_false_2 (0 <= idx < Z.of_nat 6)) by lia.
      rewrite (bool_decide_eq_true_2 (- Z.of_nat 6 <= idx < 0)) by lia.
      do 2 f_equal. }
    destruct (Forall2_lookup_l _ _ _ _ _ (proj1 Hw) Hr) as (t' & Et & Ot).
    rewrite Ht in Et. injection Et as <-.
    assert (Ov : joint_ok r v).
    { destruct (adjusted_target_ok r t plus step (moderate_lookup _ _ Hr) Ot Hs)
        as [E'|(v' & E' & Ov)]; rewrite Hv in E'; [discriminate E'|].
      by injection E' as <-. }
    destruct (motor_names_lookup _ _ Hr) as [name Hn].
    destruct (joint_ok_py_int _ _ Ov) as [z Hz].
    destruct (joints_ok_lengths w Hw) as [L6 _].
    cbv zeta.
    by rewrite (update_robot_action_adjust link w action idx _ L6 Hidx
                  r t name plus step v z).
Qed.

Lemma invalid_index_behaviour_witness :
  ¬ (0 <= 6 <= 5) ∧
  update_robot_action quiet "" (Some 6) (Some "increase") (PyInt 3)
    initial_world = (Raise IndexError, initial_world).
Proof.
  assert (H : ¬ (0 <= 6 <= 5)) by lia.
  split; [exact H|].
  exact (proj1 (invalid_index_behaviour quiet "" 6 initial_world H)
           (or_intror (Z.le_refl 6)) (Some "increase") (PyInt 3)).
Defined.

(** C10. A call with a valid joint index and a direction that is neither
    ["increase"] nor ["decrease"] leaves all six targets unchanged and still
    encodes them and hands the frame to the serial port. *)
Theorem other_direction_still_sends link action (j : nat) direction step
    (w : world) (zs : list Z) :
  (j < 6)%nat ->
  direction ≠ Some "increase" -> direction ≠ Some "decrease" ->
  Forall2 (λ t z, py_int t = Ret z) (motor_targets w) zs ->
  length zs = 6%nat ->
  let res := update_robot_action link action (Some (Z.of_nat j))
               direction step w in
  res.1 = Ret tt ∧ motor_targets res.2 = motor_targets w ∧
  motor_angles res.2 = motor_angles w ∧
  serial_io res.2
  = serial_io w ++ [(wire_frame zs, link (length (serial_io w)))].
Proof.
  intros Hj H1 H2 Hz Hlen.
  destruct (lookup_lt_is_Some_2 motor_ranges j Hj) as [r Hr].
  cbv zeta.
  rewrite (update_robot_action_other link w action (Z.of_nat j) j
             (py_index_ranges_nat j Hj) r direction step Hr H1 H2).
  simpl. by rewrite (command_of_frame _ _ Hz Hlen).
Qed.

Lemma other_direction_still_sends_witness :
  serial_io (update_robot_action quiet "" (Some (Z.of_nat 2)) (Some "hold")
               (PyInt 3) counting_world).2
  = [("1,2,3,4,5,6*", Written NothingWaiting)].
Proof.
  assert (H : Forall2 (λ t z, py_int t = Ret z)
                (motor_targets counting_world) [1; 2; 3; 4; 5; 6])
    by (repeat constructor).
  destruct (other_direction_still_sends quiet "" 2 (Some "hold") (PyInt 3)
              counting_world [1; 2; 3; 4; 5; 6]
              ltac:(lia) ltac:(discriminate) ltac:(discriminate) H eq_refl)
    as (_ & _ & _ & E).
  rewrite E. vm_compute. reflexivity.
Defined.

(** * The examples of the specification, run on the model *)

(** Additions, subtractions, products and conversions of sample doubles,
    subnormal, normal and overflowing, give what [SpecFloat] gives. *)
Example binary64_agrees_with_spec : agrees_with_spec = true.
Proof. vm_compute. reflexivity. Qed.

(** [512 + 3 * 0.1] is the double [512.29999999999995...]. *)
Example first_smoothing_step :
  tick_smoothing_rule (PyInt 515) (PyInt 512)
  = Ret (PyFloat (Fin (4506238455277158 * 2 ^ 1031))).
Proof. vm_compute. reflexivity. Qed.

(** Joint 1, range (512, 634): fifty increases by 3 stop at 634. *)
Example fifty_increases :
  motor_targets (do_calls quiet (replicate 50 (Adjust 1 true (PyInt 3)))
                   initial_world) !! 1%nat = Some (PyInt 634).
Proof. vm_compute. reflexivity. Qed.

(** A key-down at time 0, ticks every 16 ms: the intent of the key-down,
    the next one at 64 (the first tick at or after 50), the next at 128. *)
Example debounce_timing :
  intents_after quiet (sampled [KEYDOWN K_q] [16; 32; 48]) = [(0, true)] ∧
  intents_after quiet (sampled [KEYDOWN K_q] [16; 32; 48; 64])
  = [(0, true); (0, true)] ∧
  intents_after quiet (sampled [KEYDOWN K_q] [16; 32; 48; 64; 80; 96; 112])
  = [(0, true); (0, true)] ∧
  intents_after quiet (sampled [KEYDOWN K_q] [16; 32; 48; 64; 80; 96; 112; 128])
  = [(0, true); (0, true); (0, true)].
Proof. repeat split; vm_compute; reflexivity. Qed.

(** A key-up before the scheduled time: no further intent. *)
Example key_up_suppresses :
  intents_after quiet
    ((0, [KEYDOWN K_q]) :: (16, [KEYUP K_q]) :: (64, []) :: (128, []) :: [])
  = [(0, true)].
Proof. vm_compute. reflexivity. Qed.

(** With the link down every send is reported and the joints move as with
    a working link. *)
Example link_down :
  let w1 := (main_loop broken (sampled [KEYDOWN K_q] [16; 32]) initial_world).2 in
  let w2 := (main_loop quiet (sampled [KEYDOWN K_q] [16; 32]) initial_world).2 in
  motor_targets w1 = motor_targets w2 ∧ motor_angles w1 = motor_angles w2 ∧
  stdout w1 = [CommunicationError TransportError;
               Command (Adjusted 1 "Base" true (PyInt 3) 515)] ∧
  serial_io w2 = [("515,512,512,956,800,430*", Written NothingWaiting)].
Proof. repeat split; vm_compute; reflexivity. Qed.

(** * Invariants of the run *)

(** ** Int targets and int steps *)

Lemma py_min_int a b : py_min (PyInt a) (PyInt b) = PyInt (Z.min a b).
Proof.
  unfold py_min, py_lt. simpl. pose proof one_pos.
  destruct (Z.ltb_spec (b * one) (a * one)); f_equal; nia.
Qed.

Lemma py_max_int a b : py_max (PyInt a) (PyInt b) = PyInt (Z.max a b).
Proof.
  unfold py_max, py_gt, py_lt. simpl. pose proof one_pos.
  destruct (Z.ltb_spec (a * one) (b * one)); f_equal; nia.
Qed.

Lemma adjusted_target_int r t plus s :
  adjusted_target r (PyInt t) plus (PyInt s)
  = Ret (PyInt (if plus then Z.min r.2 (t + s) else Z.max r.1 (t - s))).
Proof.
  unfold adjusted_target. destruct plus; simpl.
  - by rewrite py_min_int.
  - by rewrite py_max_int.
Qed.

Lemma is_int_inv t : is_int t = true -> ∃ z, t = PyInt z.
Proof. destruct t; [by eexists|done]. Qed.

Lemma int_targets_lookup w (j : nat) t :
  int_targets w -> motor_targets w !! j = Some t -> ∃ z, t = PyInt z.
Proof.
  intros H Ht. apply is_int_inv.
  by apply (Forall_lookup_1 _ _ _ _ H Ht).
Qed.

Lemma applied_int link j plus w w' :
  applied link j plus w w' -> int_targets w -> int_targets w'.
Proof.
  intros [_ _ (r & t & v & Hr & Ht & Ev & Ew)] Hi.
  destruct (int_targets_lookup _ _ _ Hi Ht) as [z ->].
  unfold FAST_STEP_SIZE in Ev. rewrite adjusted_target_int in Ev.
  injection Ev as <-. unfold int_targets. rewrite Ew. by apply Forall_insert.
Qed.

Lemma int_targets_same w w' :
  motor_targets w' = motor_targets w -> int_targets w -> int_targets w'.
Proof. unfold int_targets. by intros ->. Qed.

(** ** The key state *)

Lemma keys_consistent_same w w' :
  keys_pressed w' = keys_pressed w ->
  last_command_time w' = last_command_time w ->
  keys_consistent w -> keys_consistent w'.
Proof. intros Hk Ht [H1 H2 H3]. constructor; rewrite ?Hk, ?Ht; done. Qed.

Lemma keys_consistent_press k t w w' :
  keys_consistent w -> is_Some (key_mapping !! k) -> k ∉ keys_pressed w ->
  keys_pressed w' = keys_pressed w ++ [k] ->
  last_command_time w' = <[k:=t]> (last_command_time w) ->
  keys_consistent w'.
Proof.
  intros [H1 H2 H3] Hm Hk Ek Et. constructor; rewrite ?Ek, ?Et.
  - apply NoDup_app. split; [done|]. split; [|apply NoDup_singleton].
    intros x Hx Hx'. apply list_elem_of_singleton in Hx' as ->. done.
  - intros x Hx. apply elem_of_app in Hx as [Hx|Hx]; [by apply H2|].
    by apply list_elem_of_singleton in Hx as ->.
  - intros x. rewrite elem_of_app, list_elem_of_singleton.
    destruct (decide (x = k)) as [->|Hx].
    + rewrite lookup_insert_eq. split; [by right|by eexists].
    + rewrite lookup_insert_ne by done. rewrite H3. tauto.
Qed.

Lemma keys_consistent_release k w :
  keys_consistent w -> keys_consistent (release k w).
Proof.
  intros [H1 H2 H3]. constructor; simpl.
  - by apply NoDup_filter.
  - intros x Hx. apply list_elem_of_filter in Hx as [_ Hx]. by apply H2.
  - intros x. rewrite list_elem_of_filter.
    destruct (decide (x = k)) as [->|Hx].
    + rewrite lookup_delete_eq. split; [by intros []|by intros []].
    + rewrite lookup_delete_ne by done. rewrite H3. tauto.
Qed.

(** ** Frames inside the limits *)

Lemma joint_ok_limits r t z :
  joint_ok r t -> py_int t = Ret z -> r.1 <= z <= r.2.
Proof.
  intros [_ Hin] Hz. unfold in_range, py_le, py_lt in Hin. pose proof one_pos.
  destruct t as [n|[k|s|]]; simpl in *.
  - injection Hz as <-. apply andb_true_iff in Hin as [H1 H2].
    apply negb_true_iff, Z.ltb_ge in H1. apply negb_true_iff, Z.ltb_ge in H2.
    nia.
  - injection Hz as <-. apply andb_true_iff in Hin as [H1 H2].
    apply negb_true_iff, Z.ltb_ge in H1. apply negb_true_iff, Z.ltb_ge in H2.
    split.
    + rewrite <- (Z.quot_mul r.1 one) by lia. apply Z.quot_le_mono; lia.
    + rewrite <- (Z.quot_mul r.2 one) by lia. apply Z.quot_le_mono; lia.
  - by destruct s.
  - done.
Qed.

Lemma limits_of_joints rs : ∀ ts zs,
  Forall2 joint_ok rs ts -> Forall2 (λ t z, py_int t = Ret z) ts zs ->
  Forall2 (λ (r : Z * Z) z, r.1 <= z <= r.2) rs zs.
Proof.
  induction rs as [|r rs IH]; intros ts zs H1 H2.
  - apply Forall2_nil_inv_l in H1 as ->. apply Forall2_nil_inv_l in H2 as ->.
    constructor.
  - apply Forall2_cons_inv_l in H1 as (t & ts' & Ht & H1 & ->).
    apply Forall2_cons_inv_l in H2 as (z & zs' & Hz & H2 & ->).
    constructor; [by eapply joint_ok_limits|by eapply IH].
Qed.

Lemma joints_ok_in_limits w frame :
  joints_ok w -> command_of (motor_targets w) = Ret frame -> in_limits frame.
Proof.
  intros Hw Hf. destruct (joints_ok_frame w Hw) as (zs & Hz & _ & Ec).
  rewrite Ec in Hf. injection Hf as <-. exists zs. split; [done|].
  apply (limits_of_joints _ _ _ (proj1 Hw) Hz).
Qed.

Lemma within_refl w : sends_within_limits w w.
Proof. exists []. by rewrite app_nil_r. Qed.

Lemma within_same w w' :
  serial_io w' = serial_io w -> sends_within_limits w w'.
Proof. intros H. exists []. by rewrite app_nil_r. Qed.

Lemma within_trans w1 w2 w3 :
  sends_within_limits w1 w2 -> sends_within_limits w2 w3 ->
  sends_within_limits w1 w3.
Proof.
  intros (f1 & S1 & L1) (f2 & S2 & L2). exists (f1 ++ f2).
  rewrite S2, S1, <- app_assoc. split; [done|]. by apply Forall_app.
Qed.

Lemma applied_within link j plus w w' :
  applied link j plus w w' -> sends_within_limits w w'.
Proof.
  intros [Hw' (frame & out & Hg & _ & Hc) _].
  exists [(frame, link (length (serial_io w)))]. split; [apply Hg|].
  constructor; [|constructor]. simpl. by eapply joints_ok_in_limits.
Qed.

(** ** One event *)

Lemma handle_event_inv link now ev w :
  joints_ok w ->
  ∃ w', handle_event link now ev w = (Ret tt, w') ∧ joints_ok w' ∧
        (keys_consistent w -> keys_consistent w') ∧
        (int_targets w -> int_targets w') ∧
        sends_within_limits w w' ∧
        running w' = running w && negb (is_exit ev).
Proof.
  intros Hw. destruct ev as [|k|k|].
  - exists (set_running false w). simpl. rewrite andb_false_r.
    do 2 (split; [done|]). split; [by apply keys_consistent_same|].
    split; [done|]. split; [by apply within_same|done].
  - assert (Hskip : key_mapping !! k = None ∨ k ∈ keys_pressed w ->
      ∃ w', handle_event link now (KEYDOWN k) w = (Ret tt, w') ∧ joints_ok w' ∧
            (keys_consistent w -> keys_consistent w') ∧
            (int_targets w -> int_targets w') ∧
            sends_within_limits w w' ∧
            running w' = running w && negb (is_exit (KEYDOWN k))).
    { intros H. rewrite keydown_ignored by done. eexists. split; [done|].
      simpl. case_bool_decide; simpl.
      - rewrite andb_false_r. split; [done|].
        split; [by apply keys_consistent_same|].
        split; [done|]. split; [by apply within_same|done].
      - rewrite andb_true_r. do 3 (split; [done|]).
        split; [apply within_refl|done]. }
    destruct (key_mapping !! k) as [[i d]|] eqn:Ek; [|by apply Hskip; left].
    destruct (decide (k ∈ keys_pressed w)) as [Hin|Hout];
      [by apply Hskip; right|].
    destruct (key_mapping_valid _ _ _ Ek) as (j & plus & -> & Hj & -> & Hesc).
    destruct (keydown_fresh link now k j plus w Hw Ek Hout) as (w' & -> & Ha).
    destruct (applied_grows _ _ _ _ _ Ha) as (frame & out & Hg & _).
    eexists. split; [done|]. split; [|split; [|split; [|split]]].
    + apply (joints_ok_same w'); [done|done|apply Ha].
    + intros Hk.
      apply (keys_consistent_press k (now + KEY_REPEAT_DELAY) w); try done.
      * simpl. rewrite (grows_keys _ _ _ _ Hg). by rewrite press_fresh.
      * simpl. rewrite (grows_times _ _ _ _ Hg). by rewrite press_fresh.
    + intros Hi. apply (int_targets_same w'); [done|].
      apply (applied_int _ _ _ _ _ Ha).
      rewrite press_fresh by done. by apply (int_targets_same w).
    + apply within_trans with (press k w).
      { rewrite press_fresh by done. by apply within_same. }
      apply within_trans with w'; [by eapply applied_within|].
      by apply within_same.
    + simpl. rewrite (grows_running _ _ _ _ Hg). rewrite press_fresh by done.
      simpl. rewrite bool_decide_eq_false_2 by done. by rewrite andb_true_r.
  - exists (release k w). simpl. rewrite andb_true_r.
    do 2 (split; [done|]). split; [by apply keys_consistent_release|].
    split; [done|]. split; [by apply within_same|done].
  - exists w. simpl. rewrite andb_true_r. do 4 (split; [done|]).
    split; [apply within_refl|done].
Qed.

Lemma events_inv link now evs : ∀ w,
  joints_ok w ->
  ∃ w', for_each evs (handle_event link now) w = (Ret tt, w') ∧ joints_ok w' ∧
        (keys_consistent w -> keys_consistent w') ∧
        (int_targets w -> int_targets w') ∧
        sends_within_limits w w' ∧
        running w' = running w && forallb (λ ev, negb (is_exit ev)) evs.
Proof.
  induction evs as [|ev evs IH]; intros w Hw.
  - exists w. simpl. rewrite andb_true_r. do 4 (split; [done|]).
    split; [apply within_refl|done].
  - destruct (handle_event_inv link now ev w Hw)
      as (w1 & E1 & Hw1 & Hk1 & Hi1 & L1 & R1).
    destruct (IH w1 Hw1) as (w2 & E2 & Hw2 & Hk2 & Hi2 & L2 & R2).
    exists w2. split; [simpl; by rewrite (bind_eval _ _ _ _ _ E1)|].
    split; [done|]. split; [auto|]. split; [auto|].
    split; [by eapply within_trans|].
    rewrite R2, R1. simpl. by rewrite andb_assoc.
Qed.

(** ** The repeat pass *)

Lemma repeat_key_inv link now k w :
  joints_ok w ->
  ∃ w', repeat_key link now k w = (Ret tt, w') ∧ joints_ok w' ∧
        (int_targets w -> int_targets w') ∧
        sends_within_limits w w' ∧ running w' = running w.
Proof.
  intros Hw. destruct (fires now w k) as [[i b]|] eqn:Ef.
  - unfold fires in Ef.
    destruct (key_mapping !! k) as [[i' d]|] eqn:Ek; [|done].
    destruct (key_mapping_valid _ _ _ Ek) as (j & plus & -> & _ & -> & _).
    case_bool_decide as Hdue; [|done].
    destruct (repeat_key_fires link now k j plus w Hw Ek Hdue)
      as (_ & w1 & -> & Ha).
    destruct (applied_grows _ _ _ _ _ Ha) as (frame & out & Hg & _).
    eexists. split; [done|]. split; [|split; [|split]].
    + apply (joints_ok_same w1); [done|done|apply Ha].
    + intros Hi. apply (int_targets_same w1); [done|]. by eapply applied_int.
    + apply within_trans with w1; [by eapply applied_within|].
      by apply within_same.
    + simpl. apply Hg.
  - rewrite (repeat_key_idle link now k w Ef). exists w.
    do 3 (split; [done|]). split; [apply within_refl|done].
Qed.

Lemma repeat_keys_inv link now (keys : list Z) : ∀ w,
  joints_ok w ->
  ∃ w', for_each keys (repeat_key link now) w = (Ret tt, w') ∧ joints_ok w' ∧
        (int_targets w -> int_targets w') ∧
        sends_within_limits w w' ∧ running w' = running w.
Proof.
  induction keys as [|k keys IH]; intros w Hw.
  - exists w. do 3 (split; [done|]). split; [apply within_refl|done].
  - destruct (repeat_key_inv link now k w Hw) as (w1 & E1 & Hw1 & Hi1 & L1 & R1).
    destruct (IH w1 Hw1) as (w2 & E2 & Hw2 & Hi2 & L2 & R2).
    exists w2. split; [simpl; by rewrite (bind_eval _ _ _ _ _ E1)|].
    split; [done|]. split; [auto|]. split; [by eapply within_trans|].
    by rewrite R2.
Qed.

Lemma repeat_pass_keys now w w' :
  keys_consistent w -> keys_pressed w' = keys_pressed w ->
  (∀ k, last_command_time w' !! k
        = if bool_decide (k ∈ keys_pressed w ∧ is_Some (fires now w k))
          then Some (now + KEY_REPEAT_INTERVAL)
          else last_command_time w !! k) ->
  keys_consistent w'.
Proof.
  intros [H1 H2 H3] Ek Et. constructor; rewrite ?Ek; [done|done|].
  intros k. rewrite Et. case_bool_decide as Hc.
  - split; [by intros _; apply Hc|by eexists].
  - apply H3.
Qed.

(** ** One iteration, and the loop *)

Lemma loop_body_inv link now evs w :
  joints_ok w ->
  ∃ w', loop_body link now evs w = (Ret tt, w') ∧ joints_ok w' ∧
        (keys_consistent w -> keys_consistent w') ∧
        (int_targets w -> int_targets w') ∧
        sends_within_limits w w' ∧ extends w w' ∧
        running w' = running w && forallb (λ ev, negb (is_exit ev)) evs.
Proof.
  intros Hw.
  destruct (loop_body_ok link now evs w Hw) as (w' & E & Hw' & X).
  exists w'. split; [done|]. split; [done|].
  revert E. unfold loop_body.
  destruct (events_inv link now evs w Hw)
    as (w1 & E1 & Hw1 & Hk1 & Hi1 & L1 & R1).
  destruct (repeat_keys_inv link now (keys_pressed w1) w1 Hw1)
    as (w2 & E2 & Hw2 & Hi2 & L2 & R2).
  destruct (update_motor_angles_ok w2 Hw2) as (cs & E3 & _ & _).
  rewrite (bind_eval _ _ _ _ _ E1).
  rewrite (bind_eval _ _ w1 (keys_pressed w1) w1) by done.
  rewrite (bind_eval _ _ _ _ _ E2), E3. intros [= <-].
  split; [|split; [|split; [|split]]].
  - intros Hk. specialize (Hk1 Hk).
    destruct (repeat_pass link now (keys_pressed w1) w1 Hw1
                (held_distinct _ Hk1))
      as (w2' & out & E2' & _ & _ & _ & _ & K2 & _ & _ & T2).
    rewrite E2 in E2'. injection E2' as <-.
    apply (keys_consistent_same w2); [done|done|].
    apply (repeat_pass_keys now w1 w2 Hk1 K2 T2).
  - intros Hi. apply (int_targets_same w2); auto.
  - apply within_trans with w1; [done|].
    apply within_trans with w2; [done|]. by apply within_same.
  - done.
  - simpl. by rewrite R2, R1.
Qed.

Lemma main_loop_stopped link frames w :
  running w = false -> main_loop link frames w = (Ret tt, w).
Proof.
  intros H. destruct frames as [|[now evs] rest]; [done|]. simpl.
  rewrite (bind_eval _ _ w (running w) w) by done. by rewrite H.
Qed.

Lemma main_loop_step link now evs rest w w' :
  running w = true -> loop_body link now evs w = (Ret tt, w') ->
  main_loop link ((now, evs) :: rest) w = main_loop link rest w'.
Proof.
  intros H E. simpl. rewrite (bind_eval _ _ w (running w) w) by done.
  rewrite H. by rewrite (bind_eval _ _ _ _ _ E).
Qed.

Lemma main_loop_inv link frames : ∀ w,
  joints_ok w ->
  ∃ w', main_loop link frames w = (Ret tt, w') ∧ joints_ok w' ∧
        (keys_consistent w -> keys_consistent w') ∧
        (int_targets w -> int_targets w') ∧
        sends_within_limits w w' ∧ extends w w'.
Proof.
  induction frames as [|[now evs] rest IH]; intros w Hw.
  { exists w. do 4 (split; [done|]).
    split; [apply within_refl|apply extends_refl]. }
  destruct (running w) eqn:Hr.
  - destruct (loop_body_inv link now evs w Hw)
      as (w1 & E1 & Hw1 & Hk1 & Hi1 & L1 & X1 & _).
    destruct (IH w1 Hw1) as (w2 & E2 & Hw2 & Hk2 & Hi2 & L2 & X2).
    exists w2. rewrite (main_loop_step _ _ _ _ _ _ Hr E1).
    split; [done|]. split; [done|]. split; [auto|]. split; [auto|].
    split; [by eapply within_trans|by eapply extends_trans].
  - exists w. rewrite main_loop_stopped by done. do 4 (split; [done|]).
    split; [apply within_refl|apply extends_refl].
Qed.

(** A run that meets an exit event ends with the flag cleared. *)
Lemma main_loop_exits link frames : ∀ w,
  joints_ok w ->
  Exists (λ f : Z * list event, existsb is_exit f.2 = true) frames ->
  running (main_loop link frames w).2 = false.
Proof.
  induction frames as [|[now evs] rest IH]; intros w Hw Hx.
  { by apply Exists_nil in Hx. }
  destruct (running w) eqn:Hr; [|by rewrite main_loop_stopped].
  destruct (loop_body_inv link now evs w Hw)
    as (w1 & E1 & Hw1 & _ & _ & _ & _ & R1).
  rewrite (main_loop_step _ _ _ _ _ _ Hr E1).
  apply Exists_cons in Hx as [Hx|Hx].
  - rewrite main_loop_stopped; [|rewrite R1, Hr]; simpl in *.
    + rewrite R1, Hr. simpl.
      apply not_true_is_false. intros Hall.
      apply existsb_exists in Hx as (ev & Hin & Hev).
      rewrite forallb_forall in Hall. specialize (Hall ev Hin).
      by rewrite Hev in Hall.
    + apply not_true_is_false. intros Hall.
      apply existsb_exists in Hx as (ev & Hin & Hev).
      rewrite forallb_forall in Hall. specialize (Hall ev Hin).
      by rewrite Hev in Hall.
  - by apply IH.
Qed.

Lemma initial_world_keys : keys_consistent initial_world.
Proof.
  constructor; simpl.
  - apply NoDup_nil_2.
  - intros k H. by apply elem_of_nil in H.
  - intros k. rewrite lookup_empty. split; [by intros []|].
    intros H. by apply elem_of_nil in H.
Qed.

Lemma initial_world_ints : int_targets initial_world.
Proof. unfold int_targets. simpl. by repeat constructor. Qed.

(** * Further properties of the console *)

Lemma forallb_not_exit evs :
  forallb (λ ev, negb (is_exit ev)) evs = negb (existsb is_exit evs).
Proof.
  induction evs as [|ev evs IH]; [done|]. simpl. rewrite IH.
  by destruct (is_exit ev).
Qed.

Lemma int_targets_list w :
  int_targets w -> ∃ zs, motor_targets w = PyInt <$> zs.
Proof.
  unfold int_targets. induction (motor_targets w) as [|t ts IH]; intros H.
  - by exists [].
  - apply Forall_cons in H as [Ht H]. destruct (is_int_inv _ Ht) as [z ->].
    destruct (IH H) as [zs ->]. by exists (z :: zs).
Qed.

Lemma py_int_ints zs : Forall2 (λ t z, py_int t = Ret z) (PyInt <$> zs) zs.
Proof. induction zs; constructor; done. Qed.

Lemma field_of_inv ts i s : field_of ts i = Ret s -> ∃ z : Z, s = pretty z.
Proof.
  unfold field_of. destruct (getitem ts i) as [t|]; [|done]. simpl.
  destruct (py_int t) as [z|]; [|done]. simpl. intros [= <-]. by exists z.
Qed.

Lemma command_of_whole ts s :
  command_of ts = Ret s -> ∃ zs, length zs = 6%nat ∧ s = wire_frame zs.
Proof.
  unfold command_of.
  destruct (field_of ts 0) as [s0|] eqn:E0; [|done]. simpl.
  destruct (field_of ts 1) as [s1|] eqn:E1; [|done]. simpl.
  destruct (field_of ts 2) as [s2|] eqn:E2; [|done]. simpl.
  destruct (field_of ts 3) as [s3|] eqn:E3; [|done]. simpl.
  destruct (field_of ts 4) as [s4|] eqn:E4; [|done]. simpl.
  destruct (field_of ts 5) as [s5|] eqn:E5; [|done]. simpl.
  intros [= <-].
  apply field_of_inv in E0 as [z0 ->]. apply field_of_inv in E1 as [z1 ->].
  apply field_of_inv in E2 as [z2 ->]. apply field_of_inv in E3 as [z3 ->].
  apply field_of_inv in E4 as [z4 ->]. apply field_of_inv in E5 as [z5 ->].
  by exists [z0; z1; z2; z3; z4; z5].
Qed.

Lemma filter_other (k : Z) (l : list Z) :
  k ∉ l -> filter (λ x, x ≠ k) l = l.
Proof.
  induction l as [|x l IH]; intros H; [done|].
  apply not_elem_of_cons in H as [Hx H].
  rewrite filter_cons_True by done. by rewrite IH.
Qed.

(** X1. A run of the main loop over any frames, from any state whose
    joints are inside their ranges, never raises: it returns normally with
    every target and every current still inside its range, the serial
    traffic and the output only grow, and over the whole run one frame is
    handed to the port for each adjustment announced. *)
Theorem run_stays_in_range link frames (w : world) :
  joints_ok w ->
  ∃ w' sent out,
    main_loop link frames w = (Ret tt, w') ∧ joints_ok w' ∧
    serial_io w' = serial_io w ++ sent ∧ stdout w' = stdout w ++ out ∧
    length sent = length (intents out).
Proof.
  intros Hw.
  destruct (main_loop_inv link frames w Hw)
    as (w' & E & Hw' & _ & _ & _ & sent & out & H1 & H2 & H3).
  by exists w', sent, out.
Qed.

Lemma run_stays_in_range_witness :
  joints_ok initial_world ∧
  ∃ w' sent out,
    main_loop quiet [(0, [KEYDOWN K_q; KEYDOWN K_s]); (16, [KEYUP K_q]); (64, [])]
      initial_world = (Ret tt, w') ∧ joints_ok w' ∧
    serial_io w' = serial_io initial_world ++ sent ∧
    stdout w' = stdout initial_world ++ out ∧
    length sent = length (intents out).
Proof.
  split; [apply initial_world_ok|].
  apply (run_stays_in_range quiet _ initial_world). apply initial_world_ok.
Defined.

(** X2. Every frame handed to the serial port during a run that starts
    with the joints inside their ranges carries six integers, the k-th one
    inside the range of joint k: the port is never given a position outside
    a joint's limits. *)
Theorem frames_stay_within_limits link frames (w : world) :
  joints_ok w ->
  ∃ sent,
    serial_io (main_loop link frames w).2 = serial_io w ++ sent ∧
    Forall (λ f : string * io_outcome,
              ∃ zs, f.1 = wire_frame zs ∧
                    Forall2 (λ (r : Z * Z) z, r.1 <= z <= r.2) motor_ranges zs)
           sent.
Proof.
  intros Hw.
  destruct (main_loop_inv link frames w Hw)
    as (w' & E & _ & _ & _ & (sent & H1 & H2) & _).
  exists sent. by rewrite E.
Qed.

Lemma frames_stay_within_limits_witness :
  joints_ok initial_world ∧
  ∃ sent,
    serial_io (main_loop broken [(0, [KEYDOWN K_h]); (50, [])] initial_world).2
    = serial_io initial_world ++ sent ∧
    Forall (λ f : string * io_outcome,
              ∃ zs, f.1 = wire_frame zs ∧
                    Forall2 (λ (r : Z * Z) z, r.1 <= z <= r.2) motor_ranges zs)
           sent.
Proof.
  split; [apply initial_world_ok|].
  apply (frames_stay_within_limits broken _ initial_world).
  apply initial_world_ok.
Defined.

(** X3. The key state stays consistent over a run: the held keys are
    distinct, every held key is a mapped key, and a key has a scheduled
    time exactly when it is held (so the repeat pass never meets an
    unmapped key and never falls back on the default time 0). *)
Theorem key_state_stays_consistent link frames (w : world) :
  joints_ok w -> keys_consistent w ->
  let w' := (main_loop link frames w).2 in
  NoDup (keys_pressed w') ∧
  (∀ k, k ∈ keys_pressed w' -> is_Some (key_mapping !! k)) ∧
  (∀ k, is_Some (last_command_time w' !! k) ↔ k ∈ keys_pressed w').
Proof.
  intros Hw Hk.
  destruct (main_loop_inv link frames w Hw) as (w' & E & _ & Hk' & _).
  rewrite E. simpl. by destruct (Hk' Hk).
Qed.

Lemma key_state_stays_consistent_witness :
  joints_ok initial_world ∧ keys_consistent initial_world ∧
  NoDup (keys_pressed
           (main_loop quiet [(0, [KEYDOWN K_q; KEYDOWN K_w]); (16, [KEYUP K_q])]
              initial_world).2).
Proof.
  split; [apply initial_world_ok|]. split; [apply initial_world_keys|].
  apply (key_state_stays_consistent quiet _ initial_world);
    [apply initial_world_ok|apply initial_world_keys].
Defined.

(** X4. When the targets are Python ints at the start of a run they are
    ints at its end (the keys move them by the int step 3 and the bounds
    are ints), so the frame built from them shows the six targets
    themselves: the truncation of [int()] drops nothing. *)
Theorem targets_stay_integers link frames (w : world) :
  joints_ok w -> int_targets w ->
  let w' := (main_loop link frames w).2 in
  ∃ zs, motor_targets w' = PyInt <$> zs ∧ length zs = 6%nat ∧
        command_of (motor_targets w') = Ret (wire_frame zs).
Proof.
  intros Hw Hi.
  destruct (main_loop_inv link frames w Hw) as (w' & E & Hw' & _ & Hi' & _).
  rewrite E. simpl. destruct (int_targets_list w' (Hi' Hi)) as [zs Ezs].
  destruct (joints_ok_lengths w' Hw') as [L _].
  assert (Hlen : length zs = 6%nat) by by rewrite Ezs, length_fmap in L.
  exists zs. split; [done|]. split; [done|].
  rewrite Ezs. apply command_of_frame; [apply py_int_ints|done].
Qed.

Lemma targets_stay_integers_witness :
  joints_ok initial_world ∧ int_targets initial_world ∧
  ∃ zs, motor_targets
          (main_loop quiet [(0, [KEYDOWN K_q]); (64, [])] initial_world).2
        = PyInt <$> zs ∧ length zs = 6%nat ∧
        command_of (motor_targets
          (main_loop quiet [(0, [KEYDOWN K_q]); (64, [])] initial_world).2)
        = Ret (wire_frame zs).
Proof.
  split; [apply initial_world_ok|]. split; [apply initial_world_ints|].
  apply (targets_stay_integers quiet _ initial_world);
    [apply initial_world_ok|apply initial_world_ints].
Defined.

(** X5. Closing the window or pressing Escape does not cut the frame
    short: the iteration in which the event arrives runs to its end (the
    events after it, the repeat pass and the smoothing pass), the running
    flag is then clear, and no later frame is run.  Without such an event
    the flag stays set and the loop goes on with the next frame; once the
    flag is clear the loop does nothing. *)
Theorem exit_ends_the_run link now evs rest (w : world) :
  joints_ok w -> running w = true ->
  ∃ w', loop_body link now evs w = (Ret tt, w') ∧
    (existsb is_exit evs = true ->
     running w' = false ∧
     main_loop link ((now, evs) :: rest) w = (Ret tt, w')) ∧
    (existsb is_exit evs = false ->
     running w' = true ∧
     main_loop link ((now, evs) :: rest) w = main_loop link rest w') ∧
    (∀ frames w0, running w0 = false ->
       main_loop link frames w0 = (Ret tt, w0)).
Proof.
  intros Hw Hr.
  destruct (loop_body_inv link now evs w Hw)
    as (w' & E & _ & _ & _ & _ & _ & R).
  rewrite Hr, forallb_not_exit in R. simpl in R.
  exists w'. split; [done|].
  rewrite (main_loop_step _ _ _ _ _ _ Hr E).
  split; [|split].
  - intros Hx. rewrite Hx in R. split; [done|]. by apply main_loop_stopped.
  - intros Hx. by rewrite Hx in R.
  - intros frames w0. apply main_loop_stopped.
Qed.

Lemma exit_ends_the_run_witness :
  joints_ok initial_world ∧ running initial_world = true ∧
  ∃ w', loop_body quiet 0 [QUIT; KEYDOWN K_q] initial_world = (Ret tt, w') ∧
        running w' = false ∧
        main_loop quiet [(0, [QUIT; KEYDOWN K_q]); (16, [KEYDOWN K_w])]
          initial_world = (Ret tt, w').
Proof.
  split; [apply initial_world_ok|]. split; [reflexivity|].
  destruct (exit_ends_the_run quiet 0 [QUIT; KEYDOWN K_q] [(16, [KEYDOWN K_w])]
              initial_world initial_world_ok eq_refl)
    as (w' & E & Hx & _).
  exists w'. split; [exact E|]. exact (Hx eq_refl).
Defined.

(** X6. A run that meets an exit event ends, and the statement after the
    loop then only replaces the status line by the literal it is given and
    prints it: nothing is written to the serial port and no target, current
    or key state changes. *)
Theorem shutdown_sends_nothing link frames (w : world) :
  joints_ok w ->
  Exists (λ f : Z * list event, existsb is_exit f.2 = true) frames ->
  ∃ w1, main_loop link frames w = (Ret tt, w1) ∧ running w1 = false ∧
        program link frames w
        = (Ret tt,
           set_stdout (stdout w1 ++ [Command (Literal "System Shutdown")])
             (set_action_text (Literal "System Shutdown") w1)).
Proof.
  intros Hw Hx.
  destruct (main_loop_inv link frames w Hw) as (w1 & E & _).
  pose proof (main_loop_exits link frames w Hw Hx) as R. rewrite E in R.
  exists w1. split; [done|]. split; [done|].
  unfold program. by rewrite (bind_eval _ _ _ _ _ E).
Qed.

Lemma shutdown_sends_nothing_witness :
  joints_ok initial_world ∧
  Exists (λ f : Z * list event, existsb is_exit f.2 = true)
    [(0, [KEYDOWN K_q]); (16, [KEYDOWN K_ESCAPE])] ∧
  ∃ w1, main_loop quiet [(0, [KEYDOWN K_q]); (16, [KEYDOWN K_ESCAPE])]
          initial_world = (Ret tt, w1) ∧ running w1 = false ∧
        program quiet [(0, [KEYDOWN K_q]); (16, [KEYDOWN K_ESCAPE])]
          initial_world
        = (Ret tt,
           set_stdout (stdout w1 ++ [Command (Literal "System Shutdown")])
             (set_action_text (Literal "System Shutdown") w1)).
Proof.
  assert (Hx : Exists (λ f : Z * list event, existsb is_exit f.2 = true)
                 [(0, [KEYDOWN K_q]); (16, [KEYDOWN K_ESCAPE])]).
  { right. left. reflexivity. }
  split; [apply initial_world_ok|]. split; [exact Hx|].
  exact (shutdown_sends_nothing quiet _ initial_world initial_world_ok Hx).
Defined.

(** X7. On an int target [t] and with an int step [s] of either sign, an
    increase stores the int [min(max_val, t + s)] and a decrease the int
    [max(min_val, t - s)], and the status line shows that value; only the
    bound in the direction of travel is applied. *)
Theorem integer_adjustment link action (j : nat) (lo hi t s : Z) (plus : bool)
    (w : world) :
  length (motor_targets w) = 6%nat ->
  motor_ranges !! j = Some (lo, hi) ->
  motor_targets w !! j = Some (PyInt t) ->
  let v := if plus then Z.min hi (t + s) else Z.max lo (t - s) in
  let res := update_robot_action link action (Some (Z.of_nat j))
               (Some (direction_name plus)) (PyInt s) w in
  res.1 = Ret tt ∧
  motor_targets res.2 = <[j := PyInt v]> (motor_targets w) ∧
  ∃ name, motor_names !! j = Some name ∧
          action_text res.2 = Adjusted (Z.of_nat j + 1) name plus (PyInt s) v.
Proof.
  intros L Hr Ht v res.
  assert (Hj : (j < 6)%nat) by by apply lookup_lt_Some in Hr.
  destruct (motor_names_lookup _ _ Hr) as [name Hn].
  assert (E : res = (Ret tt,
             announced (sent link
               (set_action_text (Adjusted (Z.of_nat j + 1) name plus (PyInt s) v)
                  (set_motor_targets (<[j:=PyInt v]> (motor_targets w)) w))))).
  { apply (update_robot_action_adjust link w action (Z.of_nat j) j L
             (py_index_ranges_nat j Hj) (lo, hi) (PyInt t) name plus (PyInt s)
             (PyInt v) v Hr Hn Ht); [|done].
    apply adjusted_target_int. }
  rewrite E. split; [done|]. split; [done|]. by exists name.
Qed.

Lemma integer_adjustment_witness :
  length (motor_targets initial_world) = 6%nat ∧
  motor_ranges !! 1%nat = Some (512, 634) ∧
  motor_targets initial_world !! 1%nat = Some (PyInt 512) ∧
  motor_targets (update_robot_action quiet "" (Some (Z.of_nat 1))
                   (Some (direction_name true)) (PyInt (- 20)) initial_world).2
  = <[1%nat := PyInt (Z.min 634 (512 + - 20))]> (motor_targets initial_world).
Proof.
  split; [reflexivity|]. split; [reflexivity|]. split; [reflexivity|].
  apply (integer_adjustment quiet "" 1 512 634 512 (- 20) true initial_world);
    reflexivity.
Defined.

(** X8. An increase followed by a decrease with the same int step leaves
    the int target [t] at [max(min_val, min(max_val, t + s) - s)]; this is
    [t] again, and the whole list of targets is as before, whenever [t] is
    not below the lower bound and the increase was not clamped. *)
Theorem increase_then_decrease_restores link action (j : nat) (lo hi t s : Z)
    (w : world) :
  length (motor_targets w) = 6%nat ->
  motor_ranges !! j = Some (lo, hi) ->
  motor_targets w !! j = Some (PyInt t) ->
  let up := update_robot_action link action (Some (Z.of_nat j))
              (Some "increase") (PyInt s) in
  let down := update_robot_action link action (Some (Z.of_nat j))
                (Some "decrease") (PyInt s) in
  let w2 := (down (up w).2).2 in
  (down (up w).2).1 = Ret tt ∧
  motor_targets w2
  = <[j := PyInt (Z.max lo (Z.min hi (t + s) - s))]> (motor_targets w) ∧
  (lo <= t -> t + s <= hi -> motor_targets w2 = motor_targets w).
Proof.
  intros L Hr Ht up down w2.
  assert (Hj : (j < 6)%nat) by by apply lookup_lt_Some in Hr.
  destruct (motor_names_lookup _ _ Hr) as [name Hn].
  set (v1 := Z.min hi (t + s)). set (v2 := Z.max lo (v1 - s)).
  set (w1 := announced (sent link
               (set_action_text (Adjusted (Z.of_nat j + 1) name true (PyInt s) v1)
                  (set_motor_targets (<[j:=PyInt v1]> (motor_targets w)) w)))).
  assert (E1 : up w = (Ret tt, w1)).
  { apply (update_robot_action_adjust link w action (Z.of_nat j) j L
             (py_index_ranges_nat j Hj) (lo, hi) (PyInt t) name true (PyInt s)
             (PyInt v1) v1 Hr Hn Ht); [|done].
    apply (adjusted_target_int (lo, hi) t true s). }
  assert (L1 : length (motor_targets w1) = 6%nat).
  { simpl. by rewrite length_insert. }
  assert (Ht1 : motor_targets w1 !! j = Some (PyInt v1)).
  { simpl. apply list_lookup_insert_eq. lia. }
  assert (E2 : down w1 = (Ret tt,
             announced (sent link
               (set_action_text (Adjusted (Z.of_nat j + 1) name false (PyInt s) v2)
                  (set_motor_targets (<[j:=PyInt v2]> (motor_targets w1)) w1))))).
  { apply (update_robot_action_adjust link w1 action (Z.of_nat j) j L1
             (py_index_ranges_nat j Hj) (lo, hi) (PyInt v1) name false (PyInt s)
             (PyInt v2) v2 Hr Hn Ht1); [|done].
    apply (adjusted_target_int (lo, hi) v1 false s). }
  assert (Et : motor_targets w2 = <[j := PyInt v2]> (motor_targets w)).
  { unfold w2. rewrite E1. simpl. rewrite E2. simpl.
    by rewrite list_insert_insert_eq. }
  unfold w2 in *. rewrite E1 in *. simpl in *. rewrite E2 in *. simpl in *.
  split; [done|]. split; [done|].
  intros H1 H2. rewrite Et.
  replace v2 with t by (unfold v2, v1; lia). by apply list_insert_id.
Qed.

Lemma increase_then_decrease_restores_witness :
  length (motor_targets initial_world) = 6%nat ∧
  motor_ranges !! 0%nat = Some (0, 1023) ∧
  motor_targets initial_world !! 0%nat = Some (PyInt 512) ∧
  motor_targets
    (update_robot_action quiet "" (Some (Z.of_nat 0)) (Some "decrease") (PyInt 3)
       (update_robot_action quiet "" (Some (Z.of_nat 0)) (Some "increase")
          (PyInt 3) initial_world).2).2
  = motor_targets initial_world.
Proof.
  split; [reflexivity|]. split; [reflexivity|]. split; [reflexivity|].
  apply (increase_then_decrease_restores quiet "" 0 0 1023 512 3 initial_world);
    [reflexivity|reflexivity|reflexivity|lia|lia].
Defined.

(** X9. A tap, the key-down of a mapped key that is not held followed by
    its key-up, adjusts once (one frame goes to the port) and leaves the
    key state exactly as it was: the same held keys and the same scheduled
    times, so no repeat follows. *)
Theorem tap_leaves_no_key_state link now k (w : world) :
  joints_ok w -> keys_consistent w ->
  is_Some (key_mapping !! k) -> k ∉ keys_pressed w ->
  let res := for_each [KEYDOWN k; KEYUP k] (handle_event link now) w in
  res.1 = Ret tt ∧ keys_pressed res.2 = keys_pressed w ∧
  last_command_time res.2 = last_command_time w ∧
  length (serial_io res.2) = S (length (serial_io w)).
Proof.
  intros Hw Hk [[i d] Ek] Hout.
  destruct (key_mapping_valid _ _ _ Ek) as (j & plus & -> & Hj & -> & Hesc).
  destruct (keydown_fresh link now k j plus w Hw Ek Hout) as (w' & E & Ha).
  destruct (applied_grows _ _ _ _ _ Ha) as (frame & out & Hg & _).
  simpl. rewrite (bind_eval _ _ _ _ _ E). simpl.
  split; [done|].
  rewrite (grows_keys _ _ _ _ Hg), (grows_times _ _ _ _ Hg),
    (grows_serial _ _ _ _ Hg), press_fresh by done. simpl.
  split; [|split].
  - rewrite filter_app, filter_other by done.
    rewrite filter_cons_False by (by intros H; apply H).
    by rewrite filter_nil, app_nil_r.
  - apply delete_insert_id.
    destruct (last_command_time w !! k) eqn:El; [|done].
    exfalso. apply Hout. apply (held_scheduled _ Hk). by eexists.
  - rewrite length_app. simpl. lia.
Qed.

Lemma tap_leaves_no_key_state_witness :
  joints_ok initial_world ∧ keys_consistent initial_world ∧
  is_Some (key_mapping !! K_q) ∧ (K_q ∉ keys_pressed initial_world) ∧
  keys_pressed
    (for_each [KEYDOWN K_q; KEYUP K_q] (handle_event quiet 0) initial_world).2
  = keys_pressed initial_world.
Proof.
  assert (Hm : is_Some (key_mapping !! K_q)) by (eexists; reflexivity).
  assert (Hout : K_q ∉ keys_pressed initial_world)
    by (simpl; apply not_elem_of_nil).
  split; [apply initial_world_ok|]. split; [apply initial_world_keys|].
  split; [exact Hm|]. split; [exact Hout|].
  apply (tap_leaves_no_key_state quiet 0 K_q initial_world
           initial_world_ok initial_world_keys Hm Hout).
Defined.

(** X10. What [send_command] prints, for six targets that [int()]
    accepts: when the write raises, only the error line; when the write
    succeeds, the [Data sent] line with the frame, followed by the response
    line if a response was waiting, or by the error line if reading it
    raised. *)
Theorem send_command_prints link (w : world) (zs : list Z) :
  Forall2 (λ t z, py_int t = Ret z) (motor_targets w) zs ->
  length zs = 6%nat ->
  stdout (send_command link w).2
  = stdout w ++
    match link (length (serial_io w)) with
    | WriteRaises => [CommunicationError TransportError]
    | Written NothingWaiting => [DataSent (wire_frame zs)]
    | Written (Line response) =>
        [DataSent (wire_frame zs); ArduinoResponse response]
    | Written ReadRaises =>
        [DataSent (wire_frame zs); CommunicationError TransportError]
    end.
Proof.
  intros Hz L. rewrite send_command_eq. simpl.
  by rewrite (command_of_frame _ _ Hz L).
Qed.

Lemma send_command_prints_witness :
  stdout (send_command (λ _, Written (Line "ok")) counting_world).2
  = [DataSent "1,2,3,4,5,6*"; ArduinoResponse "ok"].
Proof.
  apply (send_command_prints (λ _, Written (Line "ok")) counting_world
           [1; 2; 3; 4; 5; 6]); [|reflexivity].
  repeat constructor.
Defined.

(** X11. [send_command] never raises and never writes part of a frame,
    whatever the targets are: either the whole frame of six integers is
    handed to the port, or (a target is missing, infinite or not a number)
    nothing is written and one error line is printed. *)
Theorem send_command_all_or_nothing link (w : world) :
  let res := send_command link w in
  res.1 = Ret tt ∧
  ((∃ zs, length zs = 6%nat ∧
          serial_io res.2
          = serial_io w ++ [(wire_frame zs, link (length (serial_io w)))]) ∨
   (∃ e, serial_io res.2 = serial_io w ∧
         stdout res.2 = stdout w ++ [CommunicationError e])).
Proof.
  rewrite send_command_eq. simpl. split; [done|].
  destruct (command_of (motor_targets w)) as [s|e] eqn:Ec; simpl.
  - left. destruct (command_of_whole _ _ Ec) as (zs & L & ->). by exists zs.
  - right. exists e. by rewrite app_nil_r.
Qed.

(** * The rate of the smoothing *)

(** The rounding error is below one step of the grid. *)
Lemma round_at_err j n s :
  0 <= j <= s -> Z.abs n < 2 ^ (s + 53) ->
  n - 2 ^ s < round_at j n * 2 ^ j < n + 2 ^ s.
Proof.
  intros Hj Hn.
  assert (Hg : j <= grid j n <= s).
  { split; [apply grid_ge|]. unfold grid.
    destruct (Z.eq_dec (Z.abs n) 0) as [E|E]; [rewrite E; simpl; lia|].
    assert (Z.log2 (Z.abs n) < s + 53) by (apply Z.log2_lt_pow2; lia). lia. }
  rewrite round_at_scaled by lia.
  set (g := grid j n) in *.
  pose proof (pow2_pos g ltac:(lia)) as HP.
  pose proof (Z.pow_le_mono_r 2 g s ltac:(lia) ltac:(lia)) as Hgs.
  destruct (rne_cases n g ltac:(lia)) as [Hc Hz].
  pose proof (Z.div_mod n (2 ^ g) ltac:(lia)).
  pose proof (Z.mod_pos_bound n (2 ^ g) HP).
  destruct (Z.eq_dec (n mod 2 ^ g) 0) as [E|E].
  - rewrite (Hz E). nia.
  - nia.
Qed.

Lemma ten_tenths : 10 * tenth = 2 ^ 1074 + 2 ^ 1020.
Proof.
  with_strategy transparent [tenth] (unfold tenth).
  rewrite (pow2_split 1074 1019), (pow2_split 1020 1019) by lia.
  change (2 ^ (1074 - 1019)) with 36028797018963968.
  change (2 ^ (1020 - 1019)) with 2. lia.
Qed.

Section Contraction.
Variables av tv : Z.
Hypothesis av_double : round_at 0 av = av.
Hypothesis tv_double : round_at 0 tv = tv.
Hypothesis av_size : Z.abs av <= 2 ^ 1114.
Hypothesis tv_size : Z.abs tv <= 2 ^ 1114.

(** A step towards a target above: nine tenths of the gap remain, up
    to the roundings. *)
Lemma step_up_contracts :
  half < round_at 0 (tv - av) ->
  10 * (tv - round_at 0 (av + round_at 1074 (round_at 0 (tv - av) * tenth)))
  <= 9 * (tv - av) + 2 ^ 1066.
Proof.
  intros Hfd.
  pose proof (step_up av tv av_double tv_double av_size tv_size Hfd)
    as [[Hs1 Hs2] [Hc1 Hc2]].
  pose proof (diff_size av tv av_size tv_size) as Sd.
  set (fd := round_at 0 (tv - av)) in *.
  set (stepv := round_at 1074 (fd * tenth)) in *.
  set (c := round_at 0 (av + stepv)) in *.
  pose proof tenth_bounds as [Tlo Thi]. pose proof ten_tenths as HT.
  pose proof (pow2_pos 1070 ltac:(lia)) as P1070.
  pose proof (pow2_pos 1074 ltac:(lia)) as PW.
  pose proof (pow2_pos 1020 ltac:(lia)) as P1020.
  pose proof (pow2_pos 1060 ltac:(lia)) as P1060.
  pose proof (pow2_pos 1069 ltac:(lia)) as P1069.
  pose proof (pow2_split 1062 1060 ltac:(lia)) as E62.
  pose proof (pow2_split 1063 1060 ltac:(lia)) as E63.
  pose proof (pow2_split 1066 1060 ltac:(lia)) as E66.
  pose proof (pow2_split 1073 1060 ltac:(lia)) as E73.
  change (2 ^ (1062 - 1060)) with 4 in E62.
  change (2 ^ (1063 - 1060)) with 8 in E63.
  change (2 ^ (1066 - 1060)) with 64 in E66.
  change (2 ^ (1073 - 1060)) with 8192 in E73.
  rewrite half_pow in Hfd.
  (* the three roundings *)
  assert (H1 : tv - av - 2 ^ 1063 < fd).
  { pose proof (round_at_err 0 (tv - av) 1063 ltac:(lia)) as H.
    change (2 ^ 0) with 1 in H. rewrite Z.mul_1_r in H. apply H.
    pose proof (pow2_lt 1115 (1063 + 53) ltac:(lia)). lia. }
  assert (H2 : fd * tenth - 2 ^ 2134 < stepv * 2 ^ 1074).
  { apply (round_at_err 1074 (fd * tenth) 2134 ltac:(lia)).
    pose proof (pow2_lt 2186 (2134 + 53) ltac:(lia)).
    pose proof (Z.pow_add_r 2 1115 1071 ltac:(lia) ltac:(lia)) as E.
    replace (1115 + 1071) with 2186 in E by lia.
    rewrite Z.abs_mul, (Z.abs_eq tenth) by lia.
    pose proof (Z.abs_nonneg fd).
    assert (Z.abs fd * tenth <= 2 ^ 1115 * 2 ^ 1071)
      by (apply Z.mul_le_mono_nonneg; lia).
    lia. }
  assert (H3 : av + stepv - 2 ^ 1062 < c).
  { pose proof (round_at_err 0 (av + stepv) 1062 ltac:(lia)) as H.
    change (2 ^ 0) with 1 in H. rewrite Z.mul_1_r in H. apply H.
    pose proof (pow2_lt 1114 (1062 + 53) ltac:(lia)). lia. }
  (* ten steps cover the gap *)
  set (x := tv - av - 2 ^ 1063) in *.
  assert (Hx : 0 <= x).
  { assert (2 ^ 1069 <= tv - av) by lia. unfold x.
    pose proof (pow2_lt 1063 1069 ltac:(lia)). lia. }
  assert (Hm1 : x * tenth <= fd * tenth)
    by (apply Z.mul_le_mono_nonneg_r; lia).
  assert (Hm2 : 10 * (x * tenth) = x * 2 ^ 1074 + x * 2 ^ 1020).
  { replace (10 * (x * tenth)) with (x * (10 * tenth)) by ring.
    rewrite HT. ring. }
  assert (Hm3 : 0 <= x * 2 ^ 1020) by (apply Z.mul_nonneg_nonneg; lia).
  pose proof (Z.pow_add_r 2 1060 1074 ltac:(lia) ltac:(lia)) as E2134.
  replace (1060 + 1074) with 2134 in E2134 by lia.
  assert (Hten : (x - 10 * 2 ^ 1060) * 2 ^ 1074 < 10 * stepv * 2 ^ 1074).
  { replace ((x - 10 * 2 ^ 1060) * 2 ^ 1074)
      with (x * 2 ^ 1074 - 10 * (2 ^ 1060 * 2 ^ 1074)) by ring.
    replace (10 * stepv * 2 ^ 1074) with (10 * (stepv * 2 ^ 1074)) by ring.
    rewrite <- E2134. lia. }
  apply Z.mul_lt_mono_pos_r in Hten; [|lia].
  unfold x in Hten. lia.
Qed.

Lemma step_down_contracts :
  round_at 0 (tv - av) < - half ->
  10 * (round_at 0 (av + round_at 1074 (round_at 0 (tv - av) * tenth)) - tv)
  <= 9 * (av - tv) + 2 ^ 1066.
Proof.
  intros Hfd.
  pose proof (step_down av tv av_double tv_double av_size tv_size Hfd)
    as [[Hs1 Hs2] [Hc1 Hc2]].
  pose proof (diff_size av tv av_size tv_size) as Sd.
  set (fd := round_at 0 (tv - av)) in *.
  set (stepv := round_at 1074 (fd * tenth)) in *.
  set (c := round_at 0 (av + stepv)) in *.
  pose proof tenth_bounds as [Tlo Thi]. pose proof ten_tenths as HT.
  pose proof (pow2_pos 1070 ltac:(lia)) as P1070.
  pose proof (pow2_pos 1074 ltac:(lia)) as PW.
  pose proof (pow2_pos 1020 ltac:(lia)) as P1020.
  pose proof (pow2_pos 1060 ltac:(lia)) as P1060.
  pose proof (pow2_pos 1069 ltac:(lia)) as P1069.
  pose proof (pow2_split 1062 1060 ltac:(lia)) as E62.
  pose proof (pow2_split 1063 1060 ltac:(lia)) as E63.
  pose proof (pow2_split 1066 1060 ltac:(lia)) as E66.
  pose proof (pow2_split 1073 1060 ltac:(lia)) as E73.
  change (2 ^ (1062 - 1060)) with 4 in E62.
  change (2 ^ (1063 - 1060)) with 8 in E63.
  change (2 ^ (1066 - 1060)) with 64 in E66.
  change (2 ^ (1073 - 1060)) with 8192 in E73.
  rewrite half_pow in Hfd.
  assert (H1 : fd < tv - av + 2 ^ 1063).
  { pose proof (round_at_err 0 (tv - av) 1063 ltac:(lia)) as H.
    change (2 ^ 0) with 1 in H. rewrite Z.mul_1_r in H. apply H.
    pose proof (pow2_lt 1115 (1063 + 53) ltac:(lia)). lia. }
  assert (H2 : stepv * 2 ^ 1074 < fd * tenth + 2 ^ 2134).
  { apply (round_at_err 1074 (fd * tenth) 2134 ltac:(lia)).
    pose proof (pow2_lt 2186 (2134 + 53) ltac:(lia)).
    pose proof (Z.pow_add_r 2 1115 1071 ltac:(lia) ltac:(lia)) as E.
    replace (1115 + 1071) with 2186 in E by lia.
    rewrite Z.abs_mul, (Z.abs_eq tenth) by lia.
    pose proof (Z.abs_nonneg fd).
    assert (Z.abs fd * tenth <= 2 ^ 1115 * 2 ^ 1071)
      by (apply Z.mul_le_mono_nonneg; lia).
    lia. }
  assert (H3 : c < av + stepv + 2 ^ 1062).
  { pose proof (round_at_err 0 (av + stepv) 1062 ltac:(lia)) as H.
    change (2 ^ 0) with 1 in H. rewrite Z.mul_1_r in H. apply H.
    pose proof (pow2_lt 1114 (1062 + 53) ltac:(lia)). lia. }
  set (x := av - tv - 2 ^ 1063) in *.
  assert (Hx : 0 <= x).
  { assert (2 ^ 1069 <= av - tv) by lia. unfold x.
    pose proof (pow2_lt 1063 1069 ltac:(lia)). lia. }
  assert (Hm1 : fd * tenth <= - x * tenth)
    by (apply Z.mul_le_mono_nonneg_r; lia).
  assert (Hm2 : 10 * (x * tenth) = x * 2 ^ 1074 + x * 2 ^ 1020).
  { replace (10 * (x * tenth)) with (x * (10 * tenth)) by ring.
    rewrite HT. ring. }
  assert (Hm3 : 0 <= x * 2 ^ 1020) by (apply Z.mul_nonneg_nonneg; lia).
  pose proof (Z.pow_add_r 2 1060 1074 ltac:(lia) ltac:(lia)) as E2134.
  replace (1060 + 1074) with 2134 in E2134 by lia.
  assert (Hten : 10 * stepv * 2 ^ 1074 < (10 * 2 ^ 1060 - x) * 2 ^ 1074).
  { replace ((10 * 2 ^ 1060 - x) * 2 ^ 1074)
      with (10 * (2 ^ 1060 * 2 ^ 1074) - x * 2 ^ 1074) by ring.
    replace (10 * stepv * 2 ^ 1074) with (10 * (stepv * 2 ^ 1074)) by ring.
    rewrite <- E2134. lia. }
  apply Z.mul_lt_mono_pos_r in Hten; [|lia].
  unfold x in Hten. lia.
Qed.
End Contraction.

Lemma rule_contracts r t a :
  moderate r -> joint_ok r t -> joint_ok r a ->
  ∃ c, tick_smoothing_rule t a = Ret c ∧
       (c = t ∨
        10 * Z.abs (value t - value c)
        <= 9 * Z.abs (value t - value a) + 2 ^ 1066).
Proof.
  intros Hm Ht Ha.
  destruct (joint_ok_view r t Hm Ht) as [tv Vt].
  destruct (joint_ok_view r a Hm Ha) as [av Va].
  destruct Hm as [Hlo Hhi].
  rewrite (value_viewed _ _ _ _ Vt), (value_viewed _ _ _ _ Va).
  destruct (py_sub_viewed _ _ _ _ _ _ Hlo Hhi Vt Va) as (diff & Es & Ef & Eg).
  pose proof (range_units _ _ tv Hlo Hhi (viewed_range _ _ _ _ Vt)) as St.
  pose proof (range_units _ _ av Hlo Hhi (viewed_range _ _ _ _ Va)) as Sa.
  pose proof (viewed_double _ _ _ _ Vt) as Dt.
  pose proof (viewed_double _ _ _ _ Va) as Da.
  pose proof (diff_size av tv Sa St) as Sd.
  pose proof (huge_gt 1115 ltac:(lia)) as Hh.
  pose proof (pow2_lt 1114 1115 ltac:(lia)) as H45.
  unfold tick_smoothing_rule. rewrite Es. simpl. rewrite Eg.
  destruct (Z.ltb_spec half (Z.abs (round_at 0 (tv - av)))) as [Hbig|Hsmall].
  - rewrite py_mul_float, Ef. simpl.
    set (cv := round_at 0 (av + round_at 1074 (round_at 0 (tv - av) * tenth))).
    assert (Hstep : Z.abs (round_at 1074 (round_at 0 (tv - av) * tenth)) < huge ∧
              Z.abs cv < huge ∧
              10 * Z.abs (tv - cv) <= 9 * Z.abs (tv - av) + 2 ^ 1066).
    { destruct (Z.abs_spec (round_at 0 (tv - av))) as [[? E]|[? E]];
        rewrite E in Hbig.
      - pose proof (step_up av tv Da Dt Sa St Hbig) as [[? ?] [Hc1 Hc2]].
        pose proof (step_up_contracts av tv Da Dt Sa St Hbig) as Hc3.
        fold cv in Hc1, Hc2, Hc3.
        split; [lia|]. split; [lia|].
        rewrite (Z.abs_eq (tv - cv)), (Z.abs_eq (tv - av)) by lia. lia.
      - pose proof (step_down av tv Da Dt Sa St ltac:(lia)) as [[? ?] [Hc1 Hc2]].
        pose proof (step_down_contracts av tv Da Dt Sa St ltac:(lia)) as Hc3.
        fold cv in Hc1, Hc2, Hc3.
        split; [lia|]. split; [lia|].
        rewrite (Z.abs_neq (tv - cv)), (Z.abs_neq (tv - av)) by lia. lia. }
    destruct Hstep as (Hsv & Hcv & Hgap).
    rewrite fl_fin by done. rewrite py_add_float, (viewed_float _ _ _ _ Va).
    simpl. fold cv. rewrite fl_fin by done.
    exists (PyFloat (Fin cv)). split; [done|]. right. unfold value; simpl. lia.
  - exists t. split; [done|by left].
Qed.

Lemma smoothing_joint_contracts w (j : nat) r t a :
  joints_ok w -> motor_ranges !! j = Some r ->
  motor_targets w !! j = Some t -> motor_angles w !! j = Some a ->
  ∃ c, motor_angles (update_motor_angles w).2 !! j = Some c ∧
       (c = t ∨
        10 * Z.abs (value t - value c)
        <= 9 * Z.abs (value t - value a) + 2 ^ 1066).
Proof.
  intros Hw Hr Ht Ha.
  destruct (update_motor_angles_ok _ Hw) as (cs & -> & H3 & _). simpl.
  destruct (Forall3_lookup_l _ _ _ _ _ _ H3 Ht) as (a' & c & Ea & Ec & Hrule).
  rewrite Ha in Ea. injection Ea as <-.
  pose proof Hw as [Hts Has].
  destruct (Forall2_lookup_l _ _ _ _ _ Hts Hr) as (t' & Et & Ot).
  destruct (Forall2_lookup_l _ _ _ _ _ Has Hr) as (a' & Ea & Oa).
  rewrite Ht in Et. injection Et as <-. rewrite Ha in Ea. injection Ea as <-.
  destruct (rule_contracts r t a (moderate_lookup _ _ Hr) Ot Oa)
    as (c' & Ec' & Hfacts).
  rewrite Hrule in Ec'. injection Ec' as <-.
  by exists c.
Qed.

(** After [n] passes the gap, less the rounding allowance, is at most
    [(9/10)^n] of what it was, unless the target has been reached. *)
Lemma smoothing_geometric n : ∀ w (j : nat) r t a,
  joints_ok w -> motor_ranges !! j = Some r ->
  motor_targets w !! j = Some t -> motor_angles w !! j = Some a ->
  ∃ c, motor_angles (smoothing_ticks n w) !! j = Some c ∧
       (c = t ∨
        10 ^ Z.of_nat n * (Z.abs (value t - value c) - 2 ^ 1066)
        <= 9 ^ Z.of_nat n * (Z.abs (value t - value a) - 2 ^ 1066)).
Proof.
  induction n as [|n IH]; intros w j r t a Hw Hr Ht Ha.
  { exists a. split; [done|]. right. simpl. lia. }
  rewrite smoothing_ticks_shift.
  destruct (update_motor_angles_keeps w Hw) as [Hw1 Ht1].
  destruct (smoothing_joint_contracts w j r t a Hw Hr Ht Ha)
    as (c1 & Ec1 & [->|Hstep]).
  - exists t. split; [|by left].
    apply (smoothing_stable n _ j r t); [done|done|by rewrite Ht1|done].
  - destruct (IH _ j r t c1 Hw1 Hr ltac:(by rewrite Ht1) Ec1)
      as (c & Ec & [->|Hn]); [exists t; split; [done|by left]|].
    exists c. split; [done|]. right.
    rewrite Nat2Z.inj_succ, !Z.pow_succ_r by lia.
    assert (0 < 10 ^ Z.of_nat n) by (apply Z.pow_pos_nonneg; lia).
    assert (0 < 9 ^ Z.of_nat n) by (apply Z.pow_pos_nonneg; lia).
    set (g := Z.abs (value t - value c) - 2 ^ 1066) in *.
    set (g1 := Z.abs (value t - value c1) - 2 ^ 1066) in *.
    set (g0 := Z.abs (value t - value a) - 2 ^ 1066) in *.
    assert (H10 : 10 * g1 <= 9 * g0) by (unfold g1, g0; lia).
    assert (10 * (10 ^ Z.of_nat n * g) <= 10 * (9 ^ Z.of_nat n * g1)) by lia.
    assert (9 ^ Z.of_nat n * (10 * g1) <= 9 ^ Z.of_nat n * (9 * g0))
      by (apply Z.mul_le_mono_nonneg_l; lia).
    lia.
Qed.

Lemma smoothing_ticks_add n k w :
  smoothing_ticks (k + n) w = smoothing_ticks k (smoothing_ticks n w).
Proof. unfold smoothing_ticks. apply Nat.iter_add. Qed.

Lemma motor_ranges_span (j : nat) r :
  motor_ranges !! j = Some r -> r.2 - r.1 <= 1023.
Proof.
  intros H. do 6 (destruct j as [|j]; [injection H as <-; simpl; lia|]).
  done.
Qed.

Lemma joint_gap (j : nat) r t a :
  motor_ranges !! j = Some r -> joint_ok r t -> joint_ok r a ->
  Z.abs (value t - value a) <= 1023 * one.
Proof.
  intros Hr Ht Ha. pose proof (motor_ranges_span _ _ Hr) as Hs.
  destruct (joint_ok_view r t (moderate_lookup _ _ Hr) Ht) as [tv Vt].
  destruct (joint_ok_view r a (moderate_lookup _ _ Hr) Ha) as [av Va].
  rewrite (value_viewed _ _ _ _ Vt), (value_viewed _ _ _ _ Va).
  pose proof (viewed_range _ _ _ _ Vt). pose proof (viewed_range _ _ _ _ Va).
  pose proof one_pos. nia.
Qed.

Lemma smoothing_settles (w : world) (j : nat) t :
  joints_ok w -> motor_targets w !! j = Some t ->
  ∀ m, (74 <= m)%nat -> motor_angles (smoothing_ticks m w) !! j = Some t.
Proof.
  intros Hw Ht m Hm.
  assert (Hj : (j < 6)%nat).
  { apply lookup_lt_Some in Ht. by rewrite (proj1 (joints_ok_lengths w Hw)) in Ht. }
  destruct (joints_ok_lookup w j Hw Hj) as (r & t' & a & Hr & Ht' & Ha & Ot & Oa).
  rewrite Ht in Ht'. injection Ht' as <-.
  destruct (smoothing_ticks_ok 73 w Hw) as [Hw73 Et73].
  destruct (smoothing_ticks_ok 74 w Hw) as [Hw74 Et74].
  assert (H74 : motor_angles (smoothing_ticks 74 w) !! j = Some t).
  { destruct (smoothing_geometric 73 w j r t a Hw Hr Ht Ha) as (c & Ec & Hc).
    rewrite smoothing_ticks_S.
    destruct (smoothing_joint_step (smoothing_ticks 73 w) j r t c Hw73 Hr
                ltac:(by rewrite Et73) Ec)
      as (c' & Ec' & _ & _ & _ & Hsnap & _).
    rewrite Ec'. f_equal. apply Hsnap.
    destruct Hc as [->|Hc].
    { rewrite Z.sub_diag. simpl. pose proof half_pow.
      pose proof (pow2_pos 1073). lia. }
    pose proof (joint_gap j r t a Hr Ot Oa) as Hg0.
    rewrite half_pow. rewrite one_pow in Hg0.
    pose proof (pow2_pos 1066 ltac:(lia)) as He.
    rewrite (pow2_split 1073 1066) by lia.
    rewrite (pow2_split 1074 1066) in Hg0 by lia.
    change (2 ^ (1073 - 1066)) with 128.
    change (2 ^ (1074 - 1066)) with 256 in Hg0.
    change (Z.of_nat 73) with 73 in Hc.
    set (e := 2 ^ 1066) in *. set (g := Z.abs (value t - value c)) in *.
    set (g0 := Z.abs (value t - value a)) in *. clearbody e g g0. lia. }
  replace m with ((m - 74) + 74)%nat by lia. rewrite smoothing_ticks_add.
  apply (smoothing_stable _ _ j r t); [done|done|by rewrite Et74|done].
Qed.

(** * Settling, idle frames and stray input *)

Lemma smoothing_ticks_angles n : ∀ w,
  joints_ok w -> ∃ cs, smoothing_ticks n w = set_motor_angles cs w.
Proof.
  induction n as [|n IH]; intros w Hw.
  - exists (motor_angles w). by destruct w.
  - rewrite smoothing_ticks_S. destruct (IH w Hw) as [cs E].
    destruct (smoothing_ticks_ok n w Hw) as [Hn _].
    destruct (update_motor_angles_ok _ Hn) as (cs' & -> & _). simpl.
    rewrite E. by exists cs'.
Qed.

Lemma loop_body_idle link now w :
  keys_pressed w = [] -> loop_body link now [] w = update_motor_angles w.
Proof.
  intros Hk. unfold loop_body. simpl.
  rewrite (bind_eval _ _ w tt w) by done.
  rewrite (bind_eval _ _ w (keys_pressed w) w) by done.
  rewrite Hk. simpl. by rewrite (bind_eval _ _ w tt w).
Qed.

Lemma main_loop_idle link frames : ∀ w,
  joints_ok w -> running w = true -> keys_pressed w = [] ->
  Forall (λ f : Z * list event, f.2 = []) frames ->
  main_loop link frames w = (Ret tt, smoothing_ticks (length frames) w).
Proof.
  induction frames as [|[now evs] rest IH]; intros w Hw Hr Hk Hf; [done|].
  apply Forall_cons in Hf as [Hev Hf]. simpl in Hev. subst evs.
  destruct (update_motor_angles_ok w Hw) as (cs & E & _ & Hw1).
  rewrite (main_loop_step link now [] rest w (set_motor_angles cs w) Hr)
    by (by rewrite loop_body_idle).
  rewrite IH by done. simpl length. rewrite smoothing_ticks_shift.
  by rewrite E.
Qed.

(** X12. From any state with the joints inside their ranges, 74 smoothing
    passes are enough for every joint of this robot: after 74 passes, and
    after any larger number, each current is exactly its target. *)
Theorem smoothing_settles_in_74_passes (w : world) (m : nat) :
  joints_ok w -> (74 <= m)%nat ->
  motor_angles (smoothing_ticks m w) = motor_targets w.
Proof.
  intros Hw Hm.
  destruct (smoothing_ticks_ok m w Hw) as [Hwm _].
  destruct (joints_ok_lengths w Hw) as [Lt _].
  destruct (joints_ok_lengths _ Hwm) as [_ La].
  apply list_eq. intros j.
  destruct (motor_targets w !! j) as [t|] eqn:Ht.
  - by apply smoothing_settles.
  - apply lookup_ge_None in Ht. apply lookup_ge_None. lia.
Qed.

Lemma smoothing_settles_in_74_passes_witness :
  joints_ok far_world ∧ (74 <= 80)%nat ∧
  motor_angles (smoothing_ticks 80 far_world) = motor_targets far_world.
Proof.
  split; [apply far_world_ok|]. split; [lia|].
  apply (smoothing_settles_in_74_passes far_world 80); [apply far_world_ok|lia].
Defined.

(** X13. While no key is held and no event arrives, the frames of the
    loop only smooth: [n] such frames are [n] smoothing passes, nothing is
    written to the port or printed and no target moves; after 74 of them
    every current is at its target. *)
Theorem idle_frames_only_smooth link frames (w : world) :
  joints_ok w -> running w = true -> keys_pressed w = [] ->
  Forall (λ f : Z * list event, f.2 = []) frames ->
  let w' := (main_loop link frames w).2 in
  main_loop link frames w = (Ret tt, smoothing_ticks (length frames) w) ∧
  serial_io w' = serial_io w ∧ stdout w' = stdout w ∧
  motor_targets w' = motor_targets w ∧
  ((74 <= length frames)%nat -> motor_angles w' = motor_targets w).
Proof.
  intros Hw Hr Hk Hf. rewrite main_loop_idle by done. simpl.
  split; [done|].
  destruct (smoothing_ticks_angles (length frames) w Hw) as [cs E].
  split; [by rewrite E|]. split; [by rewrite E|]. split; [by rewrite E|].
  intros Hm. apply list_eq. intros j.
  destruct (smoothing_ticks_ok (length frames) w Hw) as [Hwm _].
  destruct (joints_ok_lengths w Hw) as [Lt _].
  destruct (joints_ok_lengths _ Hwm) as [_ La].
  destruct (motor_targets w !! j) as [t|] eqn:Ht.
  - by apply smoothing_settles.
  - apply lookup_ge_None in Ht. apply lookup_ge_None. lia.
Qed.

Lemma idle_frames_only_smooth_witness :
  joints_ok far_world ∧ running far_world = true ∧
  keys_pressed far_world = [] ∧
  Forall (λ f : Z * list event, f.2 = []) [(0, []); (16, [])] ∧
  main_loop quiet [(0, []); (16, [])] far_world
  = (Ret tt, smoothing_ticks 2 far_world).
Proof.
  assert (Hf : Forall (λ f : Z * list event, f.2 = []) [(0, []); (16, [])])
    by (repeat constructor).
  split; [apply far_world_ok|]. split; [reflexivity|]. split; [reflexivity|].
  split; [exact Hf|].
  apply (idle_frames_only_smooth quiet [(0, []); (16, [])] far_world
           far_world_ok eq_refl eq_refl Hf).
Defined.

(** X14. A key-up for a key that is not held is ignored: in a consistent
    key state it changes nothing at all. *)
Theorem stray_key_up_is_ignored link now k (w : world) :
  keys_consistent w -> k ∉ keys_pressed w ->
  handle_event link now (KEYUP k) w = (Ret tt, w).
Proof.
  intros Hk Hout. simpl. unfold modify. f_equal.
  assert (Hn : last_command_time w !! k = None).
  { destruct (last_command_time w !! k) eqn:El; [|done].
    exfalso. apply Hout. apply (held_scheduled _ Hk). by eexists. }
  unfold release. rewrite filter_other, delete_id by done. by destruct w.
Qed.

Lemma stray_key_up_is_ignored_witness :
  keys_consistent initial_world ∧ (K_q ∉ keys_pressed initial_world) ∧
  handle_event quiet 0 (KEYUP K_q) initial_world = (Ret tt, initial_world).
Proof.
  assert (Hout : K_q ∉ keys_pressed initial_world)
    by (simpl; apply not_elem_of_nil).
  split; [apply initial_world_keys|]. split; [exact Hout|].
  apply (stray_key_up_is_ignored quiet 0 K_q initial_world
           initial_world_keys Hout).
Defined.

(** X15. A step that is not a number is not refused: [min] and [max] keep
    their first argument when the comparison with a NaN fails, so an
    increase by NaN stores [max_val] and a decrease by NaN stores
    [min_val]; the frame is then sent as for any adjustment. *)
Theorem nan_step_goes_to_the_bound link action (j : nat) (lo hi : Z)
    (plus : bool) (w : world) :
  joints_ok w -> motor_ranges !! j = Some (lo, hi) ->
  let res := update_robot_action link action (Some (Z.of_nat j))
               (Some (direction_name plus)) (PyFloat NaN) w in
  res.1 = Ret tt ∧
  motor_targets res.2
  = <[j := PyInt (if plus then hi else lo)]> (motor_targets w) ∧
  length (serial_io res.2) = S (length (serial_io w)).
Proof.
  intros Hw Hr res.
  assert (Hj : (j < 6)%nat) by by apply lookup_lt_Some in Hr.
  destruct (joints_ok_lookup w j Hw Hj) as (r & t & a & Hr' & Ht & _ & Ot & _).
  rewrite Hr in Hr'. injection Hr' as <-.
  destruct (motor_names_lookup _ _ Hr) as [name Hn].
  destruct (joints_ok_lengths w Hw) as [L _].
  destruct (joint_ok_view _ t (moderate_lookup _ _ Hr) Ot) as [tv Vt].
  assert (Ev : adjusted_target (lo, hi) t plus (PyFloat NaN)
               = Ret (PyInt (if plus then hi else lo))).
  { unfold adjusted_target. destruct plus.
    - rewrite py_add_float, (viewed_float _ _ _ _ Vt). done.
    - rewrite py_sub_float_r, (viewed_float _ _ _ _ Vt). done. }
  assert (E : res = (Ret tt,
             announced (sent link
               (set_action_text
                  (Adjusted (Z.of_nat j + 1) name plus (PyFloat NaN)
                     (if plus then hi else lo))
                  (set_motor_targets
                     (<[j:=PyInt (if plus then hi else lo)]> (motor_targets w))
                     w))))).
  { by apply (update_robot_action_adjust link w action (Z.of_nat j) j L
                (py_index_ranges_nat j Hj) (lo, hi) t name plus (PyFloat NaN)
                (PyInt (if plus then hi else lo)) (if plus then hi else lo)
                Hr Hn Ht Ev). }
  rewrite E. split; [done|]. split; [done|]. simpl.
  assert (Hok : joints_ok
            (set_motor_targets
               (<[j:=PyInt (if plus then hi else lo)]> (motor_targets w)) w)).
  { apply (joints_ok_insert w j (lo, hi)); [done|done|].
    apply joint_ok_int. simpl.
    destruct Ot as [_ Hin]. pose proof (viewed_range _ _ _ _ Vt) as Hv.
    simpl in Hv. pose proof one_pos. destruct plus; nia. }
  destruct (joints_ok_frame _ Hok) as (zs & _ & _ & Ec). simpl in Ec.
  rewrite Ec. simpl. rewrite length_app. simpl. lia.
Qed.

Lemma nan_step_goes_to_the_bound_witness :
  joints_ok initial_world ∧ motor_ranges !! 2%nat = Some (104, 924) ∧
  motor_targets (update_robot_action quiet "" (Some (Z.of_nat 2))
                   (Some (direction_name false)) (PyFloat NaN)
                   initial_world).2
  = <[2%nat := PyInt 104]> (motor_targets initial_world).
Proof.
  split; [apply initial_world_ok|]. split; [reflexivity|].
  apply (nan_step_goes_to_the_bound quiet "" 2 104 924 false initial_world);
    [apply initial_world_ok|reflexivity].
Defined.

(** * The dashboard *)

(** ** Division inside the unit interval *)

Lemma sticky_quotient_bounds n b :
  0 < b -> 0 <= n <= b * one -> 0 <= sticky_quotient n b <= 4 * one.
Proof.
  intros Hb Hn. unfold sticky_quotient.
  pose proof (Z.div_mod (2 * n) b ltac:(lia)) as E.
  pose proof (Z.mod_pos_bound (2 * n) b Hb) as Hr.
  assert (Hq : 0 <= 2 * n / b) by (apply Z.div_pos; lia).
  set (q := 2 * n / b) in *. set (r := (2 * n) mod b) in *.
  destruct (Z.eqb_spec r 0) as [Hz|Hz].
  - split; [lia|]. assert (b * q <= b * (2 * one)) by lia.
    apply Z.mul_le_mono_pos_l in H; lia.
  - split; [lia|]. assert (b * q < b * (2 * one)) by lia.
    apply Z.mul_lt_mono_pos_l in H; lia.
Qed.

Lemma sticky_quotient_zero b : 0 < b -> sticky_quotient 0 b = 0.
Proof.
  intros Hb. unfold sticky_quotient. change (2 * 0) with 0.
  rewrite Z.mod_0_l by lia. by rewrite Zdiv_0_l.
Qed.

Lemma sticky_quotient_whole b : 0 < b -> sticky_quotient (b * one) b = 4 * one.
Proof.
  intros Hb. unfold sticky_quotient.
  replace (2 * (b * one)) with (2 * one * b) by ring.
  rewrite Z.div_mul, Z.mod_mul by lia. simpl. lia.
Qed.

Lemma four_ones : 4 * one = 2 ^ (1074 + 2).
Proof. rewrite one_pow, Z.pow_add_r by lia. change (2 ^ 2) with 4. lia. Qed.

Lemma one_lt_huge : one < huge.
Proof. rewrite one_pow, huge_pow. apply pow2_lt. lia. Qed.

(** The rounded quotient of [n] by [b] when [0 <= n <= b]. *)
Lemma quotient_unit n b :
  0 < b -> 0 <= n <= b * one ->
  ∃ pr, fl 2 (sticky_quotient n b) = Fin pr ∧ 0 <= pr <= one ∧
        (n = 0 -> pr = 0) ∧ (n = b * one -> pr = one).
Proof.
  intros Hb Hn. pose proof (sticky_quotient_bounds n b Hb Hn) as [H0 H1].
  pose proof one_pos. pose proof one_lt_huge.
  assert (Hlo : 0 <= round_at 2 (sticky_quotient n b)).
  { rewrite <- (round_at_0 2) at 1 by lia. by apply round_at_mono. }
  assert (Hone : round_at 2 (4 * one) = one).
  { rewrite four_ones, round_at_pow2 by lia. by rewrite one_pow. }
  assert (Hhi : round_at 2 (sticky_quotient n b) <= one).
  { rewrite <- Hone. by apply round_at_mono. }
  exists (round_at 2 (sticky_quotient n b)).
  split; [apply fl_fin; lia|]. split; [exact (conj Hlo Hhi)|]. split.
  - intros ->. rewrite sticky_quotient_zero by exact Hb. apply round_at_0. lia.
  - intros ->. rewrite sticky_quotient_whole by exact Hb. exact Hone.
Qed.

Lemma int_is_exact z : Z.abs z < 2 ^ 53 -> fl 0 (z * one) = Fin (z * one).
Proof.
  intros Hz. pose proof (round_at_int z Hz) as E.
  rewrite fl_fin; rewrite E; [reflexivity|].
  pose proof one_pos. rewrite Z.abs_mul, (Z.abs_eq one) by lia.
  rewrite huge_pow, one_pow.
  replace 2098 with (1024 + 1074) by lia. rewrite Z.pow_add_r by lia.
  apply Z.mul_lt_mono_pos_r; [by apply pow2_pos|].
  pose proof (pow2_lt 53 1024 ltac:(lia)). lia.
Qed.

(** ** The progress of a joint inside its range *)

Lemma progress_unit lo hi angle :
  moderate (lo, hi) -> joint_ok (lo, hi) angle ->
  ∃ p, progress_of lo hi angle = Ret p ∧ unit_progress p ∧
       (value angle = lo * one -> p = PyInt 0 ∨ p = PyFloat (Fin 0)) ∧
       (value angle = hi * one -> lo < hi -> p = PyFloat (Fin one)).
Proof.
  intros Hm Ha. destruct (joint_ok_view _ _ Hm Ha) as [v [Ev Fv Rv Dv]].
  destruct Hm as [Hlo Hhi]. simpl in *.
  pose proof one_pos as Hone.
  pose proof (pow2_lt 40 53 ltac:(lia)) as H4053.
  pose proof (pow2_pos 40 ltac:(lia)) as H40.
  assert (Hspan : lo <= hi) by nia.
  unfold progress_of. destruct (hi - lo) as [|d|d] eqn:Ed.
  - exists (PyInt 0). split; [done|]. split; [by left|].
    split; [by left|]. lia.
  - assert (Hd : Z.abs (Z.pos d) < 2 ^ 53) by lia.
    destruct angle as [a|f].
    + (* an int angle: one exact quotient *)
      simpl in Ev. injection Ev as <-. simpl.
      destruct (quotient_unit ((a - lo) * one) (Z.pos d) ltac:(lia) ltac:(nia))
        as (pr & Epr & Hpr & Hzero & Hwhole).
      rewrite Epr. exists (PyFloat (Fin pr)).
      split; [done|]. split; [right; by exists pr|].
      unfold value. simpl. split.
      * intros E. right. rewrite Hzero; [done|]. nia.
      * intros E _. rewrite Hwhole; [done|]. nia.
    + (* a float angle: a rounded difference, then the quotient *)
      simpl in Ev. subst f. rewrite py_sub_float_l. simpl.
      rewrite (int_is_exact lo) by lia. simpl.
      replace (v + - (lo * one)) with (v - lo * one) by ring.
      assert (Hp0 : 0 <= round_at 0 (v - lo * one) <= Z.pos d * one).
      { split.
        - rewrite <- (round_at_0 0) at 1 by lia. apply round_at_mono; lia.
        - rewrite <- (round_at_int (Z.pos d)) by lia.
          apply round_at_mono; [lia|]. nia. }
      set (p0 := round_at 0 (v - lo * one)) in *.
      assert (Hh : Z.pos d * one < huge).
      { pose proof (int_is_exact (Z.pos d) Hd) as E.
        unfold fl in E. rewrite (round_at_int _ Hd) in E.
        destruct (Z.leb_spec huge (Z.pos d * one)); [done|lia]. }
      rewrite (int_is_exact (Z.pos d)) by lia.
      rewrite (fl_fin 0 (v - lo * one)) by (fold p0; lia). fold p0. simpl.
      destruct (quotient_unit (p0 * one) (Z.pos d * one) ltac:(lia)
                  ltac:(split; [lia|apply Z.mul_le_mono_nonneg_r; lia]))
        as (pr & Epr & Hpr & Hzero & Hwhole).
      rewrite Epr. exists (PyFloat (Fin pr)).
      split; [done|]. split; [right; by exists pr|].
      unfold value. simpl. split.
      * intros ->. right. rewrite Hzero; [done|].
        unfold p0. rewrite Z.sub_diag, round_at_0; lia.
      * intros -> _. rewrite Hwhole; [done|]. f_equal.
        unfold p0. replace (hi * one - lo * one) with (Z.pos d * one) by lia.
        by apply round_at_int.
  - lia.
Qed.

(** ** The width of the bar *)

Lemma filled_unit bw p :
  0 <= bw < 2 ^ 53 -> unit_progress p ->
  ∃ fw, filled_width_of bw p = Ret fw ∧ 0 <= fw <= bw ∧
        (p = PyInt 0 ∨ p = PyFloat (Fin 0) -> fw = 0) ∧
        (p = PyFloat (Fin one) -> fw = bw).
Proof.
  intros Hbw [->|(pr & -> & Hpr)]; unfold filled_width_of.
  - exists 0. simpl. rewrite Z.mul_0_r. split; [done|]. split; [lia|].
    split; [done|]. intros [=].
  - pose proof one_pos as Hone.
    rewrite py_mul_float. simpl. rewrite int_is_exact by lia. simpl.
    assert (Hfull : round_at 1074 (bw * one * one) = bw * one).
    { rewrite one_pow. apply round_at_form; lia. }
    assert (Hzero : round_at 1074 (bw * one * 0) = 0).
    { rewrite Z.mul_0_r. apply round_at_0. lia. }
    assert (Hm : 0 <= round_at 1074 (bw * one * pr) <= bw * one).
    { split.
      - rewrite <- Hzero. apply round_at_mono; [lia|].
        apply Z.mul_le_mono_nonneg_l; lia.
      - pose proof (round_at_mono 1074 (bw * one * pr) (bw * one * one)
                      ltac:(lia)
                      ltac:(apply Z.mul_le_mono_nonneg_l; lia)) as H.
        by rewrite Hfull in H. }
    set (m := round_at 1074 (bw * one * pr)) in *.
    assert (Hh : bw * one < huge).
    { pose proof (int_is_exact bw ltac:(lia)) as E.
      unfold fl in E. rewrite (round_at_int bw) in E by lia.
      destruct (Z.leb_spec huge (bw * one)); [done|lia]. }
    rewrite fl_fin by (fold m; lia). fold m. simpl.
    exists (Z.quot m one). split; [done|]. split; [|split].
    + split; [apply Z.quot_pos; lia|].
      rewrite <- (Z.quot_mul bw one) by lia. apply Z.quot_le_mono; lia.
    + intros [[=]|[= ->]]. unfold m. rewrite Hzero. by apply Z.quot_0_l, Z.neq_sym, Z.lt_neq.
    + intros [= ->]. unfold m. rewrite Hfull. apply Z.quot_mul. lia.
Qed.

(** ** One gauge *)

Lemma progress_eval lo hi a p w :
  progress_of lo hi a = Ret p ->
  match hi - lo with
  | Z.pos d => above ← lift (py_sub a (PyInt lo)); lift (py_div_pos above d)
  | _ => mret (PyInt 0)
  end w = (Ret p, w).
Proof.
  unfold progress_of. destruct (hi - lo) as [|d|d].
  - by intros [= <-].
  - destruct (py_sub a (PyInt lo)) as [above|e]; simpl; [|done].
    intros E. by rewrite bind_lift_ret, E.
  - by intros [= <-].
Qed.

Section Gauge.
Variable text_width : font → label → Z.
Variables x y width height : Z.

(** The rectangles a gauge draws: the shadow, the card, its border, the
    track and, when it is more than 4 pixels wide, the bar. *)
Lemma draw_motor_gauge_eval (j : nat) lo hi t a name shown p fw st w :
  motor_ranges !! j = Some (lo, hi) -> motor_names !! j = Some name ->
  motor_targets w !! j = Some t -> motor_angles w !! j = Some a ->
  py_int a = Ret shown -> progress_of lo hi a = Ret p ->
  filled_width_of (width - 30) p = Ret fw -> py_int t = Ret st ->
  ∃ shapes,
    draw_motor_gauge text_width x y width height (Z.of_nat j) w
    = (Ret shapes, w) ∧
    rects shapes
    = [Rect (x + 2) (y + 2) width height; Rect x y width height;
       Rect x y width height; Rect (x + 15) (y + 55) (width - 30) 12]
      ++ (if 4 <? fw then [Rect (x + 15) (y + 55) fw 12] else []).
Proof.
  intros Hr Hn Ht Ha Hs Hp Hf Hst. unfold draw_motor_gauge.
  rewrite (bind_eval _ _ _ _ _ (angle_at_nat w j a Ha)).
  rewrite (bind_eval _ _ _ _ _ (target_at_nat w j t Ht)).
  rewrite (getitem_nat _ _ _ Hn), bind_lift_ret.
  rewrite (getitem_nat _ _ _ Hr), bind_lift_ret.
  rewrite Hs, bind_lift_ret.
  rewrite (bind_eval _ _ _ _ _ (progress_eval lo hi a p w Hp)).
  unfold filled_width_of in Hf.
  destruct (py_mul (PyInt (width - 30)) p) as [filled|e] eqn:Em; [|done].
  simpl in Hf. rewrite bind_lift_ret, Hf, bind_lift_ret, Hst, bind_lift_ret.
  eexists. split; [reflexivity|]. by destruct (4 <? fw).
Qed.
End Gauge.

(** ** The gauges of a state with the joints inside their ranges *)

Lemma gauge_inputs w (j : nat) :
  joints_ok w -> (j < 6)%nat ->
  ∃ lo hi t a name shown st,
    motor_ranges !! j = Some (lo, hi) ∧ motor_names !! j = Some name ∧
    motor_targets w !! j = Some t ∧ motor_angles w !! j = Some a ∧
    py_int a = Ret shown ∧ py_int t = Ret st ∧
    moderate (lo, hi) ∧ joint_ok (lo, hi) a.
Proof.
  intros Hw Hj.
  destruct (joints_ok_lookup w j Hw Hj) as ([lo hi] & t & a & Hr & Ht & Ha & Ot & Oa).
  destruct (motor_names_lookup _ _ Hr) as [name Hn].
  destruct (joint_ok_py_int _ _ Oa) as [shown Hs].
  destruct (joint_ok_py_int _ _ Ot) as [st Hst].
  exists lo, hi, t, a, name, shown, st.
  do 6 (split; [done|]). split; [by apply (moderate_lookup j)|done].
Qed.

Lemma gauge_rects text_width x y width height (j : nat) w :
  joints_ok w -> (j < 6)%nat -> 30 <= width < 2 ^ 53 ->
  ∃ shapes bar,
    draw_motor_gauge text_width x y width height (Z.of_nat j) w
    = (Ret shapes, w) ∧
    rects shapes
    = [Rect (x + 2) (y + 2) width height; Rect x y width height;
       Rect x y width height; Rect (x + 15) (y + 55) (width - 30) 12] ++ bar ∧
    (bar = [] ∨
     ∃ fw, bar = [Rect (x + 15) (y + 55) fw 12] ∧ 4 < fw <= width - 30).
Proof.
  intros Hw Hj Hwidth.
  destruct (gauge_inputs w j Hw Hj)
    as (lo & hi & t & a & name & shown & st & Hr & Hn & Ht & Ha & Hs & Hst & Hm & Oa).
  destruct (progress_unit lo hi a Hm Oa) as (p & Hp & Up & _).
  destruct (filled_unit (width - 30) p ltac:(lia) Up) as (fw & Hf & Hfw & _).
  destruct (draw_motor_gauge_eval text_width x y width height j lo hi t a name
              shown p fw st w Hr Hn Ht Ha Hs Hp Hf Hst) as (shapes & E & R).
  exists shapes, (if 4 <? fw then [Rect (x + 15) (y + 55) fw 12] else []).
  split; [exact E|]. split; [exact R|].
  destruct (Z.ltb_spec 4 fw); [right; exists fw; split; [done|lia]|by left].
Qed.

(** X16. In a state with the joints inside their ranges the gauge of a
    joint never raises and leaves the state alone; it draws the shadow, the
    card, its border and the track of the bar, and at most one bar, which
    starts at the left end of the track, is as high as the track, more than
    4 pixels wide and never wider than the track. *)
Theorem gauge_bar_stays_in_track text_width x y width height (j : nat)
    (w : world) :
  joints_ok w -> (j < 6)%nat -> 30 <= width < 2 ^ 53 ->
  ∃ shapes bar,
    draw_motor_gauge text_width x y width height (Z.of_nat j) w
    = (Ret shapes, w) ∧
    rects shapes
    = [Rect (x + 2) (y + 2) width height; Rect x y width height;
       Rect x y width height; Rect (x + 15) (y + 55) (width - 30) 12] ++ bar ∧
    (bar = [] ∨
     ∃ fw, bar = [Rect (x + 15) (y + 55) fw 12] ∧ 4 < fw <= width - 30).
Proof.
  intros Hw Hj Hwidth.
  destruct (gauge_inputs w j Hw Hj)
    as (lo & hi & t & a & name & shown & st & Hr & Hn & Ht & Ha & Hs & Hst & Hm & Oa).
  (* the progress lies between 0 and 1, so the bar fits the track *)
  destruct (progress_unit lo hi a Hm Oa) as (p & Hp & Up & _).
  destruct (filled_unit (width - 30) p ltac:(lia) Up) as (fw & Hf & Hfw & _).
  destruct (draw_motor_gauge_eval text_width x y width height j lo hi t a name
              shown p fw st w Hr Hn Ht Ha Hs Hp Hf Hst) as (shapes & E & R).
  exists shapes, (if 4 <? fw then [Rect (x + 15) (y + 55) fw 12] else []).
  split; [exact E|]. split; [exact R|].
  destruct (Z.ltb_spec 4 fw) as [Hbig|Hsmall].
  - right. exists fw. split; [reflexivity|lia].
  - by left.
Qed.

Lemma gauge_bar_stays_in_track_witness :
  joints_ok initial_world ∧ (0 < 6)%nat ∧ 30 <= 410 < 2 ^ 53 ∧
  ∃ shapes bar,
    draw_motor_gauge (λ _ _, 40) 30 85 410 110 (Z.of_nat 0) initial_world
    = (Ret shapes, initial_world) ∧
    rects shapes
    = [Rect (30 + 2) (85 + 2) 410 110; Rect 30 85 410 110;
       Rect 30 85 410 110; Rect (30 + 15) (85 + 55) (410 - 30) 12] ++ bar ∧
    (bar = [] ∨
     ∃ fw, bar = [Rect (30 + 15) (85 + 55) fw 12] ∧ 4 < fw <= 410 - 30).
Proof.
  split; [apply initial_world_ok|]. split; [lia|]. split; [lia|].
  apply (gauge_bar_stays_in_track (λ _ _, 40) 30 85 410 110 0 initial_world);
    [apply initial_world_ok|lia|lia].
Defined.

(** X17. The bar is empty at the lower bound and full at the upper one:
    with the current position at [min_val] the gauge draws no bar, and with
    it at [max_val] (above [min_val]) the bar is exactly as wide as its
    track, for a track of more than 4 pixels. *)
Theorem gauge_bar_at_the_bounds text_width x y width height (j : nat)
    (lo hi : Z) a (w : world) :
  joints_ok w -> 34 < width < 2 ^ 53 ->
  motor_ranges !! j = Some (lo, hi) -> motor_angles w !! j = Some a ->
  ∃ shapes,
    draw_motor_gauge text_width x y width height (Z.of_nat j) w
    = (Ret shapes, w) ∧
    (value a = lo * one ->
     rects shapes
     = [Rect (x + 2) (y + 2) width height; Rect x y width height;
        Rect x y width height; Rect (x + 15) (y + 55) (width - 30) 12]) ∧
    (value a = hi * one -> lo < hi ->
     rects shapes
     = [Rect (x + 2) (y + 2) width height; Rect x y width height;
        Rect x y width height; Rect (x + 15) (y + 55) (width - 30) 12;
        Rect (x + 15) (y + 55) (width - 30) 12]).
Proof.
  intros Hw Hwidth Hr Ha.
  assert (Hj : (j < 6)%nat) by by apply lookup_lt_Some in Hr.
  destruct (gauge_inputs w j Hw Hj)
    as (lo' & hi' & t & a' & name & shown & st & Hr' & Hn & Ht & Ha' & Hs & Hst
        & Hm & Oa).
  rewrite Hr in Hr'. injection Hr' as <- <-.
  rewrite Ha in Ha'. injection Ha' as <-.
  destruct (progress_unit lo hi a Hm Oa) as (p & Hp & Up & Pz & Pw).
  destruct (filled_unit (width - 30) p ltac:(lia) Up) as (fw & Hf & _ & Fz & Fw).
  destruct (draw_motor_gauge_eval text_width x y width height j lo hi t a name
              shown p fw st w Hr Hn Ht Ha Hs Hp Hf Hst) as (shapes & E & R).
  exists shapes. split; [exact E|]. rewrite R. split.
  - intros Hv. rewrite (Fz (Pz Hv)). reflexivity.
  - intros Hv Hlt. rewrite (Fw (Pw Hv Hlt)).
    destruct (Z.ltb_spec 4 (width - 30)); [reflexivity|lia].
Qed.

Lemma gauge_bar_at_the_bounds_witness :
  joints_ok initial_world ∧ 34 < 410 < 2 ^ 53 ∧
  motor_ranges !! 3%nat = Some (512, 956) ∧
  motor_angles initial_world !! 3%nat = Some (PyInt 956) ∧
  ∃ shapes,
    draw_motor_gauge (λ _ _, 40) 465 220 410 110 (Z.of_nat 3) initial_world
    = (Ret shapes, initial_world) ∧
    rects shapes
    = [Rect (465 + 2) (220 + 2) 410 110; Rect 465 220 410 110;
       Rect 465 220 410 110; Rect (465 + 15) (220 + 55) (410 - 30) 12;
       Rect (465 + 15) (220 + 55) (410 - 30) 12].
Proof.
  split; [apply initial_world_ok|]. split; [lia|]. split; [reflexivity|].
  split; [reflexivity|].
  destruct (gauge_bar_at_the_bounds (λ _ _, 40) 465 220 410 110 3 512 956
              (PyInt 956) initial_world initial_world_ok ltac:(lia)
              eq_refl eq_refl) as (shapes & E & _ & Hfull).
  exists shapes. split; [exact E|]. apply Hfull; [reflexivity|lia].
Defined.

(** ** The whole frame *)

Lemma rects_app a b : rects (a ++ b) = rects a ++ rects b.
Proof. apply omap_app. Qed.

Lemma collect_rects {A} (P : rect → Prop) (body : A → M (list draw)) w :
  ∀ l : list A,
  (∀ i, i ∈ l -> ∃ out, body i w = (Ret out, w) ∧ Forall P (rects out)) ->
  ∃ outs, collect l body w = (Ret outs, w) ∧ Forall P (rects outs).
Proof.
  induction l as [|i l IH]; intros H.
  - exists []. split; [done|constructor].
  - destruct (H i ltac:(left)) as (out & E & Hout).
    destruct (IH ltac:(intros i' Hi'; apply H; by right)) as (outs & Es & Houts).
    exists (out ++ outs). split.
    + simpl. rewrite (bind_eval _ _ _ _ _ E), (bind_eval _ _ _ _ _ Es). done.
    + rewrite rects_app. by apply Forall_app.
Qed.

Lemma gauge_card_cases i :
  0 <= i < 6 ->
  (rect_x (gauge_card i) = 30 ∨ rect_x (gauge_card i) = 465) ∧
  (rect_y (gauge_card i) = 85 ∨ rect_y (gauge_card i) = 220 ∨
   rect_y (gauge_card i) = 355) ∧
  rect_w (gauge_card i) = 410 ∧ rect_h (gauge_card i) = 110.
Proof.
  intros Hi. unfold gauge_card. simpl.
  pose proof (Z.div_mod i 2 ltac:(lia)). pose proof (Z.mod_pos_bound i 2 ltac:(lia)).
  lia.
Qed.

Lemma draw_control_panel_rects text_width w :
  ∃ panel, draw_control_panel text_width w = (Ret panel, w) ∧
           rects panel
           = [Rect 32 532 840 90; Rect 30 530 840 90; Rect 30 530 840 90].
Proof. eexists. split; reflexivity. Qed.

(** X18. Drawing a frame in a state with the joints inside their ranges
    never raises and changes nothing of the state, and every rectangle it
    draws (the cards of the six gauges with their shadows, tracks and bars,
    and the control panel with its shadow) lies inside the 900 by 650
    window, whatever the widths of the rendered texts are. *)
Theorem draw_frame_stays_on_screen text_width (w : world) :
  joints_ok w ->
  ∃ shapes, draw_frame text_width w = (Ret shapes, w) ∧
            Forall (within screen_rect) (rects shapes).
Proof.
  intros Hw. unfold draw_frame.
  rewrite (bind_eval _ _ w (motor_targets w) w) by done.
  rewrite (proj1 (joints_ok_lengths w Hw)).
  destruct (collect_rects (within screen_rect)
              (λ i, let card := gauge_card i in
                    draw_motor_gauge text_width (rect_x card) (rect_y card)
                      (rect_w card) (rect_h card) i) w (seqZ 0 (Z.of_nat 6)))
    as (gauges & Eg & Hg).
  { intros i Hi. apply elem_of_seqZ in Hi.
    destruct (gauge_card_cases i ltac:(lia)) as (Hx & Hy & Hcw & Hch).
    cbv beta zeta. rewrite Hcw, Hch.
    destruct (gauge_rects text_width (rect_x (gauge_card i))
                (rect_y (gauge_card i)) 410 110 (Z.to_nat i) w Hw ltac:(lia)
                ltac:(split; [lia|reflexivity]))
      as (shapes & bar & E & R & Hbar).
    rewrite Z2Nat.id in E by lia.
    exists shapes. split; [exact E|]. rewrite R.
    set (cx := rect_x (gauge_card i)) in *.
    set (cy := rect_y (gauge_card i)) in *.
    unfold within, screen_rect, SCREEN_WIDTH, SCREEN_HEIGHT.
    repeat (apply Forall_cons; split; [simpl; lia|]).
    destruct Hbar as [->|(fw & -> & Hfw)]; [constructor|].
    apply Forall_cons; split; [simpl; lia|constructor]. }
  rewrite (bind_eval _ _ _ _ _ Eg).
  destruct (draw_control_panel_rects text_width w) as (panel & Ep & Rp).
  rewrite (bind_eval _ _ _ _ _ Ep).
  eexists. split; [reflexivity|].
  rewrite !rects_app, Rp. simpl.
  apply Forall_app. split; [exact Hg|].
  unfold within, screen_rect, SCREEN_WIDTH, SCREEN_HEIGHT.
  repeat (apply Forall_cons; split; [simpl; lia|]). constructor.
Qed.

Lemma draw_frame_stays_on_screen_witness :
  joints_ok far_world ∧
  ∃ shapes, draw_frame (λ _ _, 40) far_world = (Ret shapes, far_world) ∧
            Forall (within screen_rect) (rects shapes).
Proof.
  split; [apply far_world_ok|].
  apply (draw_frame_stays_on_screen (λ _ _, 40) far_world). apply far_world_ok.
Defined.



(** Division of sample doubles by positive doubles gives what
    [SpecFloat] gives. *)
Example division_agrees : division_agrees_with_spec = true.
Proof. vm_compute. reflexivity. Qed.

(** ** The bar grows with the position *)







